(** * Request-security layer of the clawsuite server

    A shallow embedding of [src/server/auth-middleware.ts] (session store,
    password verification, CSRF double-submit check, [requireAuth]) and of
    the rate-limiter module ([rateLimit], its cleanup timer, [getClientIp]).

    Conventions of the embedding.
    - A JavaScript string is a sequence of UTF-16 code units.  HTTP
      methods and header values are byte strings, and the values of the
      environment are taken among the Latin-1 texts: these are [string],
      a sequence of code units in the range 0..255, and
      [Buffer_from_utf8] is their UTF-8 encoding.  A candidate password
      and the plaintext secret it is compared with are strings in full,
      [JsString], with [utf8Encode] as [Buffer.from(s, 'utf8')];
      [verifyPasswordWith] takes the two values that [verifyPassword]
      reads from the environment as arguments, so that the secret ranges
      over all strings.
    - [Date.now()] is an explicit argument [now : Z] (milliseconds).
    - Module-level mutable maps are threaded through the functions: a
      function that mutates a map returns the new map.
    - A call that may raise returns a [result]; [try]/[catch] is a match
      on it. *)

From Stdlib Require Import ZArith NArith Ascii String Strings.Byte List Bool Lia.
From Stdlib Require DecimalString DecimalNat.
From stdpp Require Import base option list sorting gmap strings.

Local Open Scope Z_scope.

(* ===================================================================== *)
(** * Part I: definitions                                                  *)
(* ===================================================================== *)

(** ** JavaScript values used by the code *)

(** Truthiness of a string: every string but the empty one. *)
Definition truthy (s : string) : bool :=
  match s with EmptyString => false | String _ _ => true end.

(** Truthiness of a number that is not NaN: every number but zero.  (The
    numbers tested are expiry times, sums of integers.) *)
Definition truthyNum (z : Z) : bool := negb (z =? 0).

(** Truthiness of [string | null | undefined]. *)
Definition truthyOpt (o : option string) : bool :=
  match o with None => false | Some s => truthy s end.

(** White space and line terminators among the code units 0..255:
    TAB, LF, VT, FF, CR, SP and NBSP. *)
Definition isWhiteSpace (c : ascii) : bool :=
  let n := nat_of_ascii c in
  ((9 <=? n)%nat && (n <=? 13)%nat) || (n =? 32)%nat || (n =? 160)%nat.

Fixpoint trimStart (s : string) : string :=
  match s with
  | EmptyString => EmptyString
  | String c s' => if isWhiteSpace c then trimStart s' else s
  end.

Fixpoint trimEnd (s : string) : string :=
  match s with
  | EmptyString => EmptyString
  | String c s' =>
      match trimEnd s' with
      | EmptyString => if isWhiteSpace c then EmptyString else String c EmptyString
      | r => String c r
      end
  end.

(** [s.trim()] *)
Definition trim (s : string) : string := trimEnd (trimStart s).

(** [s.split(sep)] for a one-character separator: never the empty list. *)
Fixpoint split (sep : ascii) (s : string) : list string :=
  match s with
  | EmptyString => [EmptyString]
  | String c s' =>
      if Ascii.eqb c sep then EmptyString :: split sep s'
      else match split sep s' with
           | piece :: rest => String c piece :: rest
           | [] => [String c EmptyString]
           end
  end.

(** [s.startsWith(p)] *)
Fixpoint startsWith (p s : string) : bool :=
  match p, s with
  | EmptyString, _ => true
  | String a p', String b s' => Ascii.eqb a b && startsWith p' s'
  | String _ _, EmptyString => false
  end.

(** [s.substring(n)] for [0 <= n]: the string without its first [n] units. *)
Fixpoint substring (n : nat) (s : string) : string :=
  match n, s with
  | O, _ => s
  | S n', String _ s' => substring n' s'
  | S _, EmptyString => EmptyString
  end.

(** [s.includes(c)] for a one-character needle. *)
Fixpoint includes (c : ascii) (s : string) : bool :=
  match s with
  | EmptyString => false
  | String a s' => Ascii.eqb a c || includes c s'
  end.

(** [toUpperCase] on the letters a..z; the other code units below 128 are
    fixed by it, and no code unit 128..255 maps to an ASCII letter. *)
Definition upperChar (c : ascii) : ascii :=
  let n := nat_of_ascii c in
  if ((97 <=? n)%nat && (n <=? 122)%nat) then ascii_of_nat (n - 32) else c.

Fixpoint toUpperCase (s : string) : string :=
  match s with
  | EmptyString => EmptyString
  | String c s' => String (upperChar c) (toUpperCase s')
  end.

(** ** An insertion-ordered [Map<string, V>]

    The entries in insertion order.  [Map.set] on a present key keeps the
    key's position; [keys().next().value] is the first key. *)
Section JsMap.
Context {V : Type}.

Fixpoint Map_get (k : string) (m : list (string * V)) : option V :=
  match m with
  | [] => None
  | (k', v) :: m' => if String.eqb k k' then Some v else Map_get k m'
  end.

Fixpoint Map_set (k : string) (v : V) (m : list (string * V))
  : list (string * V) :=
  match m with
  | [] => [(k, v)]
  | (k', v') :: m' =>
      if String.eqb k k' then (k', v) :: m' else (k', v') :: Map_set k v m'
  end.

Fixpoint Map_delete (k : string) (m : list (string * V))
  : list (string * V) :=
  match m with
  | [] => []
  | (k', v') :: m' =>
      if String.eqb k k' then m' else (k', v') :: Map_delete k m'
  end.

Definition Map_size (m : list (string * V)) : Z := Z.of_nat (length m).

Definition Map_first_key (m : list (string * V)) : option string :=
  match m with
  | [] => None
  | (k, _) :: _ => Some k
  end.

(** The representation invariant of a [Map]: one entry per key. *)
Definition Map_wf (m : list (string * V)) : Prop := NoDup (map fst m).
End JsMap.

(** ** Session store ([auth-middleware.ts], lines 7-48) *)

Definition MAX_SESSIONS : Z := 1000.
Definition SESSION_TTL_MS : Z := 30 * 24 * 60 * 60 * 1000.

Definition storeSessionToken (token : string) (now : Z)
    (validTokens : list (string * Z)) : list (string * Z) :=
  let validTokens1 :=
    if MAX_SESSIONS <=? Map_size validTokens then
      match Map_first_key validTokens with
      | Some oldestKey =>
          if truthy oldestKey then Map_delete oldestKey validTokens
          else validTokens
      | None => validTokens
      end
    else validTokens in
  Map_set token (now + SESSION_TTL_MS) validTokens1.

Definition isValidSessionToken (token : string) (now : Z)
    (validTokens : list (string * Z)) : bool * list (string * Z) :=
  match Map_get token validTokens with
  | None => (false, validTokens)
  | Some expiresAt =>
      if negb (truthyNum expiresAt) then (false, validTokens)
      else if expiresAt <? now then (false, Map_delete token validTokens)
      else (true, validTokens)
  end.

Definition revokeSessionToken (token : string)
    (validTokens : list (string * Z)) : list (string * Z) :=
  Map_delete token validTokens.

(** The module has no other code that touches [validTokens]: an
    execution of the store is a sequence of these three calls. *)
Inductive SessionOp : Type :=
| OpStore (token : string) (now : Z)
| OpIsValid (token : string) (now : Z)
| OpRevoke (token : string).

Definition sessionStep (validTokens : list (string * Z)) (op : SessionOp)
  : list (string * Z) :=
  match op with
  | OpStore token now => storeSessionToken token now validTokens
  | OpIsValid token now => snd (isValidSessionToken token now validTokens)
  | OpRevoke token => revokeSessionToken token validTokens
  end.

Definition sessionRun (ops : list SessionOp) (validTokens : list (string * Z))
  : list (string * Z) :=
  fold_left sessionStep ops validTokens.

(** Storing a sequence of tokens, each at its own clock reading. *)
Definition storeAll (calls : list (string * Z))
    (validTokens : list (string * Z)) : list (string * Z) :=
  fold_left (fun m call => storeSessionToken (fst call) (snd call) m)
            calls validTokens.

(** The map that [storeSessionToken] writes into: the [if] of lines 23-26
    on its own. *)
Definition afterEviction (validTokens : list (string * Z))
  : list (string * Z) :=
  if MAX_SESSIONS <=? Map_size validTokens then
    match Map_first_key validTokens with
    | Some oldestKey =>
        if truthy oldestKey then Map_delete oldestKey validTokens
        else validTokens
    | None => validTokens
    end
  else validTokens.

(** The token an operation names, and the calls that store a token. *)
Definition opToken (op : SessionOp) : string :=
  match op with
  | OpStore token _ | OpIsValid token _ | OpRevoke token => token
  end.

Definition isStoreOf (token : string) (op : SessionOp) : Prop :=
  match op with
  | OpStore token' _ => token' = token
  | _ => False
  end.

(** The entry that a call of [storeSessionToken] writes. *)
Definition stamped (call : string * Z) : string * Z :=
  (fst call, snd call + SESSION_TTL_MS).

(** ** Rate limiter (rate-limiter module, lines 6-42)

    [store] maps a key to the timestamps of its entry object.  The entry
    is mutated in place, so the map always holds the current list. *)

Definition rateLimit (key : string) (maxRequests windowMs : Z) (now : Z)
    (store : gmap string (list Z)) : bool * gmap string (list Z) :=
  let timestamps := default [] (store !! key) in
  let timestamps1 := List.filter (fun t => now - t <? windowMs) timestamps in
  if maxRequests <=? Z.of_nat (length timestamps1) then
    (false, <[key := timestamps1]> store)
  else
    (true, <[key := timestamps1 ++ [now]]> store).

(** The callback of [setInterval(..., 300_000)]: one firing at time [now]. *)
Definition CLEANUP_CUTOFF_MS : Z := 120000.
Definition CLEANUP_INTERVAL_MS : Z := 300000.

Definition cleanupEntry (now : Z) (timestamps : list Z) : option (list Z) :=
  match List.filter (fun t => now - t <? CLEANUP_CUTOFF_MS) timestamps with
  | [] => None
  | kept => Some kept
  end.

Definition cleanup (now : Z) (store : gmap string (list Z))
  : gmap string (list Z) :=
  omap (cleanupEntry now) store.

(** What happens to the limiter's map: calls of [rateLimit] and firings
    of the timer, each with the clock reading it sees. *)
Inductive LimiterEvent : Type :=
| EvCall (key : string) (maxRequests windowMs : Z) (now : Z)
| EvSweep (now : Z).

Definition limiterStep (st : list bool * gmap string (list Z))
    (ev : LimiterEvent) : list bool * gmap string (list Z) :=
  match ev with
  | EvCall key maxRequests windowMs now =>
      let r := rateLimit key maxRequests windowMs now (snd st) in
      (fst st ++ [fst r], snd r)
  | EvSweep now => (fst st, cleanup now (snd st))
  end.

(** The answers of the calls, in order, and the final map. *)
Definition limiterRun (evs : list LimiterEvent)
    (store : gmap string (list Z)) : list bool * gmap string (list Z) :=
  fold_left limiterStep evs ([], store).

(** ** Requests and configuration *)

(** [process.env], and a [Request] reduced to what the code reads: the
    method and the headers (names in lower case, as [Headers.get] looks
    them up). *)
Record Request : Type := mkRequest {
  method : string;
  headers : gmap string string
}.

Definition headers_get (name : string) (request : Request) : option string :=
  headers request !! name.

(** ** Client address (rate-limiter module, lines 47-65) *)

Definition getClientIp (env : gmap string string) (request : Request)
  : string :=
  let trustedProxy := trim <$> (env !! "TRUSTED_PROXY_IP") in
  let fallback := "local" in
  let viaForwarded :=
    match headers_get "x-forwarded-for" request with
    | Some forwarded =>
        if truthy forwarded
        then trim (hd EmptyString (split "," forwarded))
        else fallback
    | None => fallback
    end in
  if truthyOpt trustedProxy then
    match headers_get "x-real-ip" request with
    | Some realIp => if truthy realIp then trim realIp else viaForwarded
    | None => viaForwarded
    end
  else fallback.

(** ** Password protection switch ([auth-middleware.ts], lines 53-58) *)

Definition nonEmptyVar (v : option string) : bool :=
  match v with
  | Some s => truthy s && (0 <? Z.of_nat (String.length s))
  | None => false
  end.

Definition isPasswordProtectionEnabled (env : gmap string string) : bool :=
  nonEmptyVar (env !! "CLAWSUITE_PASSWORD")
  || nonEmptyVar (env !! "CLAWSUITE_PASSWORD_HASH").

(** ** Cookies ([auth-middleware.ts], lines 107-119 and 186-195) *)

Definition CSRF_COOKIE_NAME : string := "clawsuite-csrf".
Definition CSRF_HEADER_NAME : string := "x-csrf-token".

Definition getSessionTokenFromCookie (cookieHeader : option string)
  : option string :=
  match cookieHeader with
  | None => None
  | Some header =>
      if negb (truthy header) then None
      else
        let cookies := map trim (split ";" header) in
        match List.find (startsWith "clawsuite-auth=") cookies with
        | Some cookie =>
            Some (substring (String.length "clawsuite-auth=") cookie)
        | None => None
        end
  end.

Definition getCsrfTokenFromCookie (cookieHeader : option string)
  : option string :=
  match cookieHeader with
  | None => None
  | Some header =>
      if negb (truthy header) then None
      else
        let cookies := map trim (split ";" header) in
        match List.find (startsWith (CSRF_COOKIE_NAME +:+ "=")) cookies with
        | Some cookie =>
            Some (substring (String.length CSRF_COOKIE_NAME + 1) cookie)
        | None => None
        end
  end.

(** ** Buffers and the [node:crypto] calls *)

Inductive JsError : Type := TypeError | RangeError.

Inductive result (A : Type) : Type :=
| Ok (a : A)
| Throw (e : JsError).
Arguments Ok {A} a.
Arguments Throw {A} e.

#[global] Instance result_ret : MRet result := fun A a => Ok a.
#[global] Instance result_bind : MBind result := fun A B k r =>
  match r with
  | Ok a => k a
  | Throw e => Throw e
  end.

(** UTF-8 of one code unit 0..255: one byte below 128, two bytes above. *)
Definition utf8Unit (c : ascii) : list byte :=
  let n := N_of_ascii c in
  if (n <? 128)%N then [byte_of_ascii c]
  else [byte_of_ascii (ascii_of_N (192 + n / 64));
        byte_of_ascii (ascii_of_N (128 + n mod 64))].

(** [Buffer.from(s, 'utf8')] *)
Fixpoint Buffer_from_utf8 (s : string) : list byte :=
  match s with
  | EmptyString => []
  | String c s' => utf8Unit c ++ Buffer_from_utf8 s'
  end.

(** Reading a UTF-8 buffer back, for buffers made by [Buffer_from_utf8]. *)
Fixpoint utf8Decode (buf : list byte) : string :=
  match buf with
  | [] => EmptyString
  | b :: rest =>
      let n := Byte.to_N b in
      if (n <? 128)%N then String (ascii_of_byte b) (utf8Decode rest)
      else
        match rest with
        | b2 :: rest' =>
            String (ascii_of_N ((n - 192) * 64 + (Byte.to_N b2 - 128)))
                   (utf8Decode rest')
        | [] => EmptyString
        end
  end.

Fixpoint bytesEqual (a b : list byte) : bool :=
  match a, b with
  | [], [] => true
  | x :: a', y :: b' => Byte.eqb x y && bytesEqual a' b'
  | _, _ => false
  end.

(** [timingSafeEqual(a, b)]: raises when the byte lengths differ. *)
Definition timingSafeEqual (a b : list byte) : result bool :=
  if (length a =? length b)%nat then Ok (bytesEqual a b)
  else Throw RangeError.

(** ** JavaScript strings in full

    A JavaScript string is a sequence of UTF-16 code units.  The values
    of headers are byte strings, and the environment is taken to hold
    strings of code units below 256: [string] serves for both.  A
    password that a user submits is any string, as is the plaintext
    secret it is compared with.  A code unit is kept as its two octets,
    the high one first, so that every value of the type is a code unit. *)
Definition CodeUnit : Type := (byte * byte)%type.
Definition JsString : Type := list CodeUnit.

(** The octet of a number below 256. *)
Definition octet (n : N) : byte := byte_of_ascii (ascii_of_N n).

Definition unitValue (u : CodeUnit) : N :=
  (256 * Byte.to_N (fst u) + Byte.to_N (snd u))%N.

Definition unitOf (n : N) : CodeUnit := (octet (n / 256), octet (n mod 256)).

(** A string of code units below 256 among the strings in full. *)
Definition wide (s : string) : JsString :=
  map (fun c => (Byte.x00, byte_of_ascii c)) (list_ascii_of_string s).

(** Truthiness of a string in full: it is not empty. *)
Definition truthyFull (s : JsString) : bool :=
  match s with
  | [] => false
  | _ :: _ => true
  end.

(** High surrogates are D800..DBFF, low surrogates DC00..DFFF. *)
Definition isHighSurrogate (u : CodeUnit) : bool :=
  ((55296 <=? unitValue u) && (unitValue u <? 56320))%N.

Definition isLowSurrogate (u : CodeUnit) : bool :=
  ((56320 <=? unitValue u) && (unitValue u <? 57344))%N.

(** The code point of a surrogate pair. *)
Definition codePointOf (hi lo : CodeUnit) : N :=
  (65536 + (unitValue hi - 55296) * 1024 + (unitValue lo - 56320))%N.

(** U+FFFD, which stands in for a surrogate without its partner. *)
Definition REPLACEMENT : N := 65533%N.

(** UTF-8 of one code point: one to four bytes. *)
Definition utf8Scalar (n : N) : list byte :=
  if (n <? 128)%N then [octet n]
  else if (n <? 2048)%N then
    [octet (192 + n / 64); octet (128 + n mod 64)]
  else if (n <? 65536)%N then
    [octet (224 + n / 4096); octet (128 + (n / 64) mod 64);
     octet (128 + n mod 64)]
  else
    [octet (240 + n / 262144); octet (128 + (n / 4096) mod 64);
     octet (128 + (n / 64) mod 64); octet (128 + n mod 64)].

(** [Buffer.from(s, 'utf8')] on a string in full: a surrogate pair is
    one code point of four bytes, a surrogate without its partner is
    written as U+FFFD (the bytes EF BF BD). *)
Fixpoint utf8Encode (s : JsString) : list byte :=
  match s with
  | [] => []
  | u :: rest =>
      if isHighSurrogate u then
        match rest with
        | v :: rest' =>
            if isLowSurrogate v
            then utf8Scalar (codePointOf u v) ++ utf8Encode rest'
            else utf8Scalar REPLACEMENT ++ utf8Encode rest
        | [] => utf8Scalar REPLACEMENT
        end
      else if isLowSurrogate u then utf8Scalar REPLACEMENT ++ utf8Encode rest
      else utf8Scalar (unitValue u) ++ utf8Encode rest
  end.

(** [s.toWellFormed()]: every surrogate without its partner replaced by
    U+FFFD. *)
Fixpoint toWellFormed (s : JsString) : JsString :=
  match s with
  | [] => []
  | u :: rest =>
      if isHighSurrogate u then
        match rest with
        | v :: rest' =>
            if isLowSurrogate v then u :: v :: toWellFormed rest'
            else unitOf REPLACEMENT :: toWellFormed rest
        | [] => [unitOf REPLACEMENT]
        end
      else if isLowSurrogate u then unitOf REPLACEMENT :: toWellFormed rest
      else u :: toWellFormed rest
  end.

(** [s.isWellFormed()]: no surrogate without its partner. *)
Fixpoint isWellFormed (s : JsString) : bool :=
  match s with
  | [] => true
  | u :: rest =>
      if isHighSurrogate u then
        match rest with
        | v :: rest' => isLowSurrogate v && isWellFormed rest'
        | [] => false
        end
      else negb (isLowSurrogate u) && isWellFormed rest
  end.

(** Reading a UTF-8 buffer back, for buffers made by [utf8Encode]. *)
Fixpoint utf8DecodeUnits (buf : list byte) : JsString :=
  match buf with
  | [] => []
  | b1 :: r1 =>
      let n1 := Byte.to_N b1 in
      if (n1 <? 128)%N then unitOf n1 :: utf8DecodeUnits r1
      else
        match r1 with
        | [] => []
        | b2 :: r2 =>
            let n2 := (Byte.to_N b2 - 128)%N in
            if (n1 <? 224)%N
            then unitOf ((n1 - 192) * 64 + n2) :: utf8DecodeUnits r2
            else
              match r2 with
              | [] => []
              | b3 :: r3 =>
                  let n3 := (Byte.to_N b3 - 128)%N in
                  if (n1 <? 240)%N
                  then unitOf ((n1 - 224) * 4096 + n2 * 64 + n3)
                         :: utf8DecodeUnits r3
                  else
                    match r3 with
                    | [] => []
                    | b4 :: r4 =>
                        let n4 := (Byte.to_N b4 - 128)%N in
                        let above :=
                          ((n1 - 240) * 262144 + n2 * 4096 + n3 * 64 + n4
                           - 65536)%N in
                        unitOf (55296 + above / 1024)
                          :: unitOf (56320 + above mod 1024)
                          :: utf8DecodeUnits r4
                    end
              end
        end
  end.

(** ** Authentication check ([auth-middleware.ts], lines 127-142) *)

Definition isAuthenticated (env : gmap string string) (request : Request)
    (now : Z) (validTokens : list (string * Z))
  : bool * list (string * Z) :=
  if negb (isPasswordProtectionEnabled env) then (true, validTokens)
  else
    let cookieHeader := headers_get "cookie" request in
    let token := getSessionTokenFromCookie cookieHeader in
    match token with
    | Some tok =>
        if negb (truthy tok) then (false, validTokens)
        else isValidSessionToken tok now validTokens
    | None => (false, validTokens)
    end.

(** ** CSRF double-submit check ([auth-middleware.ts], lines 201-224) *)

Definition isSafeMethod (m : string) : bool :=
  String.eqb m "GET" || String.eqb m "HEAD" || String.eqb m "OPTIONS".

Definition validateCsrf (env : gmap string string) (request : Request)
  : bool :=
  let method := toUpperCase (method request) in
  if isSafeMethod method then true
  else if negb (isPasswordProtectionEnabled env) then true
  else
    let cookieToken := getCsrfTokenFromCookie (headers_get "cookie" request) in
    let headerToken := headers_get CSRF_HEADER_NAME request in
    match cookieToken, headerToken with
    | Some cookieToken, Some headerToken =>
        if negb (truthy cookieToken) || negb (truthy headerToken) then false
        else
          let cookieBuf := Buffer_from_utf8 cookieToken in
          let headerBuf := Buffer_from_utf8 headerToken in
          if negb (length cookieBuf =? length headerBuf)%nat then false
          else
            match timingSafeEqual cookieBuf headerBuf with
            | Ok b => b
            | Throw _ => false
            end
    | _, _ => false
    end.

(** ** Responses and [requireAuth] ([auth-middleware.ts], lines 144-161) *)

Inductive JsonValue : Type :=
| JBool (b : bool)
| JString (s : string).

Definition quoted (s : string) : string :=
  String (ascii_of_nat 34) s +:+ String (ascii_of_nat 34) EmptyString.

Definition stringifyField (f : string * JsonValue) : string :=
  quoted (fst f) +:+ ":" +:+
  match snd f with
  | JBool true => "true"
  | JBool false => "false"
  | JString s => quoted s
  end.

Fixpoint joinWith (sep : string) (l : list string) : string :=
  match l with
  | [] => EmptyString
  | [x] => x
  | x :: rest => x +:+ sep +:+ joinWith sep rest
  end.

(** [JSON.stringify] of a flat object whose keys and strings need no
    escaping (the only objects the code serialises). *)
Definition JSON_stringify (fields : list (string * JsonValue)) : string :=
  "{" +:+ joinWith "," (map stringifyField fields) +:+ "}".

Record Response : Type := mkResponse {
  status : Z;
  body : string;
  contentType : string
}.

Definition unauthorizedResponse : Response :=
  mkResponse 401
    (JSON_stringify [("ok", JBool false); ("error", JString "Unauthorized")])
    "application/json".

Definition csrfFailedResponse : Response :=
  mkResponse 403
    (JSON_stringify
       [("ok", JBool false); ("error", JString "CSRF validation failed")])
    "application/json".

Definition requireAuth (env : gmap string string) (request : Request)
    (now : Z) (validTokens : list (string * Z))
  : option Response * list (string * Z) :=
  let '(authenticated, validTokens1) :=
    isAuthenticated env request now validTokens in
  if negb authenticated then (Some unauthorizedResponse, validTokens1)
  else if negb (validateCsrf env request)
       then (Some csrfFailedResponse, validTokens1)
       else (None, validTokens1).

(** ** Hexadecimal buffers and [parseInt] *)

Definition hexDigit (n : N) : ascii :=
  if (n <? 10)%N then ascii_of_N (48 + n) else ascii_of_N (87 + n).

(** [buf.toString('hex')] *)
Fixpoint toHex (buf : list byte) : string :=
  match buf with
  | [] => EmptyString
  | b :: rest =>
      let n := Byte.to_N b in
      String (hexDigit (n / 16)) (String (hexDigit (n mod 16)) (toHex rest))
  end.

Definition hexVal (c : ascii) : option N :=
  let n := N_of_ascii c in
  if ((48 <=? n) && (n <=? 57))%N then Some (n - 48)%N
  else if ((97 <=? n) && (n <=? 102))%N then Some (n - 87)%N
  else if ((65 <=? n) && (n <=? 70))%N then Some (n - 55)%N
  else None.

(** [Buffer.from(s, 'hex')] on a string: pairs of digits are decoded up
    to the first pair that is not hexadecimal; a trailing single digit is
    dropped. *)
Fixpoint fromHex (s : string) : list byte :=
  match s with
  | String a (String b rest) =>
      match hexVal a, hexVal b with
      | Some x, Some y =>
          byte_of_ascii (ascii_of_N (16 * x + y)) :: fromHex rest
      | _, _ => []
      end
  | _ => []
  end.

(** [Buffer.from(x, 'hex')] where [x] may be [undefined]. *)
Definition Buffer_from_hex (x : option string) : result (list byte) :=
  match x with
  | Some s => Ok (fromHex s)
  | None => Throw TypeError
  end.

Definition digitVal (c : ascii) : option Z :=
  let n := N_of_ascii c in
  if ((48 <=? n) && (n <=? 57))%N then Some (Z.of_N n - 48) else None.

(** The value of the longest prefix of decimal digits, if not empty. *)
Fixpoint digitsValue (acc : option Z) (s : string) : option Z :=
  match s with
  | EmptyString => acc
  | String c s' =>
      match digitVal c with
      | Some d => digitsValue (Some (10 * default 0 acc + d)) s'
      | None => acc
      end
  end.

(** [parseInt(x, 10)]; [None] is NaN.  The value is exact here; the code
    only passes it to a range check that rounding cannot change. *)
Definition parseInt10 (x : option string) : option Z :=
  match x with
  | None => None
  | Some s =>
      match trimStart s with
      | String "-" r => Z.opp <$> digitsValue None r
      | String "+" r => digitsValue None r
      | r => digitsValue None r
      end
  end.

(** ** PBKDF2-HMAC-SHA256 (FIPS 180-4, RFC 2104, RFC 8018)

    Words are integers in [0, 2^32); octets are integers in [0, 256). *)

Definition w32 (x : Z) : Z := x mod 4294967296.
Definition add32 (x y : Z) : Z := w32 (x + y).
Definition rotr (n x : Z) : Z :=
  Z.lor (Z.shiftr x n) (w32 (Z.shiftl x (32 - n))).
Definition not32 (x : Z) : Z := Z.lxor x 4294967295.
Definition xor3 (x y z : Z) : Z := Z.lxor (Z.lxor x y) z.
Definition Ch (x y z : Z) : Z := Z.lxor (Z.land x y) (Z.land (not32 x) z).
Definition Maj (x y z : Z) : Z :=
  xor3 (Z.land x y) (Z.land x z) (Z.land y z).
Definition bigSigma0 (x : Z) : Z := xor3 (rotr 2 x) (rotr 13 x) (rotr 22 x).
Definition bigSigma1 (x : Z) : Z := xor3 (rotr 6 x) (rotr 11 x) (rotr 25 x).
Definition smallSigma0 (x : Z) : Z :=
  xor3 (rotr 7 x) (rotr 18 x) (Z.shiftr x 3).
Definition smallSigma1 (x : Z) : Z :=
  xor3 (rotr 17 x) (rotr 19 x) (Z.shiftr x 10).

(** The round constants are the first 32 bits of the fractional parts of
    the cube roots of the first 64 primes, the initial hash value those of
    the square roots of the first 8 primes. *)
Definition isPrime (n : nat) : bool :=
  forallb (fun d => negb (n mod d =? 0)%nat) (seq 2 (n - 2)).

Definition firstPrimes (count : nat) : list Z :=
  map Z.of_nat (firstn count (List.filter isPrime (seq 2 310))).

(** The integer cube root of [n], searched between [lo] and [hi]. *)
Fixpoint cubeRoot (fuel : nat) (lo hi n : Z) : Z :=
  match fuel with
  | O => lo
  | S fuel' =>
      if hi - lo <=? 1 then lo
      else
        let mid := (lo + hi) / 2 in
        if mid * mid * mid <=? n then cubeRoot fuel' mid hi n
        else cubeRoot fuel' lo mid n
  end.

Definition K256 : list Z :=
  Eval vm_compute in
    map (fun p => w32 (cubeRoot 40 0 (2 ^ 36) (p * 2 ^ 96))) (firstPrimes 64).

Definition H256 : list Z :=
  Eval vm_compute in
    map (fun p => w32 (Z.sqrt (p * 2 ^ 64))) (firstPrimes 8).

(** Big-endian words of a run of octets, four octets to a word. *)
Fixpoint wordsOf (octets : list Z) : list Z :=
  match octets with
  | a :: b :: c :: d :: rest =>
      (((a * 256 + b) * 256 + c) * 256 + d) :: wordsOf rest
  | _ => []
  end.

Definition octetsOfWord (w : Z) : list Z :=
  [w / 16777216 mod 256; w / 65536 mod 256; w / 256 mod 256; w mod 256].

(** The message schedule, newest word first: [n] more words on [w]. *)
Fixpoint extendSchedule (n : nat) (w : list Z) : list Z :=
  match n with
  | O => w
  | S n' =>
      let wt := add32 (add32 (smallSigma1 (nth 1 w 0)) (nth 6 w 0))
                      (add32 (smallSigma0 (nth 14 w 0)) (nth 15 w 0)) in
      extendSchedule n' (wt :: w)
  end.

Definition sha256Round (s : list Z) (kw : Z * Z) : list Z :=
  match s with
  | [a; b; c; d; e; f; g; h] =>
      let t1 := add32 (add32 (add32 (add32 h (bigSigma1 e)) (Ch e f g))
                             (fst kw)) (snd kw) in
      let t2 := add32 (bigSigma0 a) (Maj a b c) in
      [add32 t1 t2; a; b; c; add32 d t1; e; f; g]
  | _ => s
  end.

(** One 64-octet block, given as its 16 words. *)
Definition sha256Block (h : list Z) (block : list Z) : list Z :=
  let w := rev (extendSchedule 48 (rev block)) in
  let s := fold_left sha256Round (combine K256 w) h in
  map (fun p => add32 (fst p) (snd p)) (combine h s).

Fixpoint chunks16 (fuel : nat) (ws : list Z) : list (list Z) :=
  match fuel, ws with
  | S fuel', _ :: _ => firstn 16 ws :: chunks16 fuel' (skipn 16 ws)
  | _, _ => []
  end.

Definition sha256Pad (msg : list Z) : list Z :=
  let len := Z.of_nat (length msg) in
  let zeros := Z.to_nat ((55 - len) mod 64) in
  let bits := 8 * len in
  msg ++ [128] ++ repeat 0 zeros
      ++ octetsOfWord (bits / 4294967296) ++ octetsOfWord (w32 bits).

Definition sha256 (msg : list Z) : list Z :=
  let ws := wordsOf (sha256Pad msg) in
  let h := fold_left sha256Block (chunks16 (length ws) ws) H256 in
  flat_map octetsOfWord h.

Definition xorOctets (a b : list Z) : list Z :=
  map (fun p => Z.lxor (fst p) (snd p)) (combine a b).

Definition hmacSha256 (key msg : list Z) : list Z :=
  let key1 := if 64 <? Z.of_nat (length key) then sha256 key else key in
  let key2 := key1 ++ repeat 0 (64 - length key1) in
  let ipad := map (Z.lxor 54) key2 in
  let opad := map (Z.lxor 92) key2 in
  sha256 (opad ++ sha256 (ipad ++ msg)).

(** The first (and for a 32-octet key only) block of PBKDF2. *)
Definition pbkdf2Block (password salt : list Z) (iterations : Z) : list Z :=
  let u1 := hmacSha256 password (salt ++ [0; 0; 0; 1]) in
  let step := fun ut : list Z * list Z =>
    let u := hmacSha256 password (fst ut) in (u, xorOctets (snd ut) u) in
  snd (Z.iter (iterations - 1) step (u1, u1)).

Definition octetOfByte (b : byte) : Z := Z.of_N (Byte.to_N b).
Definition byteOfOctet (z : Z) : byte := byte_of_ascii (ascii_of_N (Z.to_N z)).

(** PBKDF2-HMAC-SHA256 with a 32-byte key, on strings as [pbkdf2Sync]
    takes them (encoded in UTF-8). *)
Definition pbkdf2HmacSha256 (password : JsString) (salt : string)
    (iterations : Z) : list byte :=
  map byteOfOctet
      (pbkdf2Block (map octetOfByte (utf8Encode password))
                   (map octetOfByte (Buffer_from_utf8 salt)) iterations).

(** ** Password verification ([auth-middleware.ts], lines 63-102) *)

Section PasswordVerifier.
(** PBKDF2-HMAC-SHA256 with a 32-byte output, for arguments that
    [pbkdf2Sync] accepts. *)
Variable kdf : JsString -> string -> Z -> list byte.

(** [pbkdf2Sync(password, salt, iterations, 32, 'sha256')]: raises on a
    salt that is not a string or buffer and on an iteration count that
    is not an integer between 1 and 2^31 - 1. *)
Definition pbkdf2Sync (password : JsString) (salt : option string)
    (iterations : option Z) : result (list byte) :=
  match salt with
  | None => Throw TypeError
  | Some salt =>
      match iterations with
      | None => Throw RangeError
      | Some n =>
          if (1 <=? n) && (n <=? 2147483647) then Ok (kdf password salt n)
          else Throw RangeError
      end
  end.

(** The body of the [try] block (lines 68-76). *)
Definition hashAttempt (hashedConfig : string) (password : JsString)
  : result bool :=
  let parts := split ":" hashedConfig in
  let salt := parts !! 0%nat in
  let iterations := parts !! 1%nat in
  let hash := parts !! 2%nat in
  key ← pbkdf2Sync password salt (parseInt10 iterations);
  let derived := toHex key in
  stored ← Buffer_from_hex hash;
  timingSafeEqual (fromHex derived) stored.

(** The plaintext comparison (lines 83-101), on the value read from
    [process.env.CLAWSUITE_PASSWORD]. *)
Definition plaintextAttempt (configured : option JsString)
    (password : JsString) : result bool :=
  match configured with
  | None => Ok false
  | Some configured =>
      if negb (truthyFull configured) || (Z.of_nat (length configured) =? 0)
      then Ok false
      else
        let passwordBuf := utf8Encode password in
        let configuredBuf := utf8Encode configured in
        if negb (length passwordBuf =? length configuredBuf)%nat
        then Ok false
        else
          match timingSafeEqual passwordBuf configuredBuf with
          | Ok b => Ok b
          | Throw _ => Ok false
          end
  end.

(** [verifyPassword] (lines 63-102) as a function of the two values it
    reads from [process.env]: [CLAWSUITE_PASSWORD_HASH] and
    [CLAWSUITE_PASSWORD]. *)
Definition verifyPasswordWith (hashedConfig : option string)
    (configured : option JsString) (password : JsString) : result bool :=
  let viaHash :=
    match hashedConfig with
    | Some h =>
        if truthy h && includes ":" h then
          match hashAttempt h password with
          | Ok b => Some b
          | Throw _ => None
          end
        else None
    | None => None
    end in
  match viaHash with
  | Some b => Ok b
  | None => plaintextAttempt configured password
  end.

(** [verifyPassword] on the environment of this development. *)
Definition verifyPassword (env : gmap string string) (password : JsString)
  : result bool :=
  verifyPasswordWith (env !! "CLAWSUITE_PASSWORD_HASH")
                     (wide <$> env !! "CLAWSUITE_PASSWORD") password.
End PasswordVerifier.

(** ** Inputs used by the examples on the session store *)

(** The decimal numeral of [n] after a letter: distinct non-empty
    strings for distinct [n]. *)
Definition tokenOf (n : nat) : string :=
  String "t" (DecimalString.NilZero.string_of_uint (Nat.to_uint n)).

(** A clock reading of the year 2023. *)
Definition sampleNow : Z := 1700000000000.



(** ** Tokens and cookies ([auth-middleware.ts], lines 14-16, 171-181
    and 229-237) *)

(** [randomBytes(32).toString('hex')], the 32 random bytes being an
    argument. *)
Definition generateSessionToken (randomBytes : list byte) : string :=
  toHex randomBytes.

Definition generateCsrfToken (randomBytes : list byte) : string :=
  toHex randomBytes.

(** The decimal numeral of a non-negative integer, as a template literal
    prints it. *)
Definition decimal (n : N) : string :=
  DecimalString.NilZero.string_of_uint (N.to_uint n).

Definition secureAttribute (env : gmap string string) : string :=
  match env !! "NODE_ENV" with
  | Some mode => if String.eqb mode "production" then " Secure;" else EmptyString
  | None => EmptyString
  end.

Definition createCsrfCookie (env : gmap string string) (token : string)
  : string :=
  let secure := secureAttribute env in
  CSRF_COOKIE_NAME +:+ "=" +:+ token +:+ "; SameSite=Strict; Path=/;"
    +:+ secure +:+ " Max-Age=" +:+ decimal (30 * 24 * 60 * 60).

Definition createSessionCookie (env : gmap string string) (token : string)
  : string :=
  let secure := secureAttribute env in
  "clawsuite-auth=" +:+ token +:+ "; HttpOnly; SameSite=Strict; Path=/;"
    +:+ secure +:+ " Max-Age=" +:+ decimal (30 * 24 * 60 * 60).

(** Every code unit of [s] passes [p]. *)
Fixpoint stringAll (p : ascii -> bool) (s : string) : bool :=
  match s with
  | EmptyString => true
  | String c s' => p c && stringAll p s'
  end.

(** A value that a cookie carries unchanged: no semicolon, no white
    space. *)
Definition cookieSafeChar (c : ascii) : bool :=
  negb (Ascii.eqb c ";") && negb (isWhiteSpace c).

Definition cookieSafe (s : string) : bool := stringAll cookieSafeChar s.

Definition isLowerHexChar (c : ascii) : bool :=
  let n := N_of_ascii c in
  (((48 <=? n) && (n <=? 57)) || ((97 <=? n) && (n <=? 102)))%N.

(** The attributes of a [Set-Cookie] value, as a browser separates them. *)
Definition cookieAttributes (setCookie : string) : list string :=
  map trim (split ";" setCookie).

(** The [Cookie] header a browser sends back after both cookies were
    set. *)
Definition browserCookieHeader (sessionToken csrfToken : string) : string :=
  "clawsuite-auth=" +:+ sessionToken +:+ "; " +:+ CSRF_COOKIE_NAME +:+ "="
    +:+ csrfToken.

(** What the text of a [Cookie] header carries under a name: the header
    is cut at its semicolons, and in the first piece that, trimmed,
    starts with the name and an equals sign, the value is what follows
    them. *)
Definition cookieCarries (name header value : string) : Prop :=
  exists before piece after,
    split ";" header = before ++ piece :: after
    /\ Forall (fun p => startsWith (name +:+ "=") (trim p) = false) before
    /\ trim piece = (name +:+ "=") +:+ value.

(** A request with that [Cookie] header and, when given, an
    [x-csrf-token] header. *)
Definition requestWith (method cookie : string) (csrfHeader : option string)
  : Request :=
  mkRequest method
    match csrfHeader with
    | Some h => <["x-csrf-token" := h]> (<["cookie" := cookie]> ∅)
    | None => <["cookie" := cookie]> ∅
    end.

(** A hash descriptor put together from its parts. *)
Definition descriptorOf (salt iterations hash : string) : string :=
  salt +:+ ":" +:+ iterations +:+ ":" +:+ hash.

(** ** Runs of the rate limiter *)

Definition eventTime (ev : LimiterEvent) : Z :=
  match ev with
  | EvCall _ _ _ now => now
  | EvSweep now => now
  end.

Definition isCall (ev : LimiterEvent) : bool :=
  match ev with
  | EvCall _ _ _ _ => true
  | EvSweep _ => false
  end.

Definition callWindow (ev : LimiterEvent) : Z :=
  match ev with
  | EvCall _ _ windowMs _ => windowMs
  | EvSweep _ => 0
  end.

(** The clock readings of a run never go back. *)
Fixpoint monotoneFrom (clock : Z) (readings : list Z) : Prop :=
  match readings with
  | [] => True
  | t :: rest => clock <= t /\ monotoneFrom t rest
  end.

(** The readings at which a call was allowed, given the answers. *)
Definition allowedTimes (answers : list bool) (readings : list Z) : list Z :=
  map snd (List.filter fst (combine answers readings)).

(** Calls of one key with one setting, at the given clock readings. *)
Definition callsAt (key : string) (maxRequests windowMs : Z)
    (readings : list Z) : list LimiterEvent :=
  map (EvCall key maxRequests windowMs) readings.

(** The timestamps of [ts] inside the window that ends at [now]. *)
Definition inWindow (windowMs now : Z) (ts : list Z) : list Z :=
  List.filter (fun t => now - t <? windowMs) ts.

(** A store filled to its capacity with [tokenOf 0] ... [tokenOf 999],
    and the 1001 calls that overfill it by one. *)
Definition namedCalls (count : nat) : list (string * Z) :=
  map (fun n => (tokenOf n, sampleNow)) (seq 0 count).

Definition namedStore : list (string * Z) := storeAll (namedCalls 1000) [].

(** Two maps that show the same timestamps younger than the cutoff. *)
Definition sameRecent (clock : Z) (s1 s2 : gmap string (list Z)) : Prop :=
  forall key,
    inWindow CLEANUP_CUTOFF_MS clock (default [] (s1 !! key))
    = inWindow CLEANUP_CUTOFF_MS clock (default [] (s2 !! key)).

(* ===================================================================== *)
(** * Part II: properties                                                  *)
(* ===================================================================== *)

(** ** The insertion-ordered map *)

Section JsMapFacts.
Context {V : Type}.
Implicit Types (m : list (string * V)) (k : string) (v : V).

Lemma Map_get_None m k : Map_get k m = None <-> k ∉ map fst m.
Proof.
  induction m as [|[k' v'] m IH]; simpl.
  - split; [intros _; apply not_elem_of_nil | done].
  - rewrite not_elem_of_cons. destruct (String.eqb_spec k k') as [->|Hne].
    + split; [done | intros [? _]; done].
    + rewrite IH. tauto.
Qed.

Lemma Map_get_Some_elem m k v : Map_get k m = Some v -> k ∈ map fst m.
Proof.
  intros H. destruct (decide (k ∈ map fst m)) as [|Hn]; [done|].
  apply Map_get_None in Hn. congruence.
Qed.

Lemma Map_get_set_eq m k v : Map_get k (Map_set k v m) = Some v.
Proof.
  induction m as [|[k' v'] m IH]; simpl.
  - by rewrite String.eqb_refl.
  - destruct (String.eqb_spec k k') as [->|Hne]; simpl.
    + by rewrite String.eqb_refl.
    + destruct (String.eqb_spec k k'); [done | apply IH].
Qed.

Lemma Map_get_set_ne m k k' v :
  k <> k' -> Map_get k' (Map_set k v m) = Map_get k' m.
Proof.
  intros Hne. induction m as [|[k0 v0] m IH]; simpl.
  - destruct (String.eqb_spec k' k); [congruence | done].
  - destruct (String.eqb_spec k k0) as [->|Hk]; simpl.
    + destruct (String.eqb_spec k' k0); [congruence | done].
    + destruct (String.eqb_spec k' k0); [done | apply IH].
Qed.

Lemma Map_get_delete_ne m k k' :
  k <> k' -> Map_get k' (Map_delete k m) = Map_get k' m.
Proof.
  intros Hne. induction m as [|[k0 v0] m IH]; simpl; [done|].
  destruct (String.eqb_spec k k0) as [->|Hk]; simpl.
  - destruct (String.eqb_spec k' k0); [congruence | done].
  - destruct (String.eqb_spec k' k0); [done | apply IH].
Qed.

Lemma Map_keys_set m k v :
  map fst (Map_set k v m) =
  if decide (k ∈ map fst m) then map fst m else map fst m ++ [k].
Proof.
  induction m as [|[k0 v0] m IH]; [done|].
  cbn [Map_set]. destruct (String.eqb_spec k k0) as [->|Hk]; cbn [map fst].
  - clear IH. rewrite decide_True; [done|]. apply elem_of_cons. by left.
  - rewrite IH. clear IH. destruct (decide (k ∈ map fst m)) as [Hin|Hin].
    + rewrite decide_True; [done|]. apply elem_of_cons. by right.
    + rewrite decide_False; [done|]. by apply not_elem_of_cons.
Qed.

Lemma Map_delete_absent m k : k ∉ map fst m -> Map_delete k m = m.
Proof.
  induction m as [|[k0 v0] m IH]; simpl; [done|].
  rewrite not_elem_of_cons. intros [Hk Hm].
  destruct (String.eqb_spec k k0); [done|]. by rewrite IH.
Qed.

Lemma Map_keys_delete_sub m k x :
  x ∈ map fst (Map_delete k m) -> x ∈ map fst m.
Proof.
  induction m as [|[k0 v0] m IH]; simpl; [done|].
  destruct (String.eqb_spec k k0) as [->|Hk]; simpl.
  - intros ?. apply elem_of_cons. by right.
  - rewrite !elem_of_cons. intros [->|H]; [by left | right; by apply IH].
Qed.

Lemma Map_wf_nil : Map_wf (@nil (string * V)).
Proof. apply NoDup_nil_2. Qed.

Lemma Map_wf_set m k v : Map_wf m -> Map_wf (Map_set k v m).
Proof.
  unfold Map_wf. intros Hwf. rewrite Map_keys_set.
  destruct (decide (k ∈ map fst m)); [done|].
  apply NoDup_app. split; [done|]. split.
  - intros x Hx Hk. apply list_elem_of_singleton in Hk. by subst.
  - apply NoDup_singleton.
Qed.

Lemma Map_wf_delete m k : Map_wf m -> Map_wf (Map_delete k m).
Proof.
  unfold Map_wf. induction m as [|[k0 v0] m IH]; simpl; [done|].
  rewrite NoDup_cons. intros [Hk0 Hm].
  destruct (String.eqb_spec k k0) as [->|Hk]; simpl; [done|].
  rewrite NoDup_cons. split; [|by apply IH].
  intros Hin. apply Hk0. by eapply Map_keys_delete_sub.
Qed.

Lemma Map_get_delete_eq m k : Map_wf m -> Map_get k (Map_delete k m) = None.
Proof.
  unfold Map_wf. induction m as [|[k0 v0] m IH]; simpl; [done|].
  rewrite NoDup_cons. intros [Hk0 Hm].
  destruct (String.eqb_spec k k0) as [->|Hk]; simpl.
  - by apply Map_get_None.
  - destruct (String.eqb_spec k k0); [done | by apply IH].
Qed.

Lemma Map_size_nonneg m : 0 <= Map_size m.
Proof. unfold Map_size. lia. Qed.

Lemma Map_size_set m k v :
  Map_size (Map_set k v m) =
  if decide (k ∈ map fst m) then Map_size m else Map_size m + 1.
Proof.
  unfold Map_size.
  rewrite <- !(length_map fst), Map_keys_set.
  destruct (decide (k ∈ map fst m)); [done|].
  rewrite length_app. simpl. lia.
Qed.

Lemma Map_size_delete_le m k : Map_size (Map_delete k m) <= Map_size m.
Proof.
  unfold Map_size. induction m as [|[k0 v0] m IH]; simpl; [done|].
  destruct (String.eqb k k0); simpl; lia.
Qed.

Lemma Map_size_delete_present m k :
  k ∈ map fst m -> Map_size (Map_delete k m) = Map_size m - 1.
Proof.
  unfold Map_size. induction m as [|[k0 v0] m IH]; simpl.
  - intros H. by apply elem_of_nil in H.
  - rewrite elem_of_cons.
    destruct (String.eqb_spec k k0) as [->|Hk]; simpl; [lia|].
    intros [?|Hin]; [done|]. specialize (IH Hin). lia.
Qed.

Lemma Map_set_absent m k v :
  k ∉ map fst m -> Map_set k v m = m ++ [(k, v)].
Proof.
  induction m as [|[k0 v0] m IH]; simpl; [done|].
  rewrite not_elem_of_cons. intros [Hk Hm].
  destruct (String.eqb_spec k k0); [done|]. by rewrite IH.
Qed.
End JsMapFacts.

(** ** The session store *)

Section SessionStoreFacts.
Implicit Types (m : list (string * Z)) (token k : string) (now : Z).

Lemma Map_get_delete_None {V} (l : list (string * V)) k k' :
  Map_get k' l = None -> Map_get k' (Map_delete k l) = None.
Proof.
  rewrite !Map_get_None. intros Hn Hin. apply Hn.
  by eapply Map_keys_delete_sub.
Qed.

Lemma storeSessionToken_unfold token now m :
  storeSessionToken token now m =
  Map_set token (now + SESSION_TTL_MS) (afterEviction m).
Proof. reflexivity. Qed.

Lemma afterEviction_cases m :
  afterEviction m = m \/ exists k, afterEviction m = Map_delete k m.
Proof.
  unfold afterEviction. destruct (MAX_SESSIONS <=? Map_size m); [|by left].
  destruct (Map_first_key m) as [k|]; [|by left].
  destruct (truthy k); [right; by exists k | by left].
Qed.

Lemma afterEviction_wf m : Map_wf m -> Map_wf (afterEviction m).
Proof.
  intros Hwf. destruct (afterEviction_cases m) as [->|[k ->]]; [done|].
  by apply Map_wf_delete.
Qed.

Lemma storeSessionToken_wf token now m :
  Map_wf m -> Map_wf (storeSessionToken token now m).
Proof.
  intros Hwf. rewrite storeSessionToken_unfold.
  by apply Map_wf_set, afterEviction_wf.
Qed.

Lemma isValidSessionToken_cases token now m :
  isValidSessionToken token now m = (true, m)
  \/ isValidSessionToken token now m = (false, m)
  \/ isValidSessionToken token now m = (false, Map_delete token m).
Proof.
  unfold isValidSessionToken. destruct (Map_get token m) as [e|]; [|auto].
  destruct (negb (truthyNum e)); [auto|]. destruct (e <? now); auto.
Qed.

Lemma sessionStep_wf m op : Map_wf m -> Map_wf (sessionStep m op).
Proof.
  intros Hwf. destruct op as [token now|token now|token]; simpl.
  - by apply storeSessionToken_wf.
  - destruct (isValidSessionToken_cases token now m) as [->|[->| ->]];
      simpl; [done | done | by apply Map_wf_delete].
  - by apply Map_wf_delete.
Qed.

Lemma sessionRun_wf ops m : Map_wf m -> Map_wf (sessionRun ops m).
Proof.
  revert m. induction ops as [|op ops IH]; intros m Hwf; [done|].
  simpl. apply IH. by apply sessionStep_wf.
Qed.

Lemma storeSessionToken_get token now m :
  Map_get token (storeSessionToken token now m) = Some (now + SESSION_TTL_MS).
Proof. rewrite storeSessionToken_unfold. apply Map_get_set_eq. Qed.

Lemma storeSessionToken_get_ne token k now m :
  token <> k ->
  Map_get k (storeSessionToken token now m) = Map_get k (afterEviction m).
Proof. intros Hne. rewrite storeSessionToken_unfold. by apply Map_get_set_ne. Qed.

Lemma afterEviction_absent m k :
  Map_get k m = None -> Map_get k (afterEviction m) = None.
Proof.
  intros Hn. destruct (afterEviction_cases m) as [->|[k' ->]]; [done|].
  by apply Map_get_delete_None.
Qed.

Lemma sessionStep_absent m op k :
  ~ isStoreOf k op -> Map_get k m = None -> Map_get k (sessionStep m op) = None.
Proof.
  intros Hop Hn. destruct op as [token now|token now|token]; simpl in *.
  - rewrite storeSessionToken_get_ne; [|done]. by apply afterEviction_absent.
  - destruct (isValidSessionToken_cases token now m) as [->|[->| ->]];
      simpl; [done | done | by apply Map_get_delete_None].
  - by apply Map_get_delete_None.
Qed.

Lemma sessionRun_absent ops m k :
  Forall (fun op => ~ isStoreOf k op) ops ->
  Map_get k m = None -> Map_get k (sessionRun ops m) = None.
Proof.
  revert m. induction ops as [|op ops IH]; intros m Hops Hn; [done|].
  apply Forall_cons in Hops as [Hop Hops]. simpl.
  apply IH; [done|]. by apply sessionStep_absent.
Qed.

Lemma isValidSessionToken_absent token now m :
  Map_get token m = None -> isValidSessionToken token now m = (false, m).
Proof. intros Hn. unfold isValidSessionToken. by rewrite Hn. Qed.

Lemma isValidSessionToken_live token now m e :
  Map_get token m = Some e -> e <> 0 -> now <= e ->
  isValidSessionToken token now m = (true, m).
Proof.
  intros Hg He Hnow. unfold isValidSessionToken, truthyNum. rewrite Hg.
  destruct (Z.eqb_spec e 0); [done|]. simpl.
  destruct (Z.ltb_spec e now); [lia | done].
Qed.

Lemma isValidSessionToken_expired token now m e :
  Map_get token m = Some e -> e <> 0 -> e < now ->
  isValidSessionToken token now m = (false, Map_delete token m).
Proof.
  intros Hg He Hnow. unfold isValidSessionToken, truthyNum. rewrite Hg.
  destruct (Z.eqb_spec e 0); [done|]. simpl.
  destruct (Z.ltb_spec e now); [done | lia].
Qed.

Lemma SESSION_TTL_MS_pos : 0 < SESSION_TTL_MS.
Proof. reflexivity. Qed.
End SessionStoreFacts.

(** C5.  A token stored at clock reading [t0] (a count of milliseconds
    since the epoch, so not negative) into any well-formed store:
    - is reported valid by [isValidSessionToken] at every reading [t1] up
      to the expiry [t0 + SESSION_TTL_MS], the store being left as it is;
    - is reported invalid at every later reading [t2], and that call
      removes the entry;
    and a token that no call has stored since the store was empty is
    reported invalid, whatever else was done to the store. *)
Theorem session_token_round_trip (token : string) (t0 t1 t2 : Z)
    (m : list (string * Z)) (ops : list SessionOp) :
  Map_wf m -> 0 <= t0 ->
  t1 <= t0 + SESSION_TTL_MS -> t0 + SESSION_TTL_MS < t2 ->
  Forall (fun op => ~ isStoreOf token op) ops ->
  let stored := storeSessionToken token t0 m in
  isValidSessionToken token t1 stored = (true, stored)
  /\ isValidSessionToken token t2 stored = (false, Map_delete token stored)
  /\ Map_get token (Map_delete token stored) = None
  /\ isValidSessionToken token t1 (sessionRun ops []) =
     (false, sessionRun ops []).
Proof.
  intros Hwf Ht0 Ht1 Ht2 Hops stored.
  assert (Hget : Map_get token stored = Some (t0 + SESSION_TTL_MS))
    by apply storeSessionToken_get.
  pose proof SESSION_TTL_MS_pos as Hpos.
  split; [|split; [|split]].
  - eapply isValidSessionToken_live; [done | lia | done].
  - eapply isValidSessionToken_expired; [done | lia | done].
  - apply Map_get_delete_eq. by apply storeSessionToken_wf.
  - apply isValidSessionToken_absent. by apply sessionRun_absent.
Qed.

Lemma session_token_round_trip_witness :
  let stored := storeSessionToken "tok" 5 [("old", 7)] in
  isValidSessionToken "tok" 10 stored = (true, stored)
  /\ isValidSessionToken "tok" 2592000006 stored =
     (false, Map_delete "tok" stored)
  /\ Map_get "tok" (Map_delete "tok" stored) = None
  /\ isValidSessionToken "tok" 10 (sessionRun [OpStore "other" 1] []) =
     (false, sessionRun [OpStore "other" 1] []).
Proof.
  apply (session_token_round_trip "tok" 5 10 2592000006 [("old", 7)]
           [OpStore "other" 1]).
  - apply NoDup_singleton.
  - lia.
  - vm_compute. discriminate.
  - reflexivity.
  - repeat constructor. simpl. discriminate.
Defined.

(** ** How an entry can leave the session store *)

Section SessionEntryLifetime.
Implicit Types (m : list (string * Z)) (token k : string) (now : Z).

Lemma afterEviction_below m : Map_size m < MAX_SESSIONS -> afterEviction m = m.
Proof.
  intros Hlt. unfold afterEviction.
  destruct (Z.leb_spec MAX_SESSIONS (Map_size m)); [lia | done].
Qed.

Lemma afterEviction_size_le m : Map_size (afterEviction m) <= Map_size m.
Proof.
  destruct (afterEviction_cases m) as [->|[k ->]]; [lia|].
  apply Map_size_delete_le.
Qed.

Lemma storeSessionToken_size_le token now m :
  Map_size (storeSessionToken token now m) <= Map_size (afterEviction m) + 1.
Proof.
  rewrite storeSessionToken_unfold, Map_size_set. case_decide; lia.
Qed.

Lemma sessionStep_size_le m op :
  Map_size (sessionStep m op) <= Map_size m + 1.
Proof.
  destruct op as [token now|token now|token]; simpl.
  - pose proof (storeSessionToken_size_le token now m).
    pose proof (afterEviction_size_le m). lia.
  - destruct (isValidSessionToken_cases token now m) as [->|[->| ->]];
      simpl; try lia.
    pose proof (Map_size_delete_le m token). lia.
  - pose proof (Map_size_delete_le m token).
    unfold revokeSessionToken. lia.
Qed.

Lemma sessionStep_untouched m op k :
  opToken op <> k -> Map_size m < MAX_SESSIONS ->
  Map_get k (sessionStep m op) = Map_get k m.
Proof.
  intros Hop Hsz. destruct op as [token now|token now|token]; simpl in *.
  - rewrite storeSessionToken_get_ne; [|done]. by rewrite afterEviction_below.
  - destruct (isValidSessionToken_cases token now m) as [->|[->| ->]];
      simpl; [done | done | by apply Map_get_delete_ne].
  - by apply Map_get_delete_ne.
Qed.

Lemma sessionRun_untouched ops m k :
  Forall (fun op => opToken op <> k) ops ->
  Map_size m + Z.of_nat (length ops) <= MAX_SESSIONS ->
  Map_get k (sessionRun ops m) = Map_get k m.
Proof.
  revert m. induction ops as [|op ops IH]; intros m Hops Hsz; [done|].
  apply Forall_cons in Hops as [Hop Hops]. simpl in *.
  rewrite IH; [|done|].
  - apply sessionStep_untouched; [done | lia].
  - pose proof (sessionStep_size_le m op). lia.
Qed.

Lemma sessionStep_removal m op k e :
  Map_get k m = Some e -> Map_get k (sessionStep m op) = None ->
  op = OpRevoke k
  \/ (exists now, op = OpIsValid k now /\ e <> 0 /\ e < now)
  \/ (exists token now, op = OpStore token now /\ token <> k
        /\ MAX_SESSIONS <= Map_size m /\ Map_first_key m = Some k).
Proof.
  intros Hg Hgone. destruct op as [token now|token now|token]; simpl in *.
  - right; right. exists token, now.
    destruct (decide (token = k)) as [->|Hne].
    { rewrite storeSessionToken_get in Hgone. done. }
    rewrite storeSessionToken_get_ne in Hgone by done.
    unfold afterEviction in Hgone.
    destruct (Z.leb_spec MAX_SESSIONS (Map_size m)); [|congruence].
    destruct (Map_first_key m) as [k0|]; [|congruence].
    destruct (truthy k0); [|congruence].
    destruct (decide (k0 = k)) as [->|Hk0]; [done|].
    rewrite Map_get_delete_ne in Hgone by done. congruence.
  - right; left. exists now. unfold isValidSessionToken, truthyNum in Hgone.
    destruct (Map_get token m) as [e'|] eqn:Hg'; simpl in Hgone; [|congruence].
    destruct (Z.eqb_spec e' 0); simpl in Hgone; [congruence|].
    destruct (Z.ltb_spec e' now); simpl in Hgone; [|congruence].
    destruct (decide (token = k)) as [->|Hne].
    + split; [done|]. assert (e' = e) by congruence. by subst.
    + rewrite Map_get_delete_ne in Hgone by done. congruence.
  - left. unfold revokeSessionToken in Hgone.
    destruct (decide (token = k)) as [->|Hne]; [done|].
    rewrite Map_get_delete_ne in Hgone by done. congruence.
Qed.
End SessionEntryLifetime.

(** C9, as the code has it.  The session-store module registers no timer:
    its map changes only through [storeSessionToken],
    [isValidSessionToken] and [revokeSessionToken].  An entry leaves the
    map only when its token is revoked, when [isValidSessionToken] is
    asked about that token after its expiry, or when a store at capacity
    evicts it as the oldest key.  So an entry whose token is not named
    again stays in the map through any operations that do not fill the
    store, however far the clock readings of those operations are past
    its expiry. *)
Theorem session_entry_leaves_only_on_demand (m : list (string * Z))
    (k : string) (e : Z) :
  Map_get k m = Some e ->
  (forall op, Map_get k (sessionStep m op) = None ->
     op = OpRevoke k
     \/ (exists now, op = OpIsValid k now /\ e <> 0 /\ e < now)
     \/ (exists token now, op = OpStore token now /\ token <> k
           /\ MAX_SESSIONS <= Map_size m /\ Map_first_key m = Some k))
  /\ (forall ops,
        Forall (fun op => opToken op <> k) ops ->
        Map_size m + Z.of_nat (length ops) <= MAX_SESSIONS ->
        Map_get k (sessionRun ops m) = Some e).
Proof.
  intros Hg. split.
  - intros op. by apply sessionStep_removal.
  - intros ops Hops Hsz. rewrite <- Hg. by apply sessionRun_untouched.
Qed.

Lemma session_entry_leaves_only_on_demand_witness :
  (forall op, Map_get "t" (sessionStep [("t", 7)] op) = None ->
     op = OpRevoke "t"
     \/ (exists now, op = OpIsValid "t" now /\ 7 <> 0 /\ 7 < now)
     \/ (exists token now, op = OpStore token now /\ token <> "t"
           /\ MAX_SESSIONS <= Map_size [("t", 7)]
           /\ Map_first_key [("t", 7)] = Some "t"))
  /\ (forall ops,
        Forall (fun op => opToken op <> "t") ops ->
        Map_size [("t", 7)] + Z.of_nat (length ops) <= MAX_SESSIONS ->
        Map_get "t" (sessionRun ops [("t", 7)]) = Some 7).
Proof. apply (session_entry_leaves_only_on_demand [("t", 7)] "t" 7). reflexivity. Defined.

(** C9, as the claim states it, fails: a token stored at time 0 expires at
    [SESSION_TTL_MS]; thirty days after that expiry, with the store in use
    for another token in between, the expired entry is still in the map.
    Nothing has swept it. *)
Lemma session_store_keeps_expired_entry :
  let now := 2 * SESSION_TTL_MS in
  let m := sessionRun [OpStore "t" 0; OpStore "u" now; OpIsValid "u" now] [] in
  Map_get "t" m = Some SESSION_TTL_MS /\ SESSION_TTL_MS < now.
Proof. split; reflexivity. Qed.

(** ** Capacity and eviction *)

Section SessionCapacity.
Implicit Types (m : list (string * Z)) (token k : string) (now : Z).

Lemma storeAll_wf calls m : Map_wf m -> Map_wf (storeAll calls m).
Proof.
  revert m. induction calls as [|c calls IH]; intros m Hwf; [done|].
  simpl. apply IH. by apply storeSessionToken_wf.
Qed.

Lemma storeAll_app calls1 calls2 m :
  storeAll (calls1 ++ calls2) m = storeAll calls2 (storeAll calls1 m).
Proof. unfold storeAll. apply fold_left_app. Qed.

(** Below the capacity nothing is evicted: fresh tokens are appended in
    the order of the calls. *)
Lemma storeAll_below_capacity calls m :
  NoDup (map fst m ++ map fst calls) ->
  Map_size m + Z.of_nat (length calls) <= MAX_SESSIONS ->
  storeAll calls m = m ++ map stamped calls.
Proof.
  revert m. induction calls as [|[token now] calls IH]; intros m Hnd Hsz.
  - simpl. by rewrite app_nil_r.
  - simpl in *. rewrite storeSessionToken_unfold.
    rewrite afterEviction_below by lia.
    apply NoDup_app in Hnd as (Hm & Hdisj & Hcalls).
    apply NoDup_cons in Hcalls as [Hfresh Hcalls].
    rewrite Map_set_absent.
    2:{ intros Hin. apply (Hdisj _ Hin). apply elem_of_cons. by left. }
    rewrite IH.
    + by rewrite <- app_assoc.
    + rewrite map_app. simpl. apply NoDup_app. split; [|split; [|done]].
      * apply NoDup_app. split; [done|]. split; [|apply NoDup_singleton].
        intros x Hx Hx'. apply list_elem_of_singleton in Hx' as ->.
        apply (Hdisj _ Hx). apply elem_of_cons. by left.
      * intros x Hx Hx'. apply elem_of_app in Hx as [Hx|Hx].
        -- apply (Hdisj _ Hx). apply elem_of_cons. by right.
        -- apply list_elem_of_singleton in Hx as ->. done.
    + unfold Map_size in *. rewrite length_app. simpl. lia.
Qed.

(** [isValidSessionToken] and [revokeSessionToken] never grow the map. *)
Lemma isValidSessionToken_size_le token now m :
  Map_size (snd (isValidSessionToken token now m)) <= Map_size m.
Proof.
  destruct (isValidSessionToken_cases token now m) as [->|[->| ->]];
    simpl; try lia. apply Map_size_delete_le.
Qed.

Lemma revokeSessionToken_size_le token m :
  Map_size (revokeSessionToken token m) <= Map_size m.
Proof. apply Map_size_delete_le. Qed.

(** [storeSessionToken] keeps the map within the capacity as long as
    the oldest key is not the empty string. *)
Lemma storeSessionToken_within_capacity token now m :
  Map_size m <= MAX_SESSIONS -> Map_first_key m <> Some EmptyString ->
  Map_size (storeSessionToken token now m) <= MAX_SESSIONS.
Proof.
  intros Hsz Hfirst.
  pose proof (storeSessionToken_size_le token now m) as Hle.
  destruct (Z.ltb_spec (Map_size m) MAX_SESSIONS) as [Hlt|Hge].
  { rewrite afterEviction_below in Hle by done. lia. }
  assert (Map_size (afterEviction m) = Map_size m - 1) as Hev; [|lia].
  unfold afterEviction. destruct (Z.leb_spec MAX_SESSIONS (Map_size m)); [|lia].
  destruct m as [|[k0 v0] m']; [done|]. simpl in *.
  destruct k0 as [|c k0]; [done|]. simpl. rewrite Ascii.eqb_refl, String.eqb_refl.
  unfold Map_size. simpl. lia.
Qed.

Lemma afterEviction_full k v m :
  k <> EmptyString -> MAX_SESSIONS <= Map_size ((k, v) :: m) ->
  afterEviction ((k, v) :: m) = m.
Proof.
  intros Hk Hsz. unfold afterEviction.
  destruct (Z.leb_spec MAX_SESSIONS (Map_size ((k, v) :: m))); [|lia].
  destruct k as [|c k]; [done|].
  cbn [Map_first_key truthy Map_delete]. by rewrite String.eqb_refl.
Qed.

(** With a non-empty first token the eviction is first-in, first-out:
    after 1001 distinct tokens the map holds the last 1000, in order. *)
Lemma eviction_fifo (first last : string * Z) (middle : list (string * Z)) :
  fst first <> EmptyString ->
  Z.of_nat (length middle) = MAX_SESSIONS - 1 ->
  NoDup (map fst (first :: middle ++ [last])) ->
  storeAll (first :: middle ++ [last]) [] = map stamped (middle ++ [last]).
Proof.
  intros Hne Hlen Hnd.
  change (first :: middle ++ [last]) with ((first :: middle) ++ [last]) in *.
  rewrite storeAll_app. rewrite map_app in Hnd.
  apply NoDup_app in Hnd as (Hnd1 & Hdisj & _).
  rewrite (storeAll_below_capacity (first :: middle) []); [|exact Hnd1|].
  2:{ unfold Map_size. simpl length. lia. }
  change (storeAll [last] ([] ++ map stamped (first :: middle)))
    with (storeSessionToken (fst last) (snd last)
            ((fst first, snd first + SESSION_TTL_MS) :: map stamped middle)).
  rewrite storeSessionToken_unfold, afterEviction_full; [|done|].
  2:{ unfold Map_size. simpl length. rewrite length_map. lia. }
  rewrite Map_set_absent; [by rewrite map_app|].
  intros Hin. rewrite map_map in Hin. simpl in Hin.
  apply (Hdisj (fst last)).
  - simpl. apply elem_of_cons. by right.
  - simpl. by apply list_elem_of_singleton.
Qed.
Lemma Map_get_elem {V} (l : list (string * V)) k v :
  NoDup (map fst l) -> (k, v) ∈ l -> Map_get k l = Some v.
Proof.
  induction l as [|[k0 v0] l IH]; simpl.
  - intros _ Hin. by apply elem_of_nil in Hin.
  - rewrite NoDup_cons, elem_of_cons. intros [Hk0 Hnd] [[= -> ->]|Hin].
    + by rewrite String.eqb_refl.
    + destruct (String.eqb_spec k k0) as [->|_]; [|by apply IH].
      destruct Hk0. apply list_elem_of_fmap. by exists (k0, v).
Qed.

(** X6.  First-in, first-out eviction: when 1001 distinct tokens are
    stored into the empty store and the first of them is not the empty
    string, then after those stores the first token is reported invalid
    at every reading, and each of the other 1000 is reported valid up to
    its own expiry (the clock readings being those of a real clock, not
    negative). *)
Lemma eviction_fifo_validity (first last : string * Z)
    (middle : list (string * Z)) :
  fst first <> EmptyString ->
  Z.of_nat (length middle) = MAX_SESSIONS - 1 ->
  NoDup (map fst (first :: middle ++ [last])) ->
  Forall (fun call => 0 <= snd call) (middle ++ [last]) ->
  let m := storeAll (first :: middle ++ [last]) [] in
  (forall now, isValidSessionToken (fst first) now m = (false, m))
  /\ (forall call now, call ∈ middle ++ [last] ->
        now <= snd call + SESSION_TTL_MS ->
        isValidSessionToken (fst call) now m = (true, m)).
Proof.
  intros Hne Hlen Hnd Hclock m. subst m. rewrite eviction_fifo by done.
  simpl in Hnd. apply NoDup_cons in Hnd as [Hfirst Hrest].
  assert (map fst (map stamped (middle ++ [last])) = map fst (middle ++ [last]))
    as Hkeys by (rewrite map_map; done).
  split.
  - intros now. apply isValidSessionToken_absent, Map_get_None.
    by rewrite Hkeys.
  - intros call now Hin Hnow.
    apply (isValidSessionToken_live _ _ _ (snd call + SESSION_TTL_MS)).
    + apply Map_get_elem; [by rewrite Hkeys|].
      apply list_elem_of_fmap. by exists call.
    + rewrite Forall_forall in Hclock. specialize (Hclock _ Hin).
      pose proof SESSION_TTL_MS_pos. lia.
    + done.
Qed.

(** A step that names a non-empty token keeps the map within the
    capacity, and keeps every key non-empty. *)
Lemma sessionStep_within_capacity m op :
  opToken op <> EmptyString ->
  Forall (fun k => k <> EmptyString) (map fst m) ->
  Map_size m <= MAX_SESSIONS ->
  Forall (fun k => k <> EmptyString) (map fst (sessionStep m op))
  /\ Map_size (sessionStep m op) <= MAX_SESSIONS.
Proof.
  intros Hop Hkeys Hsz.
  assert (forall k, Forall (fun k => k <> EmptyString)
                           (map fst (Map_delete k m))) as Hdel.
  { intros k. rewrite Forall_forall in *. intros x Hx.
    apply Hkeys. by eapply Map_keys_delete_sub. }
  destruct op as [token now|token now|token]; simpl in *.
  - split.
    + rewrite storeSessionToken_unfold, Map_keys_set.
      assert (Forall (fun k => k <> EmptyString) (map fst (afterEviction m)))
        as Hev.
      { destruct (afterEviction_cases m) as [->|[k ->]]; [done | apply Hdel]. }
      case_decide; [done|]. apply Forall_app. split; [done|].
      by apply Forall_singleton.
    + apply storeSessionToken_within_capacity; [done|].
      destruct m as [|[k0 v0] m']; [done|]. simpl.
      apply Forall_cons in Hkeys as [Hk0 _]. simpl in Hk0. congruence.
  - destruct (isValidSessionToken_cases token now m) as [->|[->| ->]]; simpl;
      (split; [done || apply Hdel|]); try done.
    pose proof (Map_size_delete_le m token). lia.
  - split; [apply Hdel|]. pose proof (Map_size_delete_le m token).
    unfold revokeSessionToken. lia.
Qed.

(** X5.  Whatever sequence of [storeSessionToken], [isValidSessionToken]
    and [revokeSessionToken] calls is run from the empty store, if none of
    them names the empty string, the store never holds more than
    [MAX_SESSIONS] entries. *)
Lemma sessionRun_within_capacity ops :
  Forall (fun op => opToken op <> EmptyString) ops ->
  Map_size (sessionRun ops []) <= MAX_SESSIONS.
Proof.
  intros Hops.
  cut (forall m, Forall (fun k => k <> EmptyString) (map fst m) ->
                 Map_size m <= MAX_SESSIONS ->
                 Map_size (sessionRun ops m) <= MAX_SESSIONS).
  { intros Hgen. apply Hgen; [by apply Forall_nil | done]. }
  induction Hops as [|op ops Hop _ IH]; intros m Hkeys Hsz; [done|].
  simpl. destruct (sessionStep_within_capacity m op) as [Hk Hs]; try done.
  by apply IH.
Qed.
End SessionCapacity.



(** ** The rate limiter *)

Section RateLimiterFacts.
Implicit Types (store : gmap string (list Z)) (key : string).
Implicit Types (maxRequests windowMs now : Z) (ts : list Z).

Lemma filter_keeps_all (p : Z -> bool) ts :
  Forall (fun t => p t = true) ts -> List.filter p ts = ts.
Proof.
  induction 1 as [|t ts Ht _ IH]; simpl; [done|]. by rewrite Ht, IH.
Qed.

Lemma filter_drops_all (p : Z -> bool) ts :
  Forall (fun t => p t = false) ts -> List.filter p ts = [].
Proof.
  induction 1 as [|t ts Ht _ IH]; simpl; [done|]. by rewrite Ht, IH.
Qed.

(** The two ways of writing the window test agree. *)
Lemma window_test now windowMs t :
  (now - t <? windowMs) = (now - windowMs <? t).
Proof.
  destruct (Z.ltb_spec (now - t) windowMs), (Z.ltb_spec (now - windowMs) t);
    (done || lia).
Qed.

Lemma rateLimit_unfold key maxRequests windowMs now store :
  rateLimit key maxRequests windowMs now store =
  let kept := List.filter (fun t => now - t <? windowMs)
                          (default [] (store !! key)) in
  if maxRequests <=? Z.of_nat (length kept)
  then (false, <[key := kept]> store)
  else (true, <[key := kept ++ [now]]> store).
Proof. reflexivity. Qed.

Lemma rateLimit_allow key maxRequests windowMs now store ts :
  default [] (store !! key) = ts ->
  Forall (fun t => now - t < windowMs) ts ->
  Z.of_nat (length ts) < maxRequests ->
  rateLimit key maxRequests windowMs now store =
  (true, <[key := ts ++ [now]]> store).
Proof.
  intros Hts Hin Hlen. rewrite rateLimit_unfold, Hts. simpl.
  rewrite filter_keeps_all.
  - destruct (Z.leb_spec maxRequests (Z.of_nat (length ts))); [lia | done].
  - eapply Forall_impl; [done|]. intros t Ht. simpl in *. by apply Z.ltb_lt.
Qed.

Lemma rateLimit_deny key maxRequests windowMs now store ts :
  default [] (store !! key) = ts ->
  Forall (fun t => now - t < windowMs) ts ->
  maxRequests <= Z.of_nat (length ts) ->
  rateLimit key maxRequests windowMs now store = (false, <[key := ts]> store).
Proof.
  intros Hts Hin Hlen. rewrite rateLimit_unfold, Hts. simpl.
  rewrite filter_keeps_all.
  - destruct (Z.leb_spec maxRequests (Z.of_nat (length ts))); [done | lia].
  - eapply Forall_impl; [done|]. intros t Ht. simpl in *. by apply Z.ltb_lt.
Qed.

Lemma rateLimit_after_window key maxRequests windowMs now store ts :
  default [] (store !! key) = ts ->
  Forall (fun t => windowMs <= now - t) ts ->
  0 < maxRequests ->
  rateLimit key maxRequests windowMs now store = (true, <[key := [now]]> store).
Proof.
  intros Hts Hout Hmax. rewrite rateLimit_unfold, Hts. simpl.
  rewrite filter_drops_all.
  - simpl. destruct (Z.leb_spec maxRequests (Z.of_nat 0)); [lia | done].
  - eapply Forall_impl; [done|]. intros t Ht. simpl in *. by apply Z.ltb_ge.
Qed.

(** What a call does, in general. *)
Lemma rateLimit_spec key maxRequests windowMs now store :
  let kept := List.filter (fun t => now - windowMs <? t)
                          (default [] (store !! key)) in
  let r := rateLimit key maxRequests windowMs now store in
  (fst r = true <-> Z.of_nat (length kept) < maxRequests)
  /\ snd r = <[key := if fst r then kept ++ [now] else kept]> store.
Proof.
  intros kept r. subst kept r. rewrite rateLimit_unfold.
  rewrite (filter_ext _ (fun t => now - windowMs <? t))
    by (intros t; apply window_test).
  simpl. destruct (Z.leb_spec maxRequests
    (Z.of_nat (length (List.filter (fun t => now - windowMs <? t)
                                   (default [] (store !! key)))))); simpl.
  - split; [|done]. split; [done | lia].
  - split; [|done]. split; [done | done].
Qed.
End RateLimiterFacts.

(** C6.  For a key without an entry, with [maxRequests = 3] and
    [windowMs = 1000]: three calls at readings [t1 <= t2 <= t3] and a
    fourth at [t4], all less than 1000 ms apart, answer true, true, true,
    false; the fourth call records nothing (the entry still holds
    [t1; t2; t3]); a fifth call at [t5], at least 1000 ms after the
    earlier allowed calls, answers true again.  In general a call is allowed
    exactly when fewer than [maxRequests] of the key's timestamps are
    younger than [now - windowMs]; the entry is left holding those
    timestamps, followed by [now] only when the call was allowed. *)
Theorem rateLimit_sliding_window (key : string) (store : gmap string (list Z))
    (t1 t2 t3 t4 t5 : Z) :
  store !! key = None ->
  t1 <= t2 -> t2 <= t3 -> t3 <= t4 -> t4 - t1 < 1000 -> 1000 <= t5 - t3 ->
  let call := EvCall key 3 1000 in
  limiterRun [call t1; call t2; call t3] store =
    ([true; true; true], <[key := [t1; t2; t3]]> store)
  /\ limiterRun [call t1; call t2; call t3; call t4] store =
    ([true; true; true; false], <[key := [t1; t2; t3]]> store)
  /\ limiterRun [call t1; call t2; call t3; call t4; call t5] store =
    ([true; true; true; false; true], <[key := [t5]]> store)
  /\ (forall key' maxRequests windowMs now (st : gmap string (list Z)),
        let kept := List.filter (fun t => now - windowMs <? t)
                                (default [] (st !! key')) in
        let r := rateLimit key' maxRequests windowMs now st in
        (fst r = true <-> Z.of_nat (length kept) < maxRequests)
        /\ snd r = <[key' := if fst r then kept ++ [now] else kept]> st).
Proof.
  intros Hfresh H12 H23 H34 Hspan Hlater call.
  assert (limiterRun [call t1; call t2; call t3] store =
          ([true; true; true], <[key := [t1; t2; t3]]> store)) as Hthree.
  { unfold limiterRun, call. simpl.
    rewrite (rateLimit_allow _ _ _ _ _ []); [|by rewrite Hfresh|done|done].
    simpl. rewrite (rateLimit_allow _ _ _ _ _ [t1]);
      [|by rewrite lookup_insert_eq| |done].
    2:{ repeat constructor. lia. }
    simpl. rewrite (rateLimit_allow _ _ _ _ _ [t1; t2]);
      [|by rewrite lookup_insert_eq| |done].
    2:{ repeat constructor; lia. }
    simpl. by rewrite !insert_insert_eq. }
  assert (limiterRun [call t1; call t2; call t3; call t4] store =
          ([true; true; true; false], <[key := [t1; t2; t3]]> store)) as Hfour.
  { change [call t1; call t2; call t3; call t4]
      with ([call t1; call t2; call t3] ++ [call t4]).
    unfold limiterRun in *. rewrite fold_left_app, Hthree. unfold call. simpl.
    rewrite (rateLimit_deny _ _ _ _ _ [t1; t2; t3]);
      [|by rewrite lookup_insert_eq| |done].
    2:{ repeat constructor; lia. }
    simpl. by rewrite insert_insert_eq. }
  split; [done|]. split; [done|]. split.
  - change [call t1; call t2; call t3; call t4; call t5]
      with ([call t1; call t2; call t3; call t4] ++ [call t5]).
    unfold limiterRun in *. rewrite fold_left_app, Hfour. unfold call. simpl.
    rewrite (rateLimit_after_window _ _ _ _ _ [t1; t2; t3]);
      [|by rewrite lookup_insert_eq| |done].
    2:{ repeat constructor; lia. }
    simpl. by rewrite insert_insert_eq.
  - intros. apply rateLimit_spec.
Qed.

Lemma rateLimit_sliding_window_witness :
  let call := EvCall "k" 3 1000 in
  limiterRun [call 0; call 100; call 200] ∅ =
    ([true; true; true], <["k" := [0; 100; 200]]> ∅)
  /\ limiterRun [call 0; call 100; call 200; call 300] ∅ =
    ([true; true; true; false], <["k" := [0; 100; 200]]> ∅)
  /\ limiterRun [call 0; call 100; call 200; call 300; call 1200] ∅ =
    ([true; true; true; false; true], <["k" := [1200]]> ∅)
  /\ (forall key' maxRequests windowMs now (st : gmap string (list Z)),
        let kept := List.filter (fun t => now - windowMs <? t)
                                (default [] (st !! key')) in
        let r := rateLimit key' maxRequests windowMs now st in
        (fst r = true <-> Z.of_nat (length kept) < maxRequests)
        /\ snd r = <[key' := if fst r then kept ++ [now] else kept]> st).
Proof.
  apply (rateLimit_sliding_window "k" ∅ 0 100 200 300 1200);
    [apply lookup_empty | lia | lia | lia | lia | lia].
Defined.

(** ** The cleanup timer of the rate limiter *)

Section CleanupFacts.
Implicit Types (store : gmap string (list Z)) (key : string).

Lemma cleanup_lookup now store key :
  cleanup now store !! key = store !! key ≫= cleanupEntry now.
Proof. unfold cleanup. apply lookup_omap. Qed.

Lemma cleanupEntry_all_old now ts :
  Forall (fun t => CLEANUP_CUTOFF_MS <= now - t) ts ->
  cleanupEntry now ts = None.
Proof.
  intros Hold. unfold cleanupEntry. rewrite filter_drops_all; [done|].
  eapply Forall_impl; [done|]. intros t Ht. simpl in *. by apply Z.ltb_ge.
Qed.

Lemma replicate_snoc {A} (n : nat) (x : A) :
  replicate n x ++ [x] = replicate (S n) x.
Proof. induction n as [|n IH]; simpl; [done|]. by rewrite IH. Qed.

(** [j] calls at reading [t0] on top of [i] earlier ones are all
    allowed while [i + j] stays within [maxRequests]. *)
Lemma burst_allowed key maxRequests windowMs t0 (j : nat) :
  forall (acc : list bool) store (i : nat),
    default [] (store !! key) = replicate i t0 ->
    Z.of_nat (i + j) <= maxRequests -> 0 < windowMs ->
    let r := fold_left limiterStep
               (replicate j (EvCall key maxRequests windowMs t0))
               (acc, store) in
    fst r = acc ++ replicate j true
    /\ default [] (snd r !! key) = replicate (i + j) t0.
Proof.
  induction j as [|j IH]; intros acc store i Hts Hle Hwin; simpl.
  - rewrite app_nil_r, Nat.add_0_r. done.
  - rewrite (rateLimit_allow _ _ _ _ _ (replicate i t0)); [|done| |].
    + simpl.
      destruct (IH (acc ++ [true])
                   (<[key := replicate i t0 ++ [t0]]> store) (S i))
        as [Hfst Hsnd]; [|lia|done|].
      * by rewrite lookup_insert_eq, replicate_snoc.
      * rewrite Hfst, Hsnd, <- app_assoc. split; [done|].
        f_equal. lia.
    + apply Forall_replicate. lia.
    + rewrite length_replicate. lia.
Qed.
End CleanupFacts.

(** C10.  One firing of the cleanup timer at reading [now] leaves, for
    every key, the timestamps with [now - t < 120000] and removes the key
    when none is left; the window of the key plays no part in it.  For
    every key used with a window above 120000 ms this lets more than
    [maxRequests] calls through in one window: after [maxRequests] calls
    at reading [t0], a call at a reading [tLate] inside the window of
    those calls is refused when no timer fired in between, and allowed
    when the timer fired at a reading [tSweep] at least 120000 ms after
    [t0]. *)
Theorem cleanup_cutoff_ignores_window (key : string)
    (maxRequests windowMs t0 tSweep tLate : Z) :
  CLEANUP_CUTOFF_MS < windowMs -> 1 <= maxRequests ->
  CLEANUP_CUTOFF_MS <= tSweep - t0 -> tLate - t0 < windowMs ->
  let n := Z.to_nat maxRequests in
  let burst := replicate n (EvCall key maxRequests windowMs t0) in
  let late := EvCall key maxRequests windowMs tLate in
  (forall now (store : gmap string (list Z)) key',
      cleanup now store !! key' =
      match store !! key' with
      | Some ts =>
          match List.filter (fun t => now - t <? 120000) ts with
          | [] => None
          | kept => Some kept
          end
      | None => None
      end)
  /\ fst (limiterRun (burst ++ [late]) ∅) = replicate n true ++ [false]
  /\ fst (limiterRun (burst ++ [EvSweep tSweep; late]) ∅) =
     replicate n true ++ [true].
Proof.
  intros Hwin Hmax Hsweep Hlate n burst late.
  assert (0 < windowMs) as Hpos by (unfold CLEANUP_CUTOFF_MS in Hwin; lia).
  destruct (burst_allowed key maxRequests windowMs t0 n [] ∅ 0)
    as [Hfst Hsnd]; [by rewrite lookup_empty | lia | done |].
  fold burst in Hfst, Hsnd. simpl in Hfst, Hsnd.
  split; [|split].
  - intros now store key'. rewrite cleanup_lookup.
    by destruct (store !! key').
  - unfold limiterRun. rewrite fold_left_app.
    destruct (fold_left limiterStep burst ([], ∅)) as [acc st].
    simpl in *. subst acc.
    rewrite (rateLimit_deny _ _ _ _ _ (replicate n t0)); [done|done| |].
    + apply Forall_replicate. lia.
    + rewrite length_replicate. lia.
  - unfold limiterRun. rewrite fold_left_app.
    destruct (fold_left limiterStep burst ([], ∅)) as [acc st].
    simpl in *. subst acc.
    rewrite (rateLimit_allow _ _ _ _ _ []); [done| |done|simpl; lia].
    rewrite cleanup_lookup. destruct (st !! key) as [ts|]; [|done].
    simpl in *. subst ts. rewrite cleanupEntry_all_old; [done|].
    apply Forall_replicate. lia.
Qed.

Lemma cleanup_cutoff_ignores_window_witness :
  let burst := replicate 2 (EvCall "k" 2 200000 1000) in
  let late := EvCall "k" 2 200000 130000 in
  (forall now (store : gmap string (list Z)) key',
      cleanup now store !! key' =
      match store !! key' with
      | Some ts =>
          match List.filter (fun t => now - t <? 120000) ts with
          | [] => None
          | kept => Some kept
          end
      | None => None
      end)
  /\ fst (limiterRun (burst ++ [late]) ∅) = [true; true; false]
  /\ fst (limiterRun (burst ++ [EvSweep 125000; late]) ∅) =
     [true; true; true].
Proof.
  apply (cleanup_cutoff_ignores_window "k" 2 200000 1000 125000 130000);
    [reflexivity | lia | | lia].
  unfold CLEANUP_CUTOFF_MS. lia.
Defined.

(** ** The client address *)

Section ClientIpFacts.
Implicit Types (env : gmap string string) (request : Request).

Lemma getClientIp_fallback env request :
  truthyOpt (trim <$> env !! "TRUSTED_PROXY_IP") = false ->
  getClientIp env request = "local".
Proof. intros Hno. unfold getClientIp. by rewrite Hno. Qed.

Lemma getClientIp_derived env request :
  getClientIp env request <> "local" ->
  exists proxy, env !! "TRUSTED_PROXY_IP" = Some proxy
                /\ trim proxy <> EmptyString.
Proof.
  unfold getClientIp. destruct (env !! "TRUSTED_PROXY_IP") as [proxy|];
    simpl; [|done].
  destruct (trim proxy) eqn:Htrim; simpl; [done|].
  intros _. exists proxy. by rewrite Htrim.
Qed.
End ClientIpFacts.

(** C7.  When no trusted proxy address is configured (the variable
    [TRUSTED_PROXY_IP] is unset, or empty once trimmed), [getClientIp]
    answers the placeholder ["local"] for every request, so any two
    requests get the same answer whatever their [x-real-ip] and
    [x-forwarded-for] headers say.  Conversely, under any configuration,
    an answer other than the placeholder is only given when the variable
    holds an address. *)
Theorem getClientIp_without_trusted_proxy (env : gmap string string)
    (request1 request2 : Request) :
  (env !! "TRUSTED_PROXY_IP" = None
   \/ exists proxy, env !! "TRUSTED_PROXY_IP" = Some proxy
                    /\ trim proxy = EmptyString) ->
  getClientIp env request1 = "local"
  /\ getClientIp env request2 = getClientIp env request1
  /\ (forall (env' : gmap string string) request,
        getClientIp env' request <> "local" ->
        exists proxy, env' !! "TRUSTED_PROXY_IP" = Some proxy
                      /\ trim proxy <> EmptyString).
Proof.
  intros Hno.
  assert (truthyOpt (trim <$> env !! "TRUSTED_PROXY_IP") = false) as Hfalse.
  { destruct Hno as [->|(proxy & -> & Htrim)]; simpl; [done|].
    by rewrite Htrim. }
  split; [by apply getClientIp_fallback|]. split.
  - by rewrite !getClientIp_fallback.
  - intros env' request. apply getClientIp_derived.
Qed.

Lemma getClientIp_without_trusted_proxy_witness :
  let env : gmap string string := <["TRUSTED_PROXY_IP" := "  "]> ∅ in
  let spoofed :=
    mkRequest "POST" (<["x-forwarded-for" := "203.0.113.9"]>
                        (<["x-real-ip" := "198.51.100.7"]> ∅)) in
  let plain := mkRequest "POST" ∅ in
  getClientIp env spoofed = "local"
  /\ getClientIp env plain = getClientIp env spoofed
  /\ (forall (env' : gmap string string) request,
        getClientIp env' request <> "local" ->
        exists proxy, env' !! "TRUSTED_PROXY_IP" = Some proxy
                      /\ trim proxy <> EmptyString).
Proof.
  intros env spoofed plain.
  apply (getClientIp_without_trusted_proxy env spoofed plain).
  right. exists "  ". split; reflexivity.
Defined.

(** ** The CSRF check and [requireAuth] *)

Section CsrfFacts.
Implicit Types (env : gmap string string) (request : Request).

Lemma bytesEqual_eq (a b : list byte) : bytesEqual a b = true <-> a = b.
Proof.
  revert b. induction a as [|x a IH]; intros [|y b]; simpl; try done.
  rewrite andb_true_iff, IH. split.
  - intros [Hxy ->]. by rewrite (Byte.byte_dec_bl _ _ Hxy).
  - intros [= -> ->]. split; [by apply Byte.byte_dec_lb | done].
Qed.

Lemma timingSafeEqual_same_length (a b : list byte) :
  length a = length b -> timingSafeEqual a b = Ok (bytesEqual a b).
Proof.
  intros Hlen. unfold timingSafeEqual.
  by destruct (Nat.eqb_spec (length a) (length b)).
Qed.

Lemma truthy_true (s : string) : truthy s = true <-> s <> EmptyString.
Proof. destruct s; simpl; split; (done || congruence). Qed.

Lemma validateCsrf_safe env request :
  isSafeMethod (toUpperCase (method request)) = true ->
  validateCsrf env request = true.
Proof. intros Hsafe. unfold validateCsrf. by rewrite Hsafe. Qed.

Lemma validateCsrf_disabled env request :
  isPasswordProtectionEnabled env = false ->
  validateCsrf env request = true.
Proof.
  intros Hoff. unfold validateCsrf. rewrite Hoff. simpl.
  by destruct (isSafeMethod _).
Qed.

Lemma validateCsrf_tokens env request :
  isSafeMethod (toUpperCase (method request)) = false ->
  isPasswordProtectionEnabled env = true ->
  validateCsrf env request = true <->
  exists cookieToken headerToken,
    getCsrfTokenFromCookie (headers_get "cookie" request) = Some cookieToken
    /\ headers_get CSRF_HEADER_NAME request = Some headerToken
    /\ cookieToken <> EmptyString /\ headerToken <> EmptyString
    /\ length (Buffer_from_utf8 cookieToken) =
       length (Buffer_from_utf8 headerToken)
    /\ Buffer_from_utf8 cookieToken = Buffer_from_utf8 headerToken.
Proof.
  intros Hunsafe Hon. unfold validateCsrf. rewrite Hunsafe, Hon. simpl.
  destruct (getCsrfTokenFromCookie _) as [c|]; [|split; [done|]].
  2:{ intros (c & h & [=] & _). }
  destruct (headers_get CSRF_HEADER_NAME request) as [h|]; [|split; [done|]].
  2:{ intros (c' & h' & _ & [=] & _). }
  destruct (truthy c) eqn:Hc; simpl.
  2:{ split; [done|]. intros (c' & h' & [= <-] & _ & Hne & _).
      apply truthy_true in Hne. congruence. }
  destruct (truthy h) eqn:Hh; simpl.
  2:{ split; [done|]. intros (c' & h' & _ & [= <-] & _ & Hne & _).
      apply truthy_true in Hne. congruence. }
  destruct (Nat.eqb_spec (length (Buffer_from_utf8 c))
                         (length (Buffer_from_utf8 h))) as [Hlen|Hlen]; simpl.
  - rewrite timingSafeEqual_same_length by done. rewrite bytesEqual_eq.
    split.
    + intros Heq. exists c, h. repeat split; try done; by apply truthy_true.
    + by intros (c' & h' & [= <-] & [= <-] & _ & _ & _ & Heq).
  - split; [done|]. by intros (c' & h' & [= <-] & [= <-] & _ & _ & Heq & _).
Qed.
End CsrfFacts.

Lemma isSafeMethod_true (m : string) :
  isSafeMethod m = true <-> m = "GET" \/ m = "HEAD" \/ m = "OPTIONS".
Proof.
  unfold isSafeMethod. rewrite !orb_true_iff, !String.eqb_eq. tauto.
Qed.

Lemma utf8Decode_unit (c : ascii) (buf : list byte) :
  utf8Decode (utf8Unit c ++ buf) = String c (utf8Decode buf).
Proof. destruct c as [[] [] [] [] [] [] [] []]; reflexivity. Qed.

Lemma utf8Decode_encode (s : string) : utf8Decode (Buffer_from_utf8 s) = s.
Proof.
  induction s as [|c s IH]; [done|].
  cbn [Buffer_from_utf8]. by rewrite utf8Decode_unit, IH.
Qed.

Lemma Buffer_from_utf8_inj (s1 s2 : string) :
  Buffer_from_utf8 s1 = Buffer_from_utf8 s2 -> s1 = s2.
Proof.
  intros Heq. rewrite <- (utf8Decode_encode s1), <- (utf8Decode_encode s2).
  by rewrite Heq.
Qed.

(** The cases of the CSRF check listed with the design: a GET without
    tokens passes; a POST with the header but no cookie fails; a POST with
    tokens of equal length and different content fails; a POST with the
    same token in cookie and header passes. *)
Example validateCsrf_cases :
  let env : gmap string string := <["CLAWSUITE_PASSWORD" := "secret"]> ∅ in
  validateCsrf env (mkRequest "GET" ∅) = true
  /\ validateCsrf env
       (mkRequest "POST" (<["x-csrf-token" := "abcd"]> ∅)) = false
  /\ validateCsrf env
       (mkRequest "POST" (<["x-csrf-token" := "abcd"]>
                           (<["cookie" := "clawsuite-csrf=abce"]> ∅))) = false
  /\ validateCsrf env
       (mkRequest "POST"
          (<["x-csrf-token" := "abcd"]>
             (<["cookie" := "theme=dark; clawsuite-csrf=abcd"]> ∅))) = true.
Proof. repeat split; by vm_compute. Qed.

(** C2.  [requireAuth] answers the 401 response whenever
    [isAuthenticated] is false, whatever the CSRF check would say;
    otherwise the 403 response whenever [validateCsrf] is false, which
    needs password protection to be on and a method other than GET, HEAD
    and OPTIONS; otherwise null.  There is no other answer, and the only
    change to the session store is the one [isAuthenticated] makes. *)
Theorem requireAuth_order (env : gmap string string) (request : Request)
    (now : Z) (validTokens : list (string * Z)) :
  let a := isAuthenticated env request now validTokens in
  let r := requireAuth env request now validTokens in
  let m := toUpperCase (method request) in
  snd r = snd a
  /\ (fst a = false ->
      fst r = Some unauthorizedResponse /\ status unauthorizedResponse = 401)
  /\ (fst a = true -> validateCsrf env request = false ->
      fst r = Some csrfFailedResponse /\ status csrfFailedResponse = 403
      /\ ~ (m = "GET" \/ m = "HEAD" \/ m = "OPTIONS")
      /\ isPasswordProtectionEnabled env = true)
  /\ (fst a = true -> validateCsrf env request = true -> fst r = None)
  /\ (fst r = Some unauthorizedResponse \/ fst r = Some csrfFailedResponse
      \/ fst r = None).
Proof.
  intros a r m. subst a r. unfold requireAuth.
  destruct (isAuthenticated env request now validTokens) as [[] m'];
    destruct (validateCsrf env request) eqn:Hcsrf; simpl;
    repeat split; try done; try (by intros _); auto.
  - intros Hsafe. apply isSafeMethod_true in Hsafe.
    rewrite validateCsrf_safe in Hcsrf; done.
  - destruct (isPasswordProtectionEnabled env) eqn:Hon; [done|].
    rewrite validateCsrf_disabled in Hcsrf; done.
Qed.

(** The session cookie missing: 401 even for a GET.  A valid session and
    a POST without the CSRF header: 403.  The same POST with the header:
    null. *)
Example requireAuth_cases :
  let env : gmap string string := <["CLAWSUITE_PASSWORD" := "secret"]> ∅ in
  let sessions := storeSessionToken "abc123" 1000 [] in
  let cookies := "clawsuite-auth=abc123; clawsuite-csrf=f00d" in
  fst (requireAuth env (mkRequest "GET" ∅) 2000 sessions)
    = Some unauthorizedResponse
  /\ fst (requireAuth env
            (mkRequest "POST" (<["cookie" := cookies]> ∅)) 2000 sessions)
     = Some csrfFailedResponse
  /\ fst (requireAuth env
            (mkRequest "POST" (<["x-csrf-token" := "f00d"]>
                                 (<["cookie" := cookies]> ∅))) 2000 sessions)
     = None.
Proof. repeat split; by vm_compute. Qed.

(** ** Password verification *)

Lemma fromHex_toHex (buf : list byte) : fromHex (toHex buf) = buf.
Proof.
  induction buf as [|b buf IH]; [done|].
  cbn [toHex]. rewrite <- IH at 2. by destruct b.
Qed.

(** *** Strings in full and their UTF-8 encoding *)

(** Arithmetic with division and remainder by constants. *)
Ltac arith := zify; Z.to_euclidean_division_equations; lia.

Section WideStrings.
Implicit Types (u v : CodeUnit) (s : JsString) (n : N) (buf : list byte).

Lemma to_N_octet n : (n < 256)%N -> Byte.to_N (octet n) = n.
Proof.
  intros Hn. unfold octet. apply Byte.to_of_N.
  by rewrite byte_of_ascii_via_N, N_ascii_embedding.
Qed.

Lemma octet_to_N (b : byte) : octet (Byte.to_N b) = b.
Proof.
  unfold octet. by rewrite <- ascii_of_byte_via_N, byte_of_ascii_of_byte.
Qed.

Lemma unitValue_lt u : (unitValue u < 65536)%N.
Proof.
  unfold unitValue. pose proof (Byte.to_N_bounded (fst u)).
  pose proof (Byte.to_N_bounded (snd u)). lia.
Qed.

Lemma unitOf_unitValue u : unitOf (unitValue u) = u.
Proof.
  destruct u as [hi lo]. unfold unitOf, unitValue. simpl fst. simpl snd.
  pose proof (Byte.to_N_bounded hi). pose proof (Byte.to_N_bounded lo).
  assert ((256 * Byte.to_N hi + Byte.to_N lo) / 256 = Byte.to_N hi)%N
    as -> by arith.
  assert ((256 * Byte.to_N hi + Byte.to_N lo) mod 256 = Byte.to_N lo)%N
    as -> by arith.
  by rewrite !octet_to_N.
Qed.

Lemma unitValue_unitOf n : (n < 65536)%N -> unitValue (unitOf n) = n.
Proof.
  intros Hn. unfold unitValue, unitOf. simpl fst. simpl snd.
  rewrite !to_N_octet by arith. arith.
Qed.

Lemma decode_scalar n buf :
  (n < 55296 \/ 57344 <= n < 65536)%N ->
  utf8DecodeUnits (utf8Scalar n ++ buf) = unitOf n :: utf8DecodeUnits buf.
Proof.
  intros Hn. unfold utf8Scalar.
  destruct (N.ltb_spec n 128).
  { cbn [app utf8DecodeUnits]. rewrite to_N_octet by lia.
    destruct (N.ltb_spec n 128); [done | lia]. }
  destruct (N.ltb_spec n 2048).
  { cbn [app utf8DecodeUnits]. rewrite !to_N_octet by arith.
    destruct (N.ltb_spec (192 + n / 64) 128); [arith|].
    destruct (N.ltb_spec (192 + n / 64) 224); [|arith].
    do 2 f_equal. arith. }
  destruct (N.ltb_spec n 65536); [|lia].
  cbn [app utf8DecodeUnits]. rewrite !to_N_octet by arith.
  destruct (N.ltb_spec (224 + n / 4096) 128); [arith|].
  destruct (N.ltb_spec (224 + n / 4096) 224); [arith|].
  destruct (N.ltb_spec (224 + n / 4096) 240); [|arith].
  do 2 f_equal. arith.
Qed.

Lemma decode_pair u v buf :
  isHighSurrogate u = true -> isLowSurrogate v = true ->
  utf8DecodeUnits (utf8Scalar (codePointOf u v) ++ buf)
  = u :: v :: utf8DecodeUnits buf.
Proof.
  unfold isHighSurrogate, isLowSurrogate, codePointOf.
  intros [Hu1 Hu2]%andb_true_iff [Hv1 Hv2]%andb_true_iff.
  apply N.leb_le in Hu1, Hv1. apply N.ltb_lt in Hu2, Hv2.
  rewrite <- (unitOf_unitValue u) at 2. rewrite <- (unitOf_unitValue v) at 2.
  generalize dependent (unitValue v). generalize dependent (unitValue u).
  intros a Ha1 Ha2 b Hb1 Hb2.
  set (n := (65536 + (a - 55296) * 1024 + (b - 56320))%N).
  assert (65536 <= n < 1114112)%N as Hn by (subst n; lia).
  unfold utf8Scalar.
  destruct (N.ltb_spec n 128); [lia|].
  destruct (N.ltb_spec n 2048); [lia|].
  destruct (N.ltb_spec n 65536); [lia|].
  cbn [app utf8DecodeUnits]. rewrite !to_N_octet by arith.
  destruct (N.ltb_spec (240 + n / 262144) 128); [arith|].
  destruct (N.ltb_spec (240 + n / 262144) 224); [arith|].
  destruct (N.ltb_spec (240 + n / 262144) 240); [arith|].
  assert (((240 + n / 262144 - 240) * 262144
           + (128 + (n / 4096) mod 64 - 128) * 4096
           + (128 + (n / 64) mod 64 - 128) * 64
           + (128 + n mod 64 - 128) - 65536 = n - 65536)%N) as -> by arith.
  do 2 f_equal; [subst n; arith|]. f_equal. subst n. arith.
Qed.

Lemma surrogates_apart u :
  isHighSurrogate u = true -> isLowSurrogate u = false.
Proof.
  unfold isHighSurrogate, isLowSurrogate.
  intros [_ H]%andb_true_iff. apply N.ltb_lt in H.
  apply andb_false_iff. left. apply N.leb_gt. lia.
Qed.

Lemma not_surrogate_range u :
  isHighSurrogate u = false -> isLowSurrogate u = false ->
  (unitValue u < 55296 \/ 57344 <= unitValue u < 65536)%N.
Proof.
  unfold isHighSurrogate, isLowSurrogate. pose proof (unitValue_lt u).
  intros [H1|H1]%andb_false_iff [H2|H2]%andb_false_iff;
    try apply N.leb_gt in H1; try apply N.ltb_ge in H1;
    try apply N.leb_gt in H2; try apply N.ltb_ge in H2; lia.
Qed.

(** Induction two code units at a time. *)
Lemma JsString_ind2 (P : JsString -> Prop) :
  P [] -> (forall u, P [u]) ->
  (forall u v s, P s -> P (v :: s) -> P (u :: v :: s)) ->
  forall s, P s.
Proof.
  intros Hnil Hone Hstep s.
  assert (P s /\ forall u, P (u :: s)) as [? _]; [|done].
  induction s as [|v s [IH1 IH2]]; [by split|].
  split; [apply IH2|]. intros u. by apply Hstep.
Qed.

Lemma utf8Encode_cons u s :
  utf8Encode (u :: s) =
  if isHighSurrogate u then
    match s with
    | v :: rest' =>
        if isLowSurrogate v
        then utf8Scalar (codePointOf u v) ++ utf8Encode rest'
        else utf8Scalar REPLACEMENT ++ utf8Encode s
    | [] => utf8Scalar REPLACEMENT
    end
  else if isLowSurrogate u then utf8Scalar REPLACEMENT ++ utf8Encode s
  else utf8Scalar (unitValue u) ++ utf8Encode s.
Proof. by destruct s. Qed.

Lemma toWellFormed_cons u s :
  toWellFormed (u :: s) =
  if isHighSurrogate u then
    match s with
    | v :: rest' =>
        if isLowSurrogate v then u :: v :: toWellFormed rest'
        else unitOf REPLACEMENT :: toWellFormed s
    | [] => [unitOf REPLACEMENT]
    end
  else if isLowSurrogate u then unitOf REPLACEMENT :: toWellFormed s
  else u :: toWellFormed s.
Proof. by destruct s. Qed.

Lemma isWellFormed_cons u s :
  isWellFormed (u :: s) =
  if isHighSurrogate u then
    match s with
    | v :: rest' => isLowSurrogate v && isWellFormed rest'
    | [] => false
    end
  else negb (isLowSurrogate u) && isWellFormed s.
Proof. by destruct s. Qed.

Lemma replacement_plain :
  isHighSurrogate (unitOf REPLACEMENT) = false
  /\ isLowSurrogate (unitOf REPLACEMENT) = false
  /\ unitValue (unitOf REPLACEMENT) = REPLACEMENT.
Proof. by vm_compute. Qed.

Ltac front u v s :=
  rewrite ?(utf8Encode_cons u (v :: s)), ?(toWellFormed_cons u (v :: s)),
    ?(isWellFormed_cons u (v :: s)), ?(utf8Encode_cons u []),
    ?(toWellFormed_cons u []), ?(isWellFormed_cons u []);
  cbv beta iota.

Lemma decode_encode s :
  isWellFormed s = true -> utf8DecodeUnits (utf8Encode s) = s.
Proof.
  induction s as [|u|u v s IH1 IH2] using JsString_ind2; [done|..].
  - front u u (@nil CodeUnit).
    destruct (isHighSurrogate u) eqn:Hhi; [done|].
    destruct (isLowSurrogate u) eqn:Hlo; [done|]. intros _.
    rewrite decode_scalar by by apply not_surrogate_range.
    by rewrite unitOf_unitValue.
  - front u v s. destruct (isHighSurrogate u) eqn:Hhi.
    + destruct (isLowSurrogate v) eqn:Hlo; [|done]. cbn [andb]. intros Hs.
      by rewrite decode_pair, IH1.
    + destruct (isLowSurrogate u) eqn:Hlo; [done|]. cbn [negb andb].
      intros Hs. rewrite decode_scalar by by apply not_surrogate_range.
      by rewrite unitOf_unitValue, IH2.
Qed.

Lemma utf8Encode_inj s1 s2 :
  isWellFormed s1 = true -> isWellFormed s2 = true ->
  utf8Encode s1 = utf8Encode s2 -> s1 = s2.
Proof.
  intros H1 H2 Heq.
  rewrite <- (decode_encode s1), <- (decode_encode s2) by done.
  by rewrite Heq.
Qed.

Lemma utf8Encode_replacement s :
  utf8Encode (unitOf REPLACEMENT :: s) = utf8Scalar REPLACEMENT ++ utf8Encode s.
Proof.
  destruct replacement_plain as (Rhi & Rlo & Rval).
  by rewrite utf8Encode_cons, Rhi, Rlo, Rval.
Qed.

Lemma isWellFormed_replacement s :
  isWellFormed (unitOf REPLACEMENT :: s) = isWellFormed s.
Proof.
  destruct replacement_plain as (Rhi & Rlo & _).
  by rewrite isWellFormed_cons, Rhi, Rlo.
Qed.

Lemma toWellFormed_encode s : utf8Encode (toWellFormed s) = utf8Encode s.
Proof.
  induction s as [|u|u v s IH1 IH2] using JsString_ind2; [done|..].
  - front u u (@nil CodeUnit).
    destruct (isHighSurrogate u) eqn:Hhi.
    { by rewrite utf8Encode_replacement, app_nil_r. }
    destruct (isLowSurrogate u) eqn:Hlo.
    { by rewrite utf8Encode_replacement. }
    by rewrite utf8Encode_cons, Hhi, Hlo.
  - front u v s. destruct (isHighSurrogate u) eqn:Hhi.
    + destruct (isLowSurrogate v) eqn:Hlo.
      * by rewrite utf8Encode_cons, Hhi, Hlo, IH1.
      * by rewrite utf8Encode_replacement, IH2.
    + destruct (isLowSurrogate u) eqn:Hlo.
      * by rewrite utf8Encode_replacement, IH2.
      * by rewrite utf8Encode_cons, Hhi, Hlo, IH2.
Qed.

Lemma toWellFormed_isWellFormed s : isWellFormed (toWellFormed s) = true.
Proof.
  induction s as [|u|u v s IH1 IH2] using JsString_ind2; [done|..].
  - front u u (@nil CodeUnit).
    destruct (isHighSurrogate u) eqn:Hhi;
      [|destruct (isLowSurrogate u) eqn:Hlo];
      rewrite ?isWellFormed_replacement; [done..|].
    by rewrite isWellFormed_cons, Hhi, Hlo.
  - front u v s. destruct (isHighSurrogate u) eqn:Hhi.
    + destruct (isLowSurrogate v) eqn:Hlo.
      * by rewrite isWellFormed_cons, Hhi, Hlo, IH1.
      * by rewrite isWellFormed_replacement.
    + destruct (isLowSurrogate u) eqn:Hlo.
      * by rewrite isWellFormed_replacement.
      * by rewrite isWellFormed_cons, Hhi, Hlo, IH2.
Qed.

Lemma toWellFormed_fixed s : isWellFormed s = true -> toWellFormed s = s.
Proof.
  induction s as [|u|u v s IH1 IH2] using JsString_ind2; [done|..].
  - front u u (@nil CodeUnit).
    destruct (isHighSurrogate u); [done|]. by destruct (isLowSurrogate u).
  - front u v s. destruct (isHighSurrogate u).
    + destruct (isLowSurrogate v); [|done]. cbn [andb]. intros Hs.
      by rewrite IH1.
    + destruct (isLowSurrogate u); [done|]. cbn [negb andb]. intros Hs.
      by rewrite IH2.
Qed.

Lemma utf8Encode_eq s1 s2 :
  utf8Encode s1 = utf8Encode s2 <-> toWellFormed s1 = toWellFormed s2.
Proof.
  split.
  - intros Heq. apply utf8Encode_inj; try apply toWellFormed_isWellFormed.
    by rewrite !toWellFormed_encode.
  - intros Heq.
    by rewrite <- (toWellFormed_encode s1), Heq, toWellFormed_encode.
Qed.
End WideStrings.

Lemma utf8Encode_wide (s : string) : utf8Encode (wide s) = Buffer_from_utf8 s.
Proof.
  induction s as [|c s IH]; [done|].
  change (wide (String c s)) with ((Byte.x00, byte_of_ascii c) :: wide s).
  cbn [Buffer_from_utf8]. rewrite <- IH. generalize (wide s). intros rest.
  rewrite utf8Encode_cons.
  destruct c as [[] [] [] [] [] [] [] []]; reflexivity.
Qed.

(** *** The two paths of [verifyPassword] *)

Section PasswordFacts.
Variable kdf : JsString -> string -> Z -> list byte.
Implicit Types (env : gmap string string) (h : string).
Implicit Types (password : JsString) (configured : option JsString).
Implicit Types (hashedConfig : option string).

Lemma plaintextAttempt_returns configured password :
  exists b, plaintextAttempt configured password = Ok b.
Proof.
  unfold plaintextAttempt.
  destruct configured as [c|]; [|by eexists].
  destruct (_ || _); [by eexists|]. destruct (negb _); [by eexists|].
  destruct (timingSafeEqual _ _); by eexists.
Qed.

Lemma plaintextAttempt_true configured password :
  plaintextAttempt configured password = Ok true <->
  exists c, configured = Some c /\ c <> []
            /\ utf8Encode password = utf8Encode c.
Proof.
  unfold plaintextAttempt.
  destruct configured as [c|].
  2:{ split; [done | by intros (c & [=] & _)]. }
  destruct c as [|u c].
  { simpl. split; [done | by intros (c & [= <-] & Hne & _)]. }
  set (secret := u :: c). cbn [truthyFull negb orb].
  assert ((Z.of_nat (length secret) =? 0) = false) as ->.
  { apply Z.eqb_neq. subst secret. simpl. lia. }
  destruct (Nat.eqb_spec (length (utf8Encode password))
                         (length (utf8Encode secret)))
    as [Hlen|Hlen]; cbn [negb].
  - rewrite timingSafeEqual_same_length by done.
    destruct (bytesEqual _ _) eqn:Heq.
    + apply bytesEqual_eq in Heq. split; [|done].
      intros _. by exists secret.
    + split; [done|]. intros (c' & [= <-] & _ & Hsame).
      apply bytesEqual_eq in Hsame. congruence.
  - split; [done|]. intros (c' & [= <-] & _ & Hsame). congruence.
Qed.

Lemma plaintextAttempt_none password : plaintextAttempt None password = Ok false.
Proof. done. Qed.

Lemma verifyPasswordWith_hash_returned configured password h b :
  includes ":" h = true -> hashAttempt kdf h password = Ok b ->
  verifyPasswordWith kdf (Some h) configured password = Ok b.
Proof.
  intros Hsep Hret. unfold verifyPasswordWith. rewrite Hsep, Hret.
  by destruct h.
Qed.

Lemma verifyPasswordWith_hash_raised configured password h e :
  includes ":" h = true -> hashAttempt kdf h password = Throw e ->
  verifyPasswordWith kdf (Some h) configured password
  = plaintextAttempt configured password.
Proof.
  intros Hsep Hret. unfold verifyPasswordWith. rewrite Hsep, Hret.
  by destruct h.
Qed.

Lemma verifyPasswordWith_no_hash hashedConfig configured password :
  (hashedConfig = None
   \/ exists h, hashedConfig = Some h /\ includes ":" h = false) ->
  verifyPasswordWith kdf hashedConfig configured password
  = plaintextAttempt configured password.
Proof.
  unfold verifyPasswordWith. intros [->|(h & -> & ->)]; [done|].
  by rewrite andb_false_r.
Qed.

Lemma verifyPasswordWith_returns hashedConfig configured password :
  exists b, verifyPasswordWith kdf hashedConfig configured password = Ok b.
Proof.
  unfold verifyPasswordWith.
  destruct hashedConfig as [h|]; [|apply plaintextAttempt_returns].
  destruct (truthy h && includes ":" h); [|apply plaintextAttempt_returns].
  destruct (hashAttempt kdf h password); [by eexists|].
  apply plaintextAttempt_returns.
Qed.

Lemma verifyPassword_hash_returned env password h b :
  env !! "CLAWSUITE_PASSWORD_HASH" = Some h -> includes ":" h = true ->
  hashAttempt kdf h password = Ok b ->
  verifyPassword kdf env password = Ok b.
Proof.
  intros Hcfg Hsep Hret. unfold verifyPassword. rewrite Hcfg.
  by apply verifyPasswordWith_hash_returned.
Qed.

Lemma hashAttempt_iterations_rejected h password :
  parseInt10 (split ":" h !! 1%nat) = None
  \/ (exists n, parseInt10 (split ":" h !! 1%nat) = Some n
                /\ (n < 1 \/ 2147483647 < n)) ->
  exists e, hashAttempt kdf h password = Throw e.
Proof.
  intros Hbad. unfold hashAttempt, pbkdf2Sync.
  destruct (split ":" h !! 0%nat) as [salt|]; [|by eexists].
  destruct Hbad as [->|(n & -> & Hn)]; [by eexists|].
  destruct (Z.leb_spec 1 n); [|by eexists].
  destruct (Z.leb_spec n 2147483647); [lia | by eexists].
Qed.

Lemma hashAttempt_derived h password salt n :
  split ":" h !! 0%nat = Some salt ->
  parseInt10 (split ":" h !! 1%nat) = Some n ->
  1 <= n <= 2147483647 ->
  hashAttempt kdf h password =
  match split ":" h !! 2%nat with
  | None => Throw TypeError
  | Some stored =>
      if (length (kdf password salt n) =? length (fromHex stored))%nat
      then Ok (bytesEqual (kdf password salt n) (fromHex stored))
      else Throw RangeError
  end.
Proof.
  intros Hsalt Hn Hrange. unfold hashAttempt, pbkdf2Sync.
  rewrite Hsalt, Hn.
  destruct (Z.leb_spec 1 n); [|lia].
  destruct (Z.leb_spec n 2147483647); [|lia]. simpl.
  destruct (split ":" h !! 2%nat) as [stored|]; simpl; [|done].
  by rewrite fromHex_toHex.
Qed.
End PasswordFacts.

(** C1, as the code has it.  With a hash descriptor configured that
    contains the delimiter, [verifyPassword] never raises, whatever the
    candidate and whatever the plaintext secret.  When the hash path
    returns, its result is the answer; a stored hash of the length of
    the derived key and other content makes it return false.  When the
    hash path raises, the exception is caught and the answer is the one
    of the plaintext comparison: true exactly when a plaintext secret is
    configured, is not empty and has the UTF-8 encoding of the candidate
    (the two are the same string once every surrogate without partner
    is replaced by U+FFFD); in particular false when no plaintext secret
    is configured.  The hash path raises when the iteration count parses
    to no number or to one outside 1..2^31-1, when the descriptor has no
    third part, and when the stored hash decodes to another length than
    the derived key. *)
Theorem verifyPassword_hash_failure
    (kdf : JsString -> string -> Z -> list byte)
    (h : string) (configured : option JsString) (password : JsString) :
  includes ":" h = true ->
  let parts := split ":" h in
  let answer := verifyPasswordWith kdf (Some h) configured password in
  (exists b, answer = Ok b)
  /\ (forall b, hashAttempt kdf h password = Ok b -> answer = Ok b)
  /\ (forall e, hashAttempt kdf h password = Throw e ->
        answer = plaintextAttempt configured password
        /\ (answer = Ok true <->
            exists secret,
              configured = Some secret /\ secret <> []
              /\ utf8Encode password = utf8Encode secret)
        /\ (answer = Ok true <->
            exists secret,
              configured = Some secret /\ secret <> []
              /\ toWellFormed password = toWellFormed secret)
        /\ (configured = None -> answer = Ok false))
  /\ (parseInt10 (parts !! 1%nat) = None
      \/ (exists n, parseInt10 (parts !! 1%nat) = Some n
                    /\ (n < 1 \/ 2147483647 < n)) ->
      exists e, hashAttempt kdf h password = Throw e)
  /\ (forall salt n,
        parts !! 0%nat = Some salt ->
        parseInt10 (parts !! 1%nat) = Some n -> 1 <= n <= 2147483647 ->
        (parts !! 2%nat = None ->
         hashAttempt kdf h password = Throw TypeError)
        /\ (forall stored, parts !! 2%nat = Some stored ->
              length (fromHex stored) <> length (kdf password salt n) ->
              hashAttempt kdf h password = Throw RangeError)
        /\ (forall stored, parts !! 2%nat = Some stored ->
              length (fromHex stored) = length (kdf password salt n) ->
              fromHex stored <> kdf password salt n ->
              hashAttempt kdf h password = Ok false)).
Proof.
  intros Hsep parts answer. subst answer.
  split; [apply verifyPasswordWith_returns|].
  split; [intros b; by apply verifyPasswordWith_hash_returned|].
  split; [|split].
  - intros e Hraised.
    rewrite (verifyPasswordWith_hash_raised kdf configured password h e)
      by done.
    split; [done|]. split; [apply plaintextAttempt_true|]. split.
    + rewrite plaintextAttempt_true.
      split; intros (secret & Hcfg & Hne & Hsame); exists secret;
        (split; [done|]); (split; [done|]); by apply utf8Encode_eq.
    + by intros ->.
  - apply hashAttempt_iterations_rejected.
  - intros salt n Hsalt Hn Hrange.
    rewrite (hashAttempt_derived kdf h password salt n) by done.
    fold parts. split; [by intros ->|]. split.
    + intros stored -> Hlen.
      destruct (Nat.eqb_spec (length (kdf password salt n))
                             (length (fromHex stored))); [congruence | done].
    + intros stored -> Hlen Hne.
      destruct (Nat.eqb_spec (length (kdf password salt n))
                             (length (fromHex stored))); [|congruence].
      destruct (bytesEqual _ _) eqn:Heq; [|done].
      apply bytesEqual_eq in Heq. congruence.
Qed.

Lemma verifyPassword_hash_failure_witness :
  let kdf := pbkdf2HmacSha256 in
  let h := "salt:abc:00" in
  let configured := Some (wide "pw") in
  let password := wide "pw" in
  let parts := split ":" h in
  let answer := verifyPasswordWith kdf (Some h) configured password in
  (exists b, answer = Ok b)
  /\ (forall b, hashAttempt kdf h password = Ok b -> answer = Ok b)
  /\ (forall e, hashAttempt kdf h password = Throw e ->
        answer = plaintextAttempt configured password
        /\ (answer = Ok true <->
            exists secret,
              configured = Some secret /\ secret <> []
              /\ utf8Encode password = utf8Encode secret)
        /\ (answer = Ok true <->
            exists secret,
              configured = Some secret /\ secret <> []
              /\ toWellFormed password = toWellFormed secret)
        /\ (configured = None -> answer = Ok false))
  /\ (parseInt10 (parts !! 1%nat) = None
      \/ (exists n, parseInt10 (parts !! 1%nat) = Some n
                    /\ (n < 1 \/ 2147483647 < n)) ->
      exists e, hashAttempt kdf h password = Throw e)
  /\ (forall salt n,
        parts !! 0%nat = Some salt ->
        parseInt10 (parts !! 1%nat) = Some n -> 1 <= n <= 2147483647 ->
        (parts !! 2%nat = None ->
         hashAttempt kdf h password = Throw TypeError)
        /\ (forall stored, parts !! 2%nat = Some stored ->
              length (fromHex stored) <> length (kdf password salt n) ->
              hashAttempt kdf h password = Throw RangeError)
        /\ (forall stored, parts !! 2%nat = Some stored ->
              length (fromHex stored) = length (kdf password salt n) ->
              fromHex stored <> kdf password salt n ->
              hashAttempt kdf h password = Ok false)).
Proof.
  intros kdf h configured password.
  apply (verifyPassword_hash_failure kdf h configured password). reflexivity.
Defined.

(** C1, as the claim states it, fails: the descriptor [salt:abc:00] has an
    iteration count that is not a number, so [pbkdf2Sync] raises; the
    [catch] falls through to the plaintext comparison, and the candidate
    that equals the plaintext secret is accepted. *)
Lemma verifyPassword_accepts_after_hash_failure :
  let env : gmap string string :=
    <["CLAWSUITE_PASSWORD_HASH" := "salt:abc:00"]>
      (<["CLAWSUITE_PASSWORD" := "pw"]> ∅) in
  includes ":" "salt:abc:00" = true
  /\ parseInt10 (split ":" "salt:abc:00" !! 1%nat) = None
  /\ hashAttempt pbkdf2HmacSha256 "salt:abc:00" (wide "pw") = Throw RangeError
  /\ verifyPassword pbkdf2HmacSha256 env (wide "pw") = Ok true.
Proof. repeat split; by vm_compute. Qed.

(** The cases of the hashed password listed with the design, with the
    key derived by two iterations: the right password, a wrong one, and a
    descriptor without delimiter (and no plaintext secret). *)
Example verifyPassword_hashed_cases :
  let descriptor :=
    "salt:2:ae4d0c95af6b46d32d0adff928f06dd02a303f8ef3c251dfd6e2d85a95474c43" in
  let env : gmap string string :=
    <["CLAWSUITE_PASSWORD_HASH" := descriptor]> ∅ in
  let bare : gmap string string :=
    <["CLAWSUITE_PASSWORD_HASH" := "ae4d0c95af6b46d3"]> ∅ in
  verifyPassword pbkdf2HmacSha256 env (wide "password") = Ok true
  /\ verifyPassword pbkdf2HmacSha256 env (wide "Password") = Ok false
  /\ verifyPassword pbkdf2HmacSha256 bare (wide "password") = Ok false.
Proof. repeat split; by vm_compute. Qed.

(* ===================================================================== *)
(** * Part III: further properties of the two modules                      *)
(* ===================================================================== *)

(** ** Strings *)

Section StringFacts.
Implicit Types (s p a b : string) (c sep : ascii).

Lemma append_cons c a b : String c a +:+ b = String c (a +:+ b).
Proof. reflexivity. Qed.

Lemma append_nil_l b : EmptyString +:+ b = b.
Proof. reflexivity. Qed.

Lemma append_assoc a b s : (a +:+ b) +:+ s = a +:+ (b +:+ s).
Proof.
  induction a as [|c a IH]; [done|]. by rewrite !append_cons, IH.
Qed.

Lemma append_nil_r a : a +:+ EmptyString = a.
Proof.
  induction a as [|c a IH]; [done|]. by rewrite append_cons, IH.
Qed.

Lemma stringAll_app (f : ascii -> bool) a b :
  stringAll f (a +:+ b) = stringAll f a && stringAll f b.
Proof.
  induction a as [|c a IH]; [done|].
  rewrite append_cons. simpl. by rewrite IH, andb_assoc.
Qed.

Lemma includes_app c a b : includes c (a +:+ b) = includes c a || includes c b.
Proof.
  induction a as [|x a IH]; [done|].
  rewrite append_cons. simpl. by rewrite IH, orb_assoc.
Qed.

Lemma split_nonempty sep s : split sep s <> [].
Proof.
  induction s as [|c s IH]; simpl; [done|].
  destruct (Ascii.eqb c sep); [done|]. by destruct (split sep s).
Qed.

Lemma split_without sep a : includes sep a = false -> split sep a = [a].
Proof.
  induction a as [|c a IH]; simpl; [done|].
  intros [Hc Ha]%orb_false_iff. rewrite Hc. by rewrite IH.
Qed.

Lemma split_app sep a b :
  includes sep a = false ->
  split sep (a +:+ String sep b) = a :: split sep b.
Proof.
  induction a as [|c a IH].
  - intros _. rewrite append_nil_l. simpl. by rewrite Ascii.eqb_refl.
  - rewrite append_cons. simpl.
    intros [Hc Ha]%orb_false_iff. rewrite Hc. by rewrite IH.
Qed.

Lemma startsWith_app p s : startsWith p (p +:+ s) = true.
Proof.
  induction p as [|c p IH]; [done|].
  rewrite append_cons. simpl. by rewrite Ascii.eqb_refl, IH.
Qed.

Lemma substring_app p s : substring (String.length p) (p +:+ s) = s.
Proof. induction p as [|c p IH]; [done|]. by rewrite append_cons. Qed.

Lemma startsWith_split p s :
  startsWith p s = true -> s = p +:+ substring (String.length p) s.
Proof.
  revert s. induction p as [|c p IH]; intros [|x s]; simpl; try done.
  intros [Hc Hp]%andb_true_iff. apply Ascii.eqb_eq in Hc as ->.
  rewrite append_cons. f_equal. by apply IH.
Qed.

Lemma trimEnd_no_space s :
  stringAll (fun c => negb (isWhiteSpace c)) s = true -> trimEnd s = s.
Proof.
  induction s as [|c s IH]; simpl; [done|].
  intros [Hc Hs]%andb_true_iff. rewrite IH by done.
  apply negb_true_iff in Hc. rewrite Hc. by destruct s.
Qed.

Lemma trim_no_space s :
  stringAll (fun c => negb (isWhiteSpace c)) s = true -> trim s = s.
Proof.
  intros Hs. unfold trim.
  assert (trimStart s = s) as ->; [|by apply trimEnd_no_space].
  destruct s as [|c s]; simpl in *; [done|].
  apply andb_true_iff in Hs as [Hc _]. apply negb_true_iff in Hc.
  by rewrite Hc.
Qed.

Lemma cookieSafe_no_space s :
  cookieSafe s = true -> stringAll (fun c => negb (isWhiteSpace c)) s = true.
Proof.
  unfold cookieSafe. induction s as [|c s IH]; simpl; [done|].
  unfold cookieSafeChar at 1.
  intros [[_ Hc]%andb_true_iff Hs]%andb_true_iff. rewrite Hc. by apply IH.
Qed.

Lemma cookieSafe_no_semicolon s : cookieSafe s = true -> includes ";" s = false.
Proof.
  unfold cookieSafe. induction s as [|c s IH]; simpl; [done|].
  unfold cookieSafeChar at 1.
  intros [[Hc _]%andb_true_iff Hs]%andb_true_iff.
  apply negb_true_iff in Hc. rewrite Hc. by apply IH.
Qed.

Lemma truthy_app_l a b : truthy a = true -> truthy (a +:+ b) = true.
Proof. by destruct a. Qed.
End StringFacts.

(** ** Cookies: what is set is what is read back *)

Section CookieFacts.
Implicit Types (env : gmap string string) (token name rest : string).

Lemma cookieSafe_app a b : cookieSafe (a +:+ b) = cookieSafe a && cookieSafe b.
Proof. apply stringAll_app. Qed.

Lemma secureAttribute_cases env :
  secureAttribute env = " Secure;" \/ secureAttribute env = EmptyString.
Proof.
  unfold secureAttribute. destruct (env !! "NODE_ENV") as [mode|]; [|by right].
  destruct (String.eqb mode "production"); [by left | by right].
Qed.

Lemma trim_leading_space s : trim (String " " s) = trim s.
Proof. reflexivity. Qed.

(** The first piece of [name=token; rest]. *)
Lemma pieces_of_assignment name token rest :
  cookieSafe name = true -> cookieSafe token = true ->
  map trim (split ";" ((name +:+ token) +:+ String ";" rest)) =
  (name +:+ token) :: map trim (split ";" rest).
Proof.
  intros Hname Htoken.
  assert (cookieSafe (name +:+ token) = true) as Hsafe
    by (rewrite cookieSafe_app, Hname, Htoken; done).
  rewrite split_app by by apply cookieSafe_no_semicolon.
  cbn [map]. by rewrite trim_no_space by by apply cookieSafe_no_space.
Qed.

Lemma pieces_of_last_assignment name token :
  cookieSafe name = true -> cookieSafe token = true ->
  map trim (split ";" (String " " (name +:+ token))) = [name +:+ token].
Proof.
  intros Hname Htoken.
  assert (cookieSafe (name +:+ token) = true) as Hsafe
    by (rewrite cookieSafe_app, Hname, Htoken; done).
  rewrite split_without.
  - cbn [map]. rewrite trim_leading_space.
    by rewrite trim_no_space by by apply cookieSafe_no_space.
  - simpl. by apply cookieSafe_no_semicolon.
Qed.

Lemma createSessionCookie_shape env token :
  createSessionCookie env token =
  ("clawsuite-auth=" +:+ token)
    +:+ String ";" (" HttpOnly; SameSite=Strict; Path=/;"
                      +:+ secureAttribute env +:+ " Max-Age=2592000").
Proof. unfold createSessionCookie. by rewrite append_assoc. Qed.

Lemma createCsrfCookie_shape env token :
  createCsrfCookie env token =
  ("clawsuite-csrf=" +:+ token)
    +:+ String ";" (" SameSite=Strict; Path=/;"
                      +:+ secureAttribute env +:+ " Max-Age=2592000").
Proof. unfold createCsrfCookie. by rewrite append_assoc. Qed.

Lemma browserCookieHeader_shape sessionToken csrfToken :
  browserCookieHeader sessionToken csrfToken =
  ("clawsuite-auth=" +:+ sessionToken)
    +:+ String ";" (String " " ("clawsuite-csrf=" +:+ csrfToken)).
Proof. unfold browserCookieHeader. by rewrite append_assoc. Qed.
End CookieFacts.

(** X1.  A session token without semicolon or white space that
    [createSessionCookie] puts into a [Set-Cookie] value is the token that
    [getSessionTokenFromCookie] reads out of that value, in production
    mode or not, and out of the [Cookie] header a browser then sends,
    whatever the CSRF token next to it; the session cookie is never read
    as a CSRF token. *)
Theorem session_cookie_round_trip (env : gmap string string)
    (token csrfToken : string) :
  cookieSafe token = true -> cookieSafe csrfToken = true ->
  getSessionTokenFromCookie (Some (createSessionCookie env token)) = Some token
  /\ getSessionTokenFromCookie (Some (browserCookieHeader token csrfToken))
     = Some token
  /\ getCsrfTokenFromCookie (Some (createSessionCookie env token)) = None.
Proof.
  intros Htoken Hcsrf. unfold getSessionTokenFromCookie, getCsrfTokenFromCookie.
  rewrite createSessionCookie_shape, browserCookieHeader_shape.
  rewrite !pieces_of_assignment by done.
  cbn [List.find]. rewrite startsWith_app.
  rewrite (substring_app "clawsuite-auth=" token).
  repeat split.
  assert (startsWith (CSRF_COOKIE_NAME +:+ "=") ("clawsuite-auth=" +:+ token)
          = false) as -> by reflexivity.
  destruct (secureAttribute_cases env) as [-> | ->]; reflexivity.
Qed.

Lemma session_cookie_round_trip_witness :
  let env : gmap string string := <["NODE_ENV" := "production"]> ∅ in
  getSessionTokenFromCookie (Some (createSessionCookie env "0a1b2c")) = Some "0a1b2c"
  /\ getSessionTokenFromCookie (Some (browserCookieHeader "0a1b2c" "ff00"))
     = Some "0a1b2c"
  /\ getCsrfTokenFromCookie (Some (createSessionCookie env "0a1b2c")) = None.
Proof.
  intros env. apply (session_cookie_round_trip env "0a1b2c" "ff00"); reflexivity.
Defined.

(** X2.  The same for the CSRF token: what [createCsrfCookie] sets is what
    [getCsrfTokenFromCookie] reads out of the [Set-Cookie] value and out
    of the browser's [Cookie] header, next to any session token; and the
    CSRF cookie is never read as a session token. *)
Theorem csrf_cookie_round_trip (env : gmap string string)
    (sessionToken token : string) :
  cookieSafe sessionToken = true -> cookieSafe token = true ->
  getCsrfTokenFromCookie (Some (createCsrfCookie env token)) = Some token
  /\ getCsrfTokenFromCookie (Some (browserCookieHeader sessionToken token))
     = Some token
  /\ getSessionTokenFromCookie (Some (createCsrfCookie env token)) = None.
Proof.
  intros Hsession Htoken.
  unfold getSessionTokenFromCookie, getCsrfTokenFromCookie.
  rewrite createCsrfCookie_shape, browserCookieHeader_shape.
  rewrite !pieces_of_assignment by done.
  rewrite pieces_of_last_assignment by done.
  change (CSRF_COOKIE_NAME +:+ "=") with "clawsuite-csrf=".
  change (String.length CSRF_COOKIE_NAME + 1)%nat
    with (String.length "clawsuite-csrf=").
  cbn [List.find]. rewrite startsWith_app.
  rewrite (substring_app "clawsuite-csrf=" token).
  assert (startsWith "clawsuite-csrf=" ("clawsuite-auth=" +:+ sessionToken)
          = false) as -> by reflexivity.
  assert (startsWith "clawsuite-auth=" ("clawsuite-csrf=" +:+ token)
          = false) as -> by reflexivity.
  repeat split.
  destruct (secureAttribute_cases env) as [-> | ->]; reflexivity.
Qed.

Lemma csrf_cookie_round_trip_witness :
  let env : gmap string string := ∅ in
  getCsrfTokenFromCookie (Some (createCsrfCookie env "ff00")) = Some "ff00"
  /\ getCsrfTokenFromCookie (Some (browserCookieHeader "0a1b2c" "ff00"))
     = Some "ff00"
  /\ getSessionTokenFromCookie (Some (createCsrfCookie env "ff00")) = None.
Proof.
  intros env. apply (csrf_cookie_round_trip env "0a1b2c" "ff00"); reflexivity.
Defined.

(** X3.  The attributes of the two cookies.  Both are [SameSite=Strict]
    with [Path=/] and a [Max-Age] that, in milliseconds, is the lifetime
    of a session in the store; both carry [Secure] exactly when
    [NODE_ENV] is [production]; the session cookie is [HttpOnly] and the
    CSRF cookie is not. *)
Theorem cookie_attributes (env : gmap string string) (token : string) :
  cookieSafe token = true ->
  let secure :=
    if bool_decide (env !! "NODE_ENV" = Some "production")
    then ["Secure"] else [] in
  let maxAge := "Max-Age=" +:+ decimal (Z.to_N (SESSION_TTL_MS / 1000)) in
  cookieAttributes (createSessionCookie env token) =
    ["clawsuite-auth=" +:+ token; "HttpOnly"; "SameSite=Strict"; "Path=/"]
      ++ secure ++ [maxAge]
  /\ cookieAttributes (createCsrfCookie env token) =
    ["clawsuite-csrf=" +:+ token; "SameSite=Strict"; "Path=/"]
      ++ secure ++ [maxAge].
Proof.
  intros Htoken secure maxAge. unfold cookieAttributes.
  rewrite createSessionCookie_shape, createCsrfCookie_shape.
  rewrite !pieces_of_assignment by done.
  subst secure maxAge. unfold secureAttribute.
  destruct (env !! "NODE_ENV") as [mode|] eqn:Hmode.
  - destruct (String.eqb_spec mode "production") as [->|Hne].
    + rewrite bool_decide_eq_true_2 by done. by split.
    + rewrite bool_decide_eq_false_2 by congruence. by split.
  - rewrite bool_decide_eq_false_2 by done. by split.
Qed.

Lemma cookie_attributes_witness :
  let env : gmap string string := <["NODE_ENV" := "production"]> ∅ in
  cookieAttributes (createSessionCookie env "0a1b2c") =
    ["clawsuite-auth=0a1b2c"; "HttpOnly"; "SameSite=Strict"; "Path=/";
     "Secure"; "Max-Age=2592000"]
  /\ cookieAttributes (createCsrfCookie env "0a1b2c") =
    ["clawsuite-csrf=0a1b2c"; "SameSite=Strict"; "Path=/";
     "Secure"; "Max-Age=2592000"].
Proof.
  intros env. apply (cookie_attributes env "0a1b2c"). reflexivity.
Defined.

(** ** Generated tokens *)

Lemma toHex_byte_shape (b : byte) (rest : list byte) :
  stringAll isLowerHexChar (toHex (b :: rest))
    = stringAll isLowerHexChar (toHex rest)
  /\ cookieSafe (toHex (b :: rest)) = cookieSafe (toHex rest).
Proof. by destruct b. Qed.

Lemma toHex_shape (buf : list byte) :
  stringAll isLowerHexChar (toHex buf) = true
  /\ cookieSafe (toHex buf) = true
  /\ String.length (toHex buf) = (2 * length buf)%nat.
Proof.
  induction buf as [|b buf (IH1 & IH2 & IH3)]; [done|].
  destruct (toHex_byte_shape b buf) as [-> ->].
  repeat split; try done. cbn [toHex String.length length]. lia.
Qed.

(** X4.  A token made by [generateSessionToken] or [generateCsrfToken]
    from 32 random bytes is a string of 64 lower-case hexadecimal digits:
    it is not empty, it has no semicolon and no white space (so the
    cookies carry it unchanged), and different bytes give different
    tokens. *)
Theorem generated_token_shape (randomBytes otherBytes : list byte) :
  length randomBytes = 32%nat ->
  let token := generateSessionToken randomBytes in
  generateCsrfToken randomBytes = token
  /\ String.length token = 64%nat
  /\ stringAll isLowerHexChar token = true
  /\ token <> EmptyString
  /\ cookieSafe token = true
  /\ (generateSessionToken otherBytes = token -> otherBytes = randomBytes).
Proof.
  intros Hlen token. subst token. unfold generateCsrfToken, generateSessionToken.
  destruct (toHex_shape randomBytes) as (Hhex & Hsafe & Hsize).
  repeat split; try done.
  - rewrite Hsize, Hlen. done.
  - intros Hempty. rewrite Hempty in Hsize. simpl in Hsize. lia.
  - intros Heq. by rewrite <- (fromHex_toHex otherBytes), Heq, fromHex_toHex.
Qed.

Lemma generated_token_shape_witness :
  let randomBytes := replicate 32 Byte.xa7 in
  let token := generateSessionToken randomBytes in
  generateCsrfToken randomBytes = token
  /\ String.length token = 64%nat
  /\ stringAll isLowerHexChar token = true
  /\ token <> EmptyString
  /\ cookieSafe token = true
  /\ (generateSessionToken (replicate 32 Byte.x00) = token ->
      replicate 32 Byte.x00 = randomBytes).
Proof.
  apply (generated_token_shape (replicate 32 Byte.xa7) (replicate 32 Byte.x00)).
  reflexivity.
Defined.

(** ** Revoking and re-storing a session token *)

(** X7.  After [revokeSessionToken] the token is reported invalid at
    every clock reading; revoking again changes nothing; every other
    token keeps its entry; the map stays well formed. *)
Theorem revoke_invalidates (token : string) (now : Z) (m : list (string * Z)) :
  Map_wf m ->
  let m' := revokeSessionToken token m in
  isValidSessionToken token now m' = (false, m')
  /\ revokeSessionToken token m' = m'
  /\ (forall k, k <> token -> Map_get k m' = Map_get k m)
  /\ Map_wf m'.
Proof.
  intros Hwf m'. subst m'. unfold revokeSessionToken.
  assert (Map_get token (Map_delete token m) = None) as Hgone
    by by apply Map_get_delete_eq.
  split; [by apply isValidSessionToken_absent|]. split.
  - apply Map_delete_absent. by apply Map_get_None.
  - split; [|by apply Map_wf_delete].
    intros k Hk. by apply Map_get_delete_ne.
Qed.

Lemma revoke_invalidates_witness :
  let m := [("a", 50); ("b", 60)] in
  let m' := revokeSessionToken "a" m in
  isValidSessionToken "a" 10 m' = (false, m')
  /\ revokeSessionToken "a" m' = m'
  /\ (forall k, k <> "a" -> Map_get k m' = Map_get k m)
  /\ Map_wf m'.
Proof.
  apply (revoke_invalidates "a" 10 [("a", 50); ("b", 60)]).
  apply NoDup_cons. split; [|apply NoDup_singleton].
  intros Hin. apply list_elem_of_singleton in Hin. discriminate.
Defined.

(** X8.  Storing a token that the store already holds, below the
    capacity, replaces its expiry and nothing else: the keys keep their
    order, the size stays, every other entry stays. *)
Theorem restore_refreshes_expiry (token : string) (now : Z)
    (m : list (string * Z)) (e : Z) :
  Map_get token m = Some e -> Map_size m < MAX_SESSIONS ->
  let m' := storeSessionToken token now m in
  Map_get token m' = Some (now + SESSION_TTL_MS)
  /\ map fst m' = map fst m
  /\ Map_size m' = Map_size m
  /\ (forall k, k <> token -> Map_get k m' = Map_get k m).
Proof.
  intros Hheld Hroom m'. subst m'.
  rewrite storeSessionToken_unfold, afterEviction_below by done.
  assert (token ∈ map fst m) as Hin by by eapply Map_get_Some_elem.
  split; [apply Map_get_set_eq|]. split; [|split].
  - rewrite Map_keys_set. by rewrite decide_True.
  - rewrite Map_size_set. by rewrite decide_True.
  - intros k Hk. by apply Map_get_set_ne.
Qed.

Lemma restore_refreshes_expiry_witness :
  let m := [("a", 50); ("b", 60)] in
  let m' := storeSessionToken "b" 100 m in
  Map_get "b" m' = Some (100 + SESSION_TTL_MS)
  /\ map fst m' = map fst m
  /\ Map_size m' = Map_size m
  /\ (forall k, k <> "b" -> Map_get k m' = Map_get k m).
Proof.
  apply (restore_refreshes_expiry "b" 100 [("a", 50); ("b", 60)] 60);
    reflexivity.
Defined.

(** X9.  At capacity [storeSessionToken] evicts the oldest entry before
    it looks at the token: storing a token that the store already holds
    (and that is not the oldest) drops the oldest entry although no room
    was needed, and the store ends one entry short of its capacity. *)
Theorem restore_at_capacity_evicts (token oldest : string) (now : Z)
    (m : list (string * Z)) (e : Z) :
  Map_wf m -> Map_size m = MAX_SESSIONS ->
  Map_first_key m = Some oldest -> oldest <> EmptyString ->
  token <> oldest -> Map_get token m = Some e ->
  let m' := storeSessionToken token now m in
  Map_get oldest m' = None
  /\ Map_get token m' = Some (now + SESSION_TTL_MS)
  /\ Map_size m' = MAX_SESSIONS - 1.
Proof.
  intros Hwf Hfull Hfirst Holdest Hne Hheld m'. subst m'.
  destruct m as [|[k0 v0] rest]; [done|]. injection Hfirst as ->.
  rewrite storeSessionToken_unfold, afterEviction_full by (done || lia).
  assert (token ∈ map fst rest) as Hin.
  { apply Map_get_Some_elem in Hheld. simpl in Hheld.
    apply elem_of_cons in Hheld as [?|?]; done. }
  apply NoDup_cons in Hwf as [Hfresh Hwf].
  split; [|split].
  - rewrite Map_get_set_ne by done. by apply Map_get_None.
  - apply Map_get_set_eq.
  - rewrite Map_size_set, decide_True by done.
    unfold Map_size in *. simpl length in Hfull. lia.
Qed.

Lemma to_uint_not_nil (n : nat) : Nat.to_uint n <> Decimal.Nil.
Proof.
  intros Hnil. assert (n = 0%nat) as ->.
  { by rewrite <- (DecimalNat.Unsigned.of_to n), Hnil. }
  discriminate.
Qed.

Lemma tokenOf_inj (n1 n2 : nat) : tokenOf n1 = tokenOf n2 -> n1 = n2.
Proof.
  unfold tokenOf. intros Heq. injection Heq as Heq.
  apply (f_equal DecimalString.NilZero.uint_of_string) in Heq.
  rewrite !DecimalString.NilZero.usu in Heq by apply to_uint_not_nil.
  injection Heq as Heq. apply (f_equal Nat.of_uint) in Heq.
  by rewrite !DecimalNat.Unsigned.of_to in Heq.
Qed.

Lemma tokenOf_NoDup (start count : nat) :
  NoDup (map tokenOf (seq start count)).
Proof.
  apply NoDup_fmap_2; [intros n1 n2; apply tokenOf_inj | apply NoDup_seq].
Qed.

Lemma namedCalls_keys (count : nat) :
  map fst (namedCalls count) = map tokenOf (seq 0 count).
Proof.
  unfold namedCalls. rewrite map_map. by apply map_ext.
Qed.

Lemma namedStore_entries : namedStore = map stamped (namedCalls 1000).
Proof.
  unfold namedStore. rewrite storeAll_below_capacity; [done| |].
  - simpl map at 1. rewrite app_nil_l, namedCalls_keys. apply tokenOf_NoDup.
  - unfold namedCalls, Map_size, MAX_SESSIONS.
    rewrite length_map, length_seq. simpl length. lia.
Qed.

Lemma sessionRun_within_capacity_witness :
  Map_size (sessionRun [OpStore "a" 1; OpIsValid "a" 2; OpRevoke "b"] [])
  <= MAX_SESSIONS.
Proof.
  apply (sessionRun_within_capacity
           [OpStore "a" 1; OpIsValid "a" 2; OpRevoke "b"]).
  repeat constructor; discriminate.
Defined.

Lemma eviction_fifo_validity_witness :
  let first := (tokenOf 0, sampleNow) in
  let middle := map (fun n => (tokenOf n, sampleNow)) (seq 1 999) in
  let last := (tokenOf 1000, sampleNow) in
  let m := storeAll (first :: middle ++ [last]) [] in
  (forall now, isValidSessionToken (fst first) now m = (false, m))
  /\ (forall call now, call ∈ middle ++ [last] ->
        now <= snd call + SESSION_TTL_MS ->
        isValidSessionToken (fst call) now m = (true, m)).
Proof.
  intros first middle last.
  apply (eviction_fifo_validity first last middle).
  - discriminate.
  - reflexivity.
  - change (NoDup (map tokenOf (seq 0 1001))). apply tokenOf_NoDup.
  - apply Forall_forall. intros call Hin.
    apply elem_of_app in Hin as [Hin|Hin].
    + apply list_elem_of_fmap in Hin as (n & -> & _). by vm_compute.
    + apply list_elem_of_singleton in Hin as ->. by vm_compute.
Defined.

Lemma restore_at_capacity_evicts_witness :
  let m' := storeSessionToken (tokenOf 5) (sampleNow + 1) namedStore in
  Map_get (tokenOf 0) m' = None
  /\ Map_get (tokenOf 5) m' = Some (sampleNow + 1 + SESSION_TTL_MS)
  /\ Map_size m' = MAX_SESSIONS - 1.
Proof.
  apply (restore_at_capacity_evicts (tokenOf 5) (tokenOf 0) (sampleNow + 1)
           namedStore (sampleNow + SESSION_TTL_MS)).
  - apply storeAll_wf, Map_wf_nil.
  - rewrite namedStore_entries. unfold Map_size, namedCalls.
    by rewrite !length_map, length_seq.
  - by rewrite namedStore_entries.
  - discriminate.
  - discriminate.
  - by rewrite namedStore_entries.
Defined.

(** ** Authentication *)

Section AuthFacts.
Implicit Types (env : gmap string string) (request : Request).
Implicit Types (m : list (string * Z)) (now : Z).

Lemma nonEmptyVar_false (v : option string) :
  nonEmptyVar v = false <-> v = None \/ v = Some EmptyString.
Proof.
  destruct v as [[|c s]|]; simpl; split; auto.
  - destruct (Z.ltb_spec 0 (Z.of_nat (S (String.length s)))); [done | lia].
  - intros [|]; done.
Qed.

Lemma protection_disabled env :
  isPasswordProtectionEnabled env = false <->
  (env !! "CLAWSUITE_PASSWORD" = None
   \/ env !! "CLAWSUITE_PASSWORD" = Some EmptyString)
  /\ (env !! "CLAWSUITE_PASSWORD_HASH" = None
      \/ env !! "CLAWSUITE_PASSWORD_HASH" = Some EmptyString).
Proof.
  unfold isPasswordProtectionEnabled.
  by rewrite orb_false_iff, !nonEmptyVar_false.
Qed.

Lemma isAuthenticated_enabled env request now m :
  isPasswordProtectionEnabled env = true ->
  isAuthenticated env request now m =
  match getSessionTokenFromCookie (headers_get "cookie" request) with
  | Some tok =>
      if negb (truthy tok) then (false, m) else isValidSessionToken tok now m
  | None => (false, m)
  end.
Proof. intros Hon. unfold isAuthenticated. by rewrite Hon. Qed.
End AuthFacts.

(** X10.  With password protection on, [isAuthenticated] answers true
    exactly when the [Cookie] header carries a non-empty
    [clawsuite-auth] value that the store holds with an expiry that is
    not zero and not before the clock reading.  The only change it makes
    to the store is to delete the entry of the presented token when that
    entry has expired. *)
Theorem isAuthenticated_iff (env : gmap string string) (request : Request)
    (now : Z) (m : list (string * Z)) :
  isPasswordProtectionEnabled env = true ->
  let r := isAuthenticated env request now m in
  let presented := getSessionTokenFromCookie (headers_get "cookie" request) in
  (fst r = true <->
   exists tok e, presented = Some tok /\ tok <> EmptyString
                 /\ Map_get tok m = Some e /\ e <> 0 /\ now <= e)
  /\ (snd r = m
      \/ exists tok e, presented = Some tok /\ Map_get tok m = Some e
                       /\ e < now /\ fst r = false
                       /\ snd r = Map_delete tok m).
Proof.
  intros Hon r presented. subst r presented.
  rewrite isAuthenticated_enabled by done.
  destruct (getSessionTokenFromCookie _) as [tok|]; simpl.
  2:{ split; [|by left]. split; [done | by intros (? & ? & [=] & _)]. }
  destruct (truthy tok) eqn:Htok; simpl.
  2:{ split; [|by left]. split; [done|].
      intros (? & ? & [= <-] & Hne & _). apply truthy_true in Hne. congruence. }
  apply truthy_true in Htok.
  unfold isValidSessionToken, truthyNum.
  destruct (Map_get tok m) as [e|] eqn:Hget; simpl.
  2:{ split; [|by left]. split; [done|].
      intros (? & ? & [= <-] & _ & Hg & _). congruence. }
  destruct (Z.eqb_spec e 0) as [He|He]; simpl.
  { split; [|by left]. split; [done|].
    intros (? & ? & [= <-] & _ & Hg & Hz & _). congruence. }
  destruct (Z.ltb_spec e now) as [Hlt|Hge]; simpl.
  - split.
    + split; [done|]. intros (? & e' & [= <-] & _ & Hg & _ & Hle).
      assert (e' = e) by congruence. lia.
    + right. by exists tok, e.
  - split; [|by left]. split; [|done]. intros _. by exists tok, e.
Qed.

Lemma isAuthenticated_iff_witness :
  let env : gmap string string := <["CLAWSUITE_PASSWORD" := "secret"]> ∅ in
  let request := mkRequest "GET" (<["cookie" := "clawsuite-auth=abc"]> ∅) in
  let m := [("abc", 500)] in
  let r := isAuthenticated env request 100 m in
  let presented := getSessionTokenFromCookie (headers_get "cookie" request) in
  (fst r = true <->
   exists tok e, presented = Some tok /\ tok <> EmptyString
                 /\ Map_get tok m = Some e /\ e <> 0 /\ 100 <= e)
  /\ (snd r = m
      \/ exists tok e, presented = Some tok /\ Map_get tok m = Some e
                       /\ e < 100 /\ fst r = false
                       /\ snd r = Map_delete tok m).
Proof.
  intros env request m.
  apply (isAuthenticated_iff env request 100 m). reflexivity.
Defined.

(** X11.  With no password and no hash configured nothing is gated:
    [isAuthenticated] and [validateCsrf] answer true and [requireAuth]
    answers null for every request, the session store is left alone, and
    [verifyPassword] accepts no password at all. *)
Theorem no_secret_no_gate (kdf : JsString -> string -> Z -> list byte)
    (env : gmap string string) (request : Request) (now : Z)
    (m : list (string * Z)) (password : JsString) :
  isPasswordProtectionEnabled env = false ->
  isAuthenticated env request now m = (true, m)
  /\ validateCsrf env request = true
  /\ requireAuth env request now m = (None, m)
  /\ verifyPassword kdf env password = Ok false.
Proof.
  intros Hoff.
  assert (isAuthenticated env request now m = (true, m)) as Hauth
    by (unfold isAuthenticated; by rewrite Hoff).
  assert (validateCsrf env request = true) as Hcsrf
    by by apply validateCsrf_disabled.
  split; [done|]. split; [done|]. split.
  - unfold requireAuth. by rewrite Hauth, Hcsrf.
  - apply protection_disabled in Hoff as [Hplain Hhash].
    unfold verifyPassword, verifyPasswordWith, plaintextAttempt.
    destruct Hhash as [-> | ->], Hplain as [-> | ->]; done.
Qed.

Lemma no_secret_no_gate_witness :
  let env : gmap string string := <["CLAWSUITE_PASSWORD" := EmptyString]> ∅ in
  let request := mkRequest "DELETE" ∅ in
  isAuthenticated env request 100 [] = (true, [])
  /\ validateCsrf env request = true
  /\ requireAuth env request 100 [] = (None, [])
  /\ verifyPassword pbkdf2HmacSha256 env (wide "anything") = Ok false.
Proof.
  intros env request.
  apply (no_secret_no_gate pbkdf2HmacSha256 env request 100 []
           (wide "anything")).
  reflexivity.
Defined.

(** ** From login to logout *)

Section LoginFlow.
Implicit Types (env : gmap string string) (token csrf cookie : string).

Lemma requestWith_cookie method cookie csrfHeader :
  headers_get "cookie" (requestWith method cookie csrfHeader) = Some cookie.
Proof.
  unfold headers_get, requestWith. destruct csrfHeader; simpl.
  - rewrite lookup_insert_ne by done. apply lookup_insert_eq.
  - apply lookup_insert_eq.
Qed.

Lemma requestWith_csrf method cookie csrfHeader :
  headers_get "x-csrf-token" (requestWith method cookie csrfHeader)
  = csrfHeader.
Proof.
  unfold headers_get, requestWith. destruct csrfHeader; simpl.
  - apply lookup_insert_eq.
  - rewrite lookup_insert_ne by done. apply lookup_empty.
Qed.

Lemma browserCookieHeader_session token csrf :
  cookieSafe token = true ->
  getSessionTokenFromCookie (Some (browserCookieHeader token csrf))
  = Some token.
Proof.
  intros Htoken. unfold getSessionTokenFromCookie.
  rewrite browserCookieHeader_shape, pieces_of_assignment by done.
  cbn [List.find]. rewrite startsWith_app.
  by rewrite (substring_app "clawsuite-auth=" token).
Qed.

Lemma browserCookieHeader_csrf token csrf :
  cookieSafe token = true -> cookieSafe csrf = true ->
  getCsrfTokenFromCookie (Some (browserCookieHeader token csrf)) = Some csrf.
Proof.
  intros Htoken Hcsrf. unfold getCsrfTokenFromCookie.
  rewrite browserCookieHeader_shape, pieces_of_assignment by done.
  rewrite pieces_of_last_assignment by done.
  change (CSRF_COOKIE_NAME +:+ "=") with "clawsuite-csrf=".
  change (String.length CSRF_COOKIE_NAME + 1)%nat
    with (String.length "clawsuite-csrf=").
  cbn [List.find]. rewrite startsWith_app.
  assert (startsWith "clawsuite-csrf=" ("clawsuite-auth=" +:+ token)
          = false) as -> by reflexivity.
  by rewrite (substring_app "clawsuite-csrf=" csrf).
Qed.

Lemma validateCsrf_post env token csrf csrfHeader :
  isPasswordProtectionEnabled env = true ->
  cookieSafe token = true -> cookieSafe csrf = true ->
  csrf <> EmptyString ->
  validateCsrf env
    (requestWith "POST" (browserCookieHeader token csrf) csrfHeader)
  = bool_decide (csrfHeader = Some csrf).
Proof.
  intros Hon Htoken Hcsrf Hne.
  set (request := requestWith "POST" (browserCookieHeader token csrf) csrfHeader).
  pose proof (validateCsrf_tokens env request eq_refl Hon) as Hiff.
  unfold CSRF_HEADER_NAME in Hiff. subst request.
  rewrite requestWith_cookie, requestWith_csrf in Hiff.
  rewrite browserCookieHeader_csrf in Hiff by done.
  destruct (validateCsrf env _).
  - destruct Hiff as [(c & h & [= <-] & -> & _ & _ & _ & Heq) _]; [done|].
    apply Buffer_from_utf8_inj in Heq as <-. by rewrite bool_decide_eq_true_2.
  - case_bool_decide as Hh; [|done]. subst csrfHeader.
    apply Hiff. by exists csrf, csrf.
Qed.
End LoginFlow.

(** X12.  From login to logout, with password protection on.  A session
    token and a CSRF token (non-empty, without semicolon or white space)
    are issued, the session token is stored at reading [t0], and the
    browser sends both cookies back.  Up to the expiry of the session a
    GET passes [requireAuth]; a POST without the [x-csrf-token] header,
    or with another value in it, gets the 403 response; a POST with the
    CSRF token in the header passes; and once the session token is
    revoked the same POST gets the 401 response.  None of these calls
    changes the store. *)
Theorem login_to_logout (env : gmap string string)
    (token csrf other : string) (t0 t1 : Z) (m : list (string * Z)) :
  isPasswordProtectionEnabled env = true ->
  cookieSafe token = true -> cookieSafe csrf = true ->
  token <> EmptyString -> csrf <> EmptyString -> other <> csrf ->
  Map_wf m -> 0 <= t0 -> t1 <= t0 + SESSION_TTL_MS ->
  let sessions := storeSessionToken token t0 m in
  let cookie := browserCookieHeader token csrf in
  requireAuth env (requestWith "GET" cookie None) t1 sessions
    = (None, sessions)
  /\ requireAuth env (requestWith "POST" cookie None) t1 sessions
     = (Some csrfFailedResponse, sessions)
  /\ requireAuth env (requestWith "POST" cookie (Some other)) t1 sessions
     = (Some csrfFailedResponse, sessions)
  /\ requireAuth env (requestWith "POST" cookie (Some csrf)) t1 sessions
     = (None, sessions)
  /\ requireAuth env (requestWith "POST" cookie (Some csrf)) t1
       (revokeSessionToken token sessions)
     = (Some unauthorizedResponse, revokeSessionToken token sessions).
Proof.
  intros Hon Htoken Hcsrf Hne Hcne Hother Hwf Ht0 Ht1 sessions cookie.
  assert (forall method header store,
            isAuthenticated env (requestWith method cookie header) t1 store
            = isValidSessionToken token t1 store) as Hauth.
  { intros method header store. rewrite isAuthenticated_enabled by done.
    rewrite requestWith_cookie. subst cookie.
    rewrite browserCookieHeader_session by done.
    apply truthy_true in Hne. by rewrite Hne. }
  assert (isValidSessionToken token t1 sessions = (true, sessions)) as Hlive.
  { pose proof SESSION_TTL_MS_pos.
    eapply isValidSessionToken_live;
      [apply storeSessionToken_get | lia | done]. }
  assert (isValidSessionToken token t1 (revokeSessionToken token sessions)
          = (false, revokeSessionToken token sessions)) as Hgone.
  { apply isValidSessionToken_absent. apply Map_get_delete_eq.
    by apply storeSessionToken_wf. }
  unfold requireAuth. rewrite !Hauth, Hlive, Hgone. subst cookie.
  rewrite !validateCsrf_post by done.
  rewrite validateCsrf_safe by done.
  rewrite (bool_decide_eq_true_2 (Some csrf = Some csrf)) by done.
  rewrite (bool_decide_eq_false_2 (None = Some csrf)) by done.
  rewrite (bool_decide_eq_false_2 (Some other = Some csrf)) by congruence.
  done.
Qed.

Lemma login_to_logout_witness :
  let env : gmap string string := <["CLAWSUITE_PASSWORD" := "secret"]> ∅ in
  let sessions := storeSessionToken "0a1b2c" 1000 [] in
  let cookie := browserCookieHeader "0a1b2c" "ff00" in
  requireAuth env (requestWith "GET" cookie None) 2000 sessions
    = (None, sessions)
  /\ requireAuth env (requestWith "POST" cookie None) 2000 sessions
     = (Some csrfFailedResponse, sessions)
  /\ requireAuth env (requestWith "POST" cookie (Some "ff01")) 2000 sessions
     = (Some csrfFailedResponse, sessions)
  /\ requireAuth env (requestWith "POST" cookie (Some "ff00")) 2000 sessions
     = (None, sessions)
  /\ requireAuth env (requestWith "POST" cookie (Some "ff00")) 2000
       (revokeSessionToken "0a1b2c" sessions)
     = (Some unauthorizedResponse, revokeSessionToken "0a1b2c" sessions).
Proof.
  intros env.
  apply (login_to_logout env "0a1b2c" "ff00" "ff01" 1000 2000 []);
    try reflexivity; try discriminate.
  apply NoDup_nil_2.
Defined.

(** ** The two modes of [verifyPassword] *)

(** X13.  Without a usable hash descriptor (none configured, or one
    without the [:] delimiter) the plaintext secret alone decides, for
    candidates and secrets that are any JavaScript strings.
    [verifyPassword] never raises; it accepts exactly the candidates
    whose UTF-8 encoding is the one of a configured, non-empty secret,
    which are the candidates that become the secret's well-formed form
    when every surrogate without partner is replaced by U+FFFD.  For a
    well-formed candidate and secret that is equality of the two
    strings.  It is not equality in general: against the secret U+FFFD
    a candidate that is one surrogate is accepted.  With no plaintext
    secret nobody is accepted. *)
Theorem verifyPassword_plaintext_mode
    (kdf : JsString -> string -> Z -> list byte)
    (hashedConfig : option string) (configured : option JsString)
    (password : JsString) :
  (hashedConfig = None
   \/ exists h, hashedConfig = Some h /\ includes ":" h = false) ->
  let answer := verifyPasswordWith kdf hashedConfig configured password in
  (exists b, answer = Ok b)
  /\ (answer = Ok true <->
      exists secret, configured = Some secret /\ secret <> []
                     /\ utf8Encode password = utf8Encode secret)
  /\ (answer = Ok true <->
      exists secret, configured = Some secret /\ secret <> []
                     /\ toWellFormed password = toWellFormed secret)
  /\ (forall secret,
        configured = Some secret ->
        isWellFormed password = true -> isWellFormed secret = true ->
        (answer = Ok true <-> secret <> [] /\ password = secret))
  /\ (forall u,
        isHighSurrogate u || isLowSurrogate u = true ->
        verifyPasswordWith kdf hashedConfig (Some [unitOf REPLACEMENT]) [u]
        = Ok true
        /\ [u] <> [unitOf REPLACEMENT])
  /\ (configured = None -> answer = Ok false).
Proof.
  intros Hhash answer. subst answer.
  assert (forall configured password,
            verifyPasswordWith kdf hashedConfig configured password = Ok true
            <-> exists secret, configured = Some secret /\ secret <> []
                  /\ toWellFormed password = toWellFormed secret) as Hiff.
  { intros configured' password'.
    rewrite verifyPasswordWith_no_hash, plaintextAttempt_true by done.
    split; intros (secret & Hcfg & Hne & Hsame); exists secret;
      (split; [done|]); (split; [done|]); by apply utf8Encode_eq. }
  split; [apply verifyPasswordWith_returns|]. split.
  { rewrite verifyPasswordWith_no_hash by done. apply plaintextAttempt_true. }
  split; [apply Hiff|]. split; [|split].
  - intros secret -> Hpw Hsecret. rewrite Hiff. split.
    + intros (secret' & [= <-] & Hne & Hsame). split; [done|].
      by rewrite <- (toWellFormed_fixed password),
           <- (toWellFormed_fixed secret).
    + intros [Hne ->]. by exists secret.
  - intros u Hlone. destruct replacement_plain as (Rhi & Rlo & _). split.
    + apply Hiff. exists [unitOf REPLACEMENT]. split; [done|].
      split; [done|].
      rewrite !toWellFormed_cons, Rhi, Rlo.
      destruct (isHighSurrogate u); [done|].
      by destruct (isLowSurrogate u).
    + intros [= ->]. by rewrite Rhi, Rlo in Hlone.
  - intros ->. by rewrite verifyPasswordWith_no_hash.
Qed.

Lemma verifyPassword_plaintext_mode_witness :
  let kdf := pbkdf2HmacSha256 in
  let hashedConfig := Some "nodelimiter" in
  let configured := Some (wide "secret") in
  let password := wide "secret" in
  let answer := verifyPasswordWith kdf hashedConfig configured password in
  (exists b, answer = Ok b)
  /\ (answer = Ok true <->
      exists secret, configured = Some secret /\ secret <> []
                     /\ utf8Encode password = utf8Encode secret)
  /\ (answer = Ok true <->
      exists secret, configured = Some secret /\ secret <> []
                     /\ toWellFormed password = toWellFormed secret)
  /\ (forall secret,
        configured = Some secret ->
        isWellFormed password = true -> isWellFormed secret = true ->
        (answer = Ok true <-> secret <> [] /\ password = secret))
  /\ (forall u,
        isHighSurrogate u || isLowSurrogate u = true ->
        verifyPasswordWith kdf hashedConfig (Some [unitOf REPLACEMENT]) [u]
        = Ok true
        /\ [u] <> [unitOf REPLACEMENT])
  /\ (configured = None -> answer = Ok false).
Proof.
  intros kdf hashedConfig configured password.
  apply (verifyPassword_plaintext_mode kdf hashedConfig configured password).
  right. exists "nodelimiter". split; reflexivity.
Defined.

(** X14.  With a well-formed hash descriptor [salt:iterations:hash]
    (iterations a number in 1..2^31-1, hash decoding to as many bytes as
    the derived key) the hash alone decides: [verifyPassword] accepts
    exactly the passwords whose derived key is the stored hash.  The
    plaintext secret is not consulted; a password equal to it is refused
    unless its key matches. *)
Theorem verifyPassword_hash_mode
    (kdf : JsString -> string -> Z -> list byte)
    (env : gmap string string) (password : JsString)
    (h salt stored : string) (n : Z) :
  env !! "CLAWSUITE_PASSWORD_HASH" = Some h -> includes ":" h = true ->
  split ":" h !! 0%nat = Some salt ->
  parseInt10 (split ":" h !! 1%nat) = Some n -> 1 <= n <= 2147483647 ->
  split ":" h !! 2%nat = Some stored ->
  length (fromHex stored) = length (kdf password salt n) ->
  (verifyPassword kdf env password = Ok true <->
   kdf password salt n = fromHex stored)
  /\ (kdf password salt n <> fromHex stored ->
      verifyPassword kdf env password = Ok false).
Proof.
  intros Hcfg Hsep Hsalt Hn Hrange Hstored Hlen.
  assert (verifyPassword kdf env password =
          Ok (bytesEqual (kdf password salt n) (fromHex stored))) as ->.
  { apply (verifyPassword_hash_returned kdf env password h); [done|done|].
    rewrite (hashAttempt_derived kdf h password salt n) by done.
    rewrite Hstored.
    by destruct (Nat.eqb_spec (length (kdf password salt n))
                              (length (fromHex stored))). }
  split.
  - split; [intros [= Heq]; by apply bytesEqual_eq|].
    intros Heq. f_equal. by apply bytesEqual_eq.
  - intros Hne. f_equal. destruct (bytesEqual _ _) eqn:Heq; [|done].
    by apply bytesEqual_eq in Heq.
Qed.

Lemma verifyPassword_hash_mode_witness :
  let h :=
    "salt:2:ae4d0c95af6b46d32d0adff928f06dd02a303f8ef3c251dfd6e2d85a95474c43" in
  let stored :=
    "ae4d0c95af6b46d32d0adff928f06dd02a303f8ef3c251dfd6e2d85a95474c43" in
  let env : gmap string string :=
    <["CLAWSUITE_PASSWORD_HASH" := h]> (<["CLAWSUITE_PASSWORD" := "secret"]> ∅) in
  (verifyPassword pbkdf2HmacSha256 env (wide "secret") = Ok true <->
   pbkdf2HmacSha256 (wide "secret") "salt" 2 = fromHex stored)
  /\ (pbkdf2HmacSha256 (wide "secret") "salt" 2 <> fromHex stored ->
      verifyPassword pbkdf2HmacSha256 env (wide "secret") = Ok false).
Proof.
  intros h stored env.
  apply (verifyPassword_hash_mode pbkdf2HmacSha256 env (wide "secret") h
           "salt" stored 2);
    [reflexivity | reflexivity | reflexivity | reflexivity | lia
    | reflexivity | by vm_compute].
Defined.

(** ** The CSRF check compares the tokens themselves *)

(** X15.  For a request that is checked (password protection on, method
    other than GET, HEAD, OPTIONS), [validateCsrf] answers true exactly
    when the cookie and the header carry the same non-empty string: the
    comparison of lengths and bytes of the encodings is a comparison of
    the two tokens. *)
Theorem validateCsrf_same_token (env : gmap string string)
    (request : Request) :
  isSafeMethod (toUpperCase (method request)) = false ->
  isPasswordProtectionEnabled env = true ->
  (validateCsrf env request = true <->
   exists token, token <> EmptyString
     /\ getCsrfTokenFromCookie (headers_get "cookie" request) = Some token
     /\ headers_get "x-csrf-token" request = Some token).
Proof.
  intros Hunsafe Hon. rewrite validateCsrf_tokens by done. split.
  - intros (c & h & Hc & Hh & Hne & _ & _ & Heq).
    apply Buffer_from_utf8_inj in Heq as <-. by exists c.
  - intros (token & Hne & Hc & Hh). by exists token, token.
Qed.

Lemma validateCsrf_same_token_witness :
  let env : gmap string string := <["CLAWSUITE_PASSWORD" := "secret"]> ∅ in
  let request := requestWith "PUT" "clawsuite-csrf=ff00" (Some "ff00") in
  (validateCsrf env request = true <->
   exists token, token <> EmptyString
     /\ getCsrfTokenFromCookie (headers_get "cookie" request) = Some token
     /\ headers_get "x-csrf-token" request = Some token).
Proof.
  intros env request. apply (validateCsrf_same_token env request); reflexivity.
Defined.

(** ** The sliding window over a whole run *)

Section WindowFacts.
Implicit Types (store : gmap string (list Z)) (key : string).
Implicit Types (maxRequests windowMs now t : Z) (ts : list Z).

Lemma inWindow_app windowMs now ts1 ts2 :
  inWindow windowMs now (ts1 ++ ts2)
  = inWindow windowMs now ts1 ++ inWindow windowMs now ts2.
Proof. apply List.filter_app. Qed.

Lemma inWindow_length_le windowMs now ts :
  (length (inWindow windowMs now ts) <= length ts)%nat.
Proof.
  induction ts as [|t ts IH]; simpl; [done|].
  destruct (now - t <? windowMs); simpl; lia.
Qed.

(** A timestamp outside the window of an earlier reading is outside the
    window of every later one. *)
Lemma inWindow_later windowMs now0 now ts :
  now0 <= now ->
  inWindow windowMs now (inWindow windowMs now0 ts) = inWindow windowMs now ts.
Proof.
  intros Hle. induction ts as [|t ts IH]; simpl; [done|].
  destruct (Z.ltb_spec (now0 - t) windowMs) as [Hin0|Hout0]; simpl.
  - by rewrite IH.
  - rewrite IH. destruct (Z.ltb_spec (now - t) windowMs); [lia | done].
Qed.

Lemma inWindow_now windowMs now :
  0 < windowMs -> inWindow windowMs now [now] = [now].
Proof.
  intros Hpos. simpl. rewrite Z.sub_diag.
  by destruct (Z.ltb_spec 0 windowMs); [|lia].
Qed.

Lemma combine_snoc {A B} (l1 : list A) (l2 : list B) x y :
  length l1 = length l2 ->
  combine (l1 ++ [x]) (l2 ++ [y]) = combine l1 l2 ++ [(x, y)].
Proof.
  revert l2. induction l1 as [|a l1 IH]; intros [|b l2] Hlen; simpl in *;
    try done.
  rewrite IH; [done | lia].
Qed.

Lemma allowedTimes_snoc answers readings b t :
  length answers = length readings ->
  allowedTimes (answers ++ [b]) (readings ++ [t])
  = allowedTimes answers readings ++ (if b then [t] else []).
Proof.
  intros Hlen. unfold allowedTimes.
  rewrite combine_snoc, List.filter_app, map_app by done.
  by destruct b.
Qed.

Lemma limiterRun_snoc evs ev store :
  limiterRun (evs ++ [ev]) store = limiterStep (limiterRun evs store) ev.
Proof. unfold limiterRun. by rewrite fold_left_app. Qed.

(** After a run of calls for one key, with one setting and a clock that
    does not go back: one answer per call, an entry of at most
    [maxRequests] timestamps, and in every window that ends now or later
    the entry and the list of allowed readings show the same calls. *)
Lemma callsAt_invariant key maxRequests windowMs store readings :
  store !! key = None -> 0 < windowMs ->
  StronglySorted Z.le readings ->
  let r := limiterRun (callsAt key maxRequests windowMs readings) store in
  let entry := default [] (snd r !! key) in
  length (fst r) = length readings
  /\ Z.of_nat (length entry) <= Z.max 0 maxRequests
  /\ (forall now, Forall (fun t => t <= now) readings ->
        inWindow windowMs now entry
        = inWindow windowMs now (allowedTimes (fst r) readings))
  /\ (forall t, last readings = Some t ->
        entry = inWindow windowMs t (allowedTimes (fst r) readings)).
Proof.
  intros Hfresh Hpos. induction readings as [|t readings IH] using rev_ind.
  { intros _. cbn. rewrite Hfresh. repeat split; try done. simpl. lia. }
  intros Hsorted. apply StronglySorted_app in Hsorted as (Hbefore & Hearlier & _).
  specialize (IH Hearlier). cbn zeta in IH.
  destruct IH as (Hlen & Hsize & Hsame & _).
  unfold callsAt in *. rewrite map_app. cbn [map]. rewrite limiterRun_snoc.
  destruct (limiterRun (map (EvCall key maxRequests windowMs) readings) store)
    as [answers st]. cbn [fst snd] in *. cbn [limiterStep fst snd].
  assert (Forall (fun s => s <= t) readings) as Hpast.
  { apply Forall_forall. intros s Hs. apply (Hbefore s t Hs).
    by apply list_elem_of_singleton. }
  pose proof (Hsame t Hpast) as Hkept.
  rewrite rateLimit_unfold. cbn zeta.
  change (List.filter (fun s => t - s <? windowMs) (default [] (st !! key)))
    with (inWindow windowMs t (default [] (st !! key))).
  set (kept := inWindow windowMs t (default [] (st !! key))) in *.
  assert (length kept <= length (default [] (st !! key)))%nat as Hsub
    by apply inWindow_length_le.
  destruct (Z.leb_spec maxRequests (Z.of_nat (length kept))) as [Hfull|Hroom];
    cbn [fst snd]; rewrite lookup_insert_eq; cbn [default from_option id];
    rewrite allowedTimes_snoc by done; rewrite ?app_nil_r.
  - split; [rewrite !length_app; simpl; lia|]. split; [lia|]. split.
    + intros now Hnow. rewrite Forall_app, Forall_singleton in Hnow.
      destruct Hnow as [_ Hnow].
      rewrite <- (inWindow_later windowMs t now (allowedTimes _ _)) by done.
      by rewrite <- Hkept.
    + intros t' Hlast. rewrite last_snoc in Hlast. injection Hlast as <-.
      done.
  - split; [rewrite !length_app; simpl; lia|]. split.
    { rewrite length_app. simpl. lia. }
    split.
    + intros now Hnow. rewrite Forall_app, Forall_singleton in Hnow.
      destruct Hnow as [_ Hnow].
      rewrite !inWindow_app. f_equal.
      rewrite <- (inWindow_later windowMs t now (allowedTimes _ _)) by done.
      by rewrite <- Hkept.
    + intros t' Hlast. rewrite last_snoc in Hlast. injection Hlast as <-.
      rewrite inWindow_app, inWindow_now by done. by rewrite <- Hkept.
Qed.
End WindowFacts.

(** X16.  The guarantee of the sliding window.  One key is called with
    one setting ([windowMs] positive) at clock readings that do not go
    back, starting without an entry.  Then at every call the allowed
    calls whose readings lie inside the window that ends at this call,
    this call included, are at most [maxRequests]; and the entry of the
    key holds exactly the readings of those calls. *)
Theorem sliding_window_guarantee (key : string) (maxRequests windowMs : Z)
    (store : gmap string (list Z)) (earlier : list Z) (t : Z) :
  store !! key = None -> 0 < windowMs ->
  StronglySorted Z.le (earlier ++ [t]) ->
  let readings := earlier ++ [t] in
  let r := limiterRun (callsAt key maxRequests windowMs readings) store in
  let allowed := allowedTimes (fst r) readings in
  Z.of_nat (length (inWindow windowMs t allowed)) <= Z.max 0 maxRequests
  /\ default [] (snd r !! key) = inWindow windowMs t allowed.
Proof.
  intros Hfresh Hpos Hsorted readings r allowed.
  destruct (callsAt_invariant key maxRequests windowMs store readings
              Hfresh Hpos Hsorted) as (_ & Hsize & _ & Hentry).
  fold r in Hsize, Hentry. fold allowed in Hentry.
  specialize (Hentry t). rewrite <- Hentry by apply last_snoc.
  by split.
Qed.

Lemma sliding_window_guarantee_witness :
  let readings := [0; 100; 200] ++ [900] in
  let r := limiterRun (callsAt "k" 2 1000 readings) ∅ in
  let allowed := allowedTimes (fst r) readings in
  Z.of_nat (length (inWindow 1000 900 allowed)) <= Z.max 0 2
  /\ default [] (snd r !! "k") = inWindow 1000 900 allowed.
Proof.
  apply (sliding_window_guarantee "k" 2 1000 ∅ [0; 100; 200] 900).
  - apply lookup_empty.
  - lia.
  - repeat (apply SSorted_cons || apply SSorted_nil || apply Forall_cons_2
            || apply Forall_nil_2); lia.
Defined.

(** ** The cleanup timer and small windows *)

Section SweepFacts.
Implicit Types (store : gmap string (list Z)) (key : string).
Implicit Types (windowMs now t : Z) (ts : list Z).

Lemma inWindow_narrow windowMs width now0 now ts :
  windowMs <= width -> now0 <= now ->
  inWindow windowMs now (inWindow width now0 ts) = inWindow windowMs now ts.
Proof.
  intros Hwidth Hle. induction ts as [|t ts IH]; simpl; [done|].
  destruct (Z.ltb_spec (now0 - t) width) as [Hin0|Hout0]; simpl.
  - by rewrite IH.
  - rewrite IH. destruct (Z.ltb_spec (now - t) windowMs); [lia | done].
Qed.

Lemma cleanup_entry now store key :
  default [] (cleanup now store !! key)
  = inWindow CLEANUP_CUTOFF_MS now (default [] (store !! key)).
Proof.
  rewrite cleanup_lookup. destruct (store !! key) as [ts|]; [|done].
  simpl. unfold cleanupEntry, inWindow. by destruct (List.filter _ ts).
Qed.

Lemma sameRecent_later clock now s1 s2 :
  clock <= now -> sameRecent clock s1 s2 -> sameRecent now s1 s2.
Proof.
  intros Hle Hsame key.
  rewrite <- (inWindow_later _ clock now (default [] (s1 !! key))) by done.
  rewrite <- (inWindow_later _ clock now (default [] (s2 !! key))) by done.
  by rewrite Hsame.
Qed.

Lemma sameRecent_kept clock now windowMs s1 s2 key :
  clock <= now -> windowMs <= CLEANUP_CUTOFF_MS -> sameRecent clock s1 s2 ->
  inWindow windowMs now (default [] (s1 !! key))
  = inWindow windowMs now (default [] (s2 !! key)).
Proof.
  intros Hle Hwidth Hsame.
  rewrite <- (inWindow_narrow windowMs CLEANUP_CUTOFF_MS clock now
                (default [] (s1 !! key))) by done.
  rewrite <- (inWindow_narrow windowMs CLEANUP_CUTOFF_MS clock now
                (default [] (s2 !! key))) by done.
  by rewrite Hsame.
Qed.

Lemma sameRecent_insert now s1 s2 key ts :
  sameRecent now s1 s2 -> sameRecent now (<[key := ts]> s1) (<[key := ts]> s2).
Proof.
  intros Hsame k. destruct (decide (key = k)) as [->|Hne].
  - by rewrite !lookup_insert_eq.
  - rewrite !lookup_insert_ne by done. apply Hsame.
Qed.

Lemma sweeps_unseen evs :
  forall (acc : list bool) s1 s2 clock,
    sameRecent clock s1 s2 ->
    Forall (fun ev => clock <= eventTime ev) evs ->
    StronglySorted Z.le (map eventTime evs) ->
    Forall (fun ev => callWindow ev <= CLEANUP_CUTOFF_MS) evs ->
    fst (fold_left limiterStep evs (acc, s1))
    = fst (fold_left limiterStep (List.filter isCall evs) (acc, s2)).
Proof.
  induction evs as [|ev evs IH]; intros acc s1 s2 clock Hsame Hclock Hsorted Hwin;
    [done|].
  apply Forall_cons in Hclock as [Hnow _].
  apply Forall_cons in Hwin as [Hwidth Hwin].
  cbn [map] in Hsorted. apply StronglySorted_cons in Hsorted as [Hnext Hsorted].
  assert (Forall (fun ev' => eventTime ev <= eventTime ev') evs) as Hafter.
  { apply Forall_forall. intros ev' Hin. rewrite Forall_forall in Hnext.
    apply Hnext. apply list_elem_of_fmap. by exists ev'. }
  destruct ev as [key maxRequests windowMs now|now];
    cbn [List.filter isCall fold_left limiterStep fst snd eventTime callWindow]
      in *.
  - rewrite !rateLimit_unfold. cbn zeta.
    change (List.filter (fun t => now - t <? windowMs))
      with (inWindow windowMs now).
    rewrite (sameRecent_kept clock now windowMs s1 s2 key) by done.
    pose proof (sameRecent_later clock now s1 s2 Hnow Hsame) as Hsame'.
    destruct (maxRequests <=? _); cbn [fst snd];
      apply (IH _ _ _ now); try done; by apply sameRecent_insert.
  - apply (IH _ _ _ now); try done.
    intros key. rewrite cleanup_entry.
    rewrite inWindow_later by lia.
    by apply (sameRecent_later clock now).
Qed.
End SweepFacts.

(** X17.  When the clock does not go back and every call uses a window
    of at most 120000 ms, the cleanup timer is invisible: the answers of
    the calls are the same as if no timer had ever fired. *)
Theorem sweep_invisible_for_small_windows (evs : list LimiterEvent)
    (store : gmap string (list Z)) :
  StronglySorted Z.le (map eventTime evs) ->
  Forall (fun ev => callWindow ev <= CLEANUP_CUTOFF_MS) evs ->
  fst (limiterRun evs store) = fst (limiterRun (List.filter isCall evs) store).
Proof.
  intros Hsorted Hwin. unfold limiterRun.
  destruct evs as [|ev evs]; [done|].
  apply (sweeps_unseen _ _ _ _ (eventTime ev)); try done.
  cbn [map] in Hsorted. apply StronglySorted_cons in Hsorted as [Hnext _].
  apply Forall_cons. split; [done|].
  apply Forall_forall. intros ev' Hin. rewrite Forall_forall in Hnext.
  apply Hnext. apply list_elem_of_fmap. by exists ev'.
Qed.

Lemma sweep_invisible_for_small_windows_witness :
  let evs := [EvCall "k" 1 60000 0; EvSweep 130000; EvCall "k" 1 60000 130000;
              EvCall "k" 1 60000 140000] in
  fst (limiterRun evs ∅) = fst (limiterRun (List.filter isCall evs) ∅).
Proof.
  intros evs. apply (sweep_invisible_for_small_windows evs ∅).
  - repeat (apply SSorted_cons || apply SSorted_nil || apply Forall_cons_2
            || apply Forall_nil_2); cbn; lia.
  - repeat (apply Forall_cons_2 || apply Forall_nil_2);
      unfold CLEANUP_CUTOFF_MS; cbn; lia.
Defined.

(** X18.  What one firing of the cleanup timer leaves behind: no key
    with an empty list; only timestamps younger than 120000 ms, all of
    them taken from the old entry of the same key; a key is gone exactly
    when it had no entry or only timestamps of that age; and firing
    again at the same reading changes nothing. *)
Theorem cleanup_postcondition (now : Z) (store : gmap string (list Z))
    (key : string) :
  (forall ts, cleanup now store !! key = Some ts ->
     ts <> []
     /\ Forall (fun t => now - t < CLEANUP_CUTOFF_MS) ts
     /\ exists old, store !! key = Some old
                    /\ ts = inWindow CLEANUP_CUTOFF_MS now old)
  /\ (cleanup now store !! key = None <->
      store !! key = None
      \/ exists old, store !! key = Some old
                     /\ Forall (fun t => CLEANUP_CUTOFF_MS <= now - t) old)
  /\ cleanup now (cleanup now store) = cleanup now store.
Proof.
  assert (forall old ts, cleanupEntry now old = Some ts ->
            ts <> [] /\ ts = inWindow CLEANUP_CUTOFF_MS now old) as Hentry.
  { intros old ts. unfold cleanupEntry, inWindow.
    destruct (List.filter _ old); [done|]. by intros [= <-]. }
  assert (forall old, Forall (fun t => now - t < CLEANUP_CUTOFF_MS)
                             (inWindow CLEANUP_CUTOFF_MS now old)) as Hyoung.
  { intros old. apply Forall_forall. intros t Hin.
    apply list_elem_of_In, filter_In in Hin as [_ Hin]. by apply Z.ltb_lt. }
  split; [|split].
  - intros ts. rewrite cleanup_lookup.
    destruct (store !! key) as [old|]; simpl; [|done].
    intros Hts. destruct (Hentry _ _ Hts) as [Hne ->].
    split; [done|]. split; [apply Hyoung | by exists old].
  - rewrite cleanup_lookup. destruct (store !! key) as [old|]; simpl.
    2:{ split; [by left | done]. }
    split.
    + intros Hnone. right. exists old. split; [done|].
      unfold cleanupEntry in Hnone.
      destruct (List.filter _ old) eqn:Hfilter; [|done].
      apply Forall_forall. intros t Hin.
      destruct (Z.ltb_spec (now - t) CLEANUP_CUTOFF_MS) as [Hlt|]; [|done].
      assert (In t (List.filter (fun t => now - t <? CLEANUP_CUTOFF_MS) old))
        as Hkept.
      { apply filter_In. split; [by apply list_elem_of_In | by apply Z.ltb_lt]. }
      rewrite Hfilter in Hkept. done.
    + intros [|(old' & [= <-] & Hold)]; [done|].
      by apply cleanupEntry_all_old.
  - apply map_eq. intros k. rewrite !cleanup_lookup.
    destruct (store !! k) as [old|]; simpl; [|done].
    destruct (cleanupEntry now old) as [ts|] eqn:Hts; simpl; [|done].
    destruct (Hentry _ _ Hts) as [Hne ->].
    unfold cleanupEntry.
    change (List.filter (fun t => now - t <? CLEANUP_CUTOFF_MS))
      with (inWindow CLEANUP_CUTOFF_MS now).
    rewrite inWindow_later by lia.
    by destruct (inWindow CLEANUP_CUTOFF_MS now old).
Qed.

(** X19.  Settings at the edge.  With [maxRequests] zero or negative
    every call is refused.  With [windowMs] zero or negative no earlier
    call counts (when no timestamp lies in the future), so every call is
    allowed as long as [maxRequests] is at least 1.  And a call always
    leaves an entry for its key in the map, also when it refuses. *)
Theorem rateLimit_edge_settings (key : string) (maxRequests windowMs now : Z)
    (store : gmap string (list Z)) :
  let r := rateLimit key maxRequests windowMs now store in
  (maxRequests <= 0 -> fst r = false)
  /\ (windowMs <= 0 -> 1 <= maxRequests ->
      Forall (fun t => t <= now) (default [] (store !! key)) ->
      r = (true, <[key := [now]]> store))
  /\ is_Some (snd r !! key).
Proof.
  intros r. subst r. split; [|split].
  - intros Hmax. rewrite rateLimit_unfold. cbn zeta.
    by destruct (Z.leb_spec maxRequests (Z.of_nat (length
      (List.filter (fun t => now - t <? windowMs) (default [] (store !! key))))));
      [|lia].
  - intros Hwin Hmax Hpast.
    apply (rateLimit_after_window _ _ _ _ _ (default [] (store !! key)));
      [done| |lia].
    eapply Forall_impl; [done|]. intros t Ht. simpl in Ht. lia.
  - rewrite rateLimit_unfold. cbn zeta. destruct (maxRequests <=? _);
      cbn [snd]; rewrite lookup_insert_eq; by eexists.
Qed.

(** ** Reading cookies *)

Section CookieParsing.
Implicit Types (header token piece prefix : string).

Lemma found_cookie prefix (pieces : list string) cookie :
  List.find (startsWith prefix) (map trim pieces) = Some cookie ->
  exists piece, piece ∈ pieces
                /\ trim piece = prefix +:+ substring (String.length prefix) cookie
                /\ cookie = trim piece.
Proof.
  intros Hfind. apply find_some in Hfind as [Hin Hstarts].
  apply in_map_iff in Hin as (piece & <- & Hin).
  exists piece. split; [by apply list_elem_of_In|].
  split; [by apply startsWith_split | done].
Qed.

Lemma no_cookie prefix (pieces : list string) piece :
  List.find (startsWith prefix) (map trim pieces) = None ->
  piece ∈ pieces -> startsWith prefix (trim piece) = false.
Proof.
  intros Hfind Hin. apply (find_none _ _ Hfind).
  apply in_map. by apply list_elem_of_In.
Qed.
End CookieParsing.

(** X20.  What [getSessionTokenFromCookie] and [getCsrfTokenFromCookie]
    read.  A missing or empty header gives null.  A value is returned
    only if one of the pieces between semicolons, trimmed, is the cookie
    name, an equals sign and that value; null is returned only if no
    trimmed piece starts with the name and the equals sign.  When the
    cookie occurs more than once the first occurrence is read. *)
Theorem cookie_readers_sound (header : string) :
  getSessionTokenFromCookie None = None
  /\ getSessionTokenFromCookie (Some EmptyString) = None
  /\ getCsrfTokenFromCookie None = None
  /\ getCsrfTokenFromCookie (Some EmptyString) = None
  /\ (forall token, getSessionTokenFromCookie (Some header) = Some token ->
        exists piece, piece ∈ split ";" header
                      /\ trim piece = "clawsuite-auth=" +:+ token)
  /\ (forall token, getCsrfTokenFromCookie (Some header) = Some token ->
        exists piece, piece ∈ split ";" header
                      /\ trim piece = "clawsuite-csrf=" +:+ token)
  /\ (header <> EmptyString ->
      getSessionTokenFromCookie (Some header) = None ->
      forall piece, piece ∈ split ";" header ->
                    startsWith "clawsuite-auth=" (trim piece) = false)
  /\ (header <> EmptyString ->
      getCsrfTokenFromCookie (Some header) = None ->
      forall piece, piece ∈ split ";" header ->
                    startsWith "clawsuite-csrf=" (trim piece) = false)
  /\ (forall first rest, cookieSafe first = true ->
        getSessionTokenFromCookie
          (Some (("clawsuite-auth=" +:+ first) +:+ String ";" rest))
        = Some first).
Proof.
  unfold getSessionTokenFromCookie, getCsrfTokenFromCookie.
  change (CSRF_COOKIE_NAME +:+ "=") with "clawsuite-csrf=".
  change (String.length CSRF_COOKIE_NAME + 1)%nat
    with (String.length "clawsuite-csrf=").
  repeat split; try done.
  - intros token. destruct (truthy header); cbn [negb]; [|done].
    destruct (List.find _ _) as [cookie|] eqn:Hfind; [|done].
    intros [= <-]. apply found_cookie in Hfind as (piece & Hin & Heq & _).
    by exists piece.
  - intros token. destruct (truthy header); cbn [negb]; [|done].
    destruct (List.find _ _) as [cookie|] eqn:Hfind; [|done].
    intros [= <-]. apply found_cookie in Hfind as (piece & Hin & Heq & _).
    by exists piece.
  - intros Hne. apply truthy_true in Hne. rewrite Hne. cbn [negb].
    destruct (List.find _ _) eqn:Hfind; [done|]. intros _ piece Hin.
    by eapply no_cookie.
  - intros Hne. apply truthy_true in Hne. rewrite Hne. cbn [negb].
    destruct (List.find _ _) eqn:Hfind; [done|]. intros _ piece Hin.
    by eapply no_cookie.
  - intros first rest Hfirst. rewrite pieces_of_assignment by done.
    cbn [List.find]. rewrite startsWith_app.
    by rewrite (substring_app "clawsuite-auth=" first).
Qed.

(** ** The CSRF check on the text of the headers *)

Section CsrfOnHeaders.
Implicit Types (env : gmap string string) (request : Request).
Implicit Types (header value prefix piece : string).

Lemma find_first_piece prefix (pieces : list string) cookie :
  List.find (startsWith prefix) (map trim pieces) = Some cookie <->
  exists before piece after,
    pieces = before ++ piece :: after
    /\ Forall (fun p => startsWith prefix (trim p) = false) before
    /\ startsWith prefix (trim piece) = true /\ cookie = trim piece.
Proof.
  induction pieces as [|p pieces IH]; cbn [map List.find].
  { split; [done|]. intros (before & piece & after & Heq & _).
    by destruct before. }
  destruct (startsWith prefix (trim p)) eqn:Hp.
  - split.
    + intros [= <-]. by exists [], p, pieces.
    + intros ([|q before] & piece & after & Heq & Hbefore & Hpiece & ->).
      * by injection Heq as -> _.
      * injection Heq as -> _. apply Forall_cons in Hbefore as [Hq _].
        congruence.
  - rewrite IH. split.
    + intros (before & piece & after & -> & Hbefore & Hpiece & ->).
      exists (p :: before), piece, after. split; [done|].
      split; [by apply Forall_cons|done].
    + intros ([|q before] & piece & after & Heq & Hbefore & Hpiece & ->).
      * injection Heq as -> _. congruence.
      * injection Heq as -> ->. apply Forall_cons in Hbefore as [_ Hbefore].
        by exists before, piece, after.
Qed.

Lemma getCsrfTokenFromCookie_carries header value :
  getCsrfTokenFromCookie (Some header) = Some value <->
  cookieCarries "clawsuite-csrf" header value.
Proof.
  unfold getCsrfTokenFromCookie, cookieCarries.
  change (CSRF_COOKIE_NAME +:+ "=") with "clawsuite-csrf=".
  change ("clawsuite-csrf" +:+ "=") with "clawsuite-csrf=".
  change (String.length CSRF_COOKIE_NAME + 1)%nat
    with (String.length "clawsuite-csrf=").
  destruct header as [|c header].
  { split; [done|]. intros ([|q before] & piece & after & Heq & _ & Hpiece).
    - injection Heq as <- _. done.
    - injection Heq as _ Heq. by destruct before. }
  set (h := String c header). cbn [truthy negb].
  destruct (List.find _ _) as [cookie|] eqn:Hfind.
  - apply find_first_piece in Hfind
      as (before & piece & after & Heq & Hbefore & Hpiece & ->).
    split.
    + intros [= <-]. exists before, piece, after.
      split; [done|]. split; [done|]. by apply startsWith_split.
    + intros (before' & piece' & after' & Heq' & Hbefore' & Hpiece').
      assert (List.find (startsWith "clawsuite-csrf=") (map trim (split ";" h))
              = Some (trim piece')) as Hfind'.
      { apply find_first_piece. exists before', piece', after'.
        split; [done|]. split; [done|]. split; [|done].
        rewrite Hpiece'. apply startsWith_app. }
      assert (List.find (startsWith "clawsuite-csrf=") (map trim (split ";" h))
              = Some (trim piece)) as Hfind''.
      { apply find_first_piece. by exists before, piece, after. }
      rewrite Hfind' in Hfind''. injection Hfind'' as <-.
      by rewrite Hpiece', substring_app.
  - split; [done|].
    intros (before & piece & after & Heq & Hbefore & Hpiece).
    assert (List.find (startsWith "clawsuite-csrf=") (map trim (split ";" h))
            = Some (trim piece)) as Hfind'.
    { apply find_first_piece. exists before, piece, after.
      split; [done|]. split; [done|]. split; [|done].
      rewrite Hpiece. apply startsWith_app. }
    congruence.
Qed.

Lemma cookieCarries_alone name value :
  cookieSafe name = true -> cookieSafe value = true ->
  cookieCarries name ((name +:+ "=") +:+ value) value.
Proof.
  intros Hname Hvalue.
  assert (cookieSafe ((name +:+ "=") +:+ value) = true) as Hsafe.
  { by rewrite !cookieSafe_app, Hname, Hvalue. }
  exists [], ((name +:+ "=") +:+ value), []. split; [|split; [done|]].
  - by rewrite split_without by by apply cookieSafe_no_semicolon.
  - by apply trim_no_space, cookieSafe_no_space.
Qed.

Lemma cookieCarries_browser sessionToken csrfToken :
  cookieSafe sessionToken = true -> cookieSafe csrfToken = true ->
  cookieCarries "clawsuite-csrf" (browserCookieHeader sessionToken csrfToken)
                csrfToken.
Proof.
  intros Hsession Hcsrf.
  apply getCsrfTokenFromCookie_carries. by apply browserCookieHeader_csrf.
Qed.

Lemma validateCsrf_checked env request cookieToken headerToken :
  isSafeMethod (toUpperCase (method request)) = false ->
  isPasswordProtectionEnabled env = true ->
  getCsrfTokenFromCookie (headers_get "cookie" request) = Some cookieToken ->
  cookieToken <> EmptyString ->
  headers_get "x-csrf-token" request = Some headerToken ->
  validateCsrf env request = bool_decide (headerToken = cookieToken).
Proof.
  intros Hunsafe Hon Hcookie Hne Hheader.
  pose proof (validateCsrf_tokens env request Hunsafe Hon) as Hiff.
  unfold CSRF_HEADER_NAME in Hiff. rewrite Hcookie, Hheader in Hiff.
  destruct (validateCsrf env request).
  - destruct Hiff as [(c & h & [= <-] & [= <-] & _ & _ & _ & Heq) _]; [done|].
    apply Buffer_from_utf8_inj in Heq as <-. by rewrite bool_decide_eq_true_2.
  - case_bool_decide as Hh; [|done]. subst headerToken.
    apply Hiff. by exists cookieToken, cookieToken.
Qed.
End CsrfOnHeaders.

(** C3.  [validateCsrf] answers true for a request whose method is GET,
    HEAD or OPTIONS (in any letter case), whatever its headers; it answers
    true when password protection is disabled; and for any other request
    it answers true exactly when the text of the [Cookie] header carries
    a value under [clawsuite-csrf], the [x-csrf-token] header carries a
    value, neither is empty, and the two have UTF-8 encodings of equal
    length and equal bytes.  So, for such a request: without a [Cookie]
    header the answer is false; without an [x-csrf-token] header the
    answer is false; and when the [Cookie] header is
    [clawsuite-csrf=token], alone or after the session cookie, the
    answer is true for the header value [token] and false for any other
    header value, of the same length or not. *)
Theorem validateCsrf_double_submit (env : gmap string string)
    (request : Request) :
  let m := toUpperCase (method request) in
  let checked :=
    ~ (m = "GET" \/ m = "HEAD" \/ m = "OPTIONS")
    /\ isPasswordProtectionEnabled env = true in
  (forall hs,
      m = "GET" \/ m = "HEAD" \/ m = "OPTIONS" ->
      validateCsrf env (mkRequest (method request) hs) = true)
  /\ (isPasswordProtectionEnabled env = false ->
      validateCsrf env request = true)
  /\ (checked ->
      (validateCsrf env request = true <->
       exists cookieHeader cookieToken headerToken,
         headers_get "cookie" request = Some cookieHeader
         /\ cookieCarries "clawsuite-csrf" cookieHeader cookieToken
         /\ headers_get "x-csrf-token" request = Some headerToken
         /\ cookieToken <> EmptyString /\ headerToken <> EmptyString
         /\ length (Buffer_from_utf8 cookieToken) =
            length (Buffer_from_utf8 headerToken)
         /\ Buffer_from_utf8 cookieToken = Buffer_from_utf8 headerToken))
  /\ (checked -> headers_get "cookie" request = None ->
      validateCsrf env request = false)
  /\ (checked -> headers_get "x-csrf-token" request = None ->
      validateCsrf env request = false)
  /\ (checked ->
      forall sessionToken token headerToken,
        cookieSafe sessionToken = true -> cookieSafe token = true ->
        token <> EmptyString ->
        headers_get "cookie" request = Some ("clawsuite-csrf=" +:+ token)
        \/ headers_get "cookie" request
           = Some (browserCookieHeader sessionToken token) ->
        headers_get "x-csrf-token" request = Some headerToken ->
        validateCsrf env request = bool_decide (headerToken = token)).
Proof.
  intros m checked.
  assert (checked ->
          isSafeMethod m = false /\ isPasswordProtectionEnabled env = true)
    as Hchecked.
  { intros [Hunsafe Hon]. split; [|done].
    destruct (isSafeMethod m) eqn:Hm; [|done].
    by apply isSafeMethod_true in Hm. }
  split; [|split; [|split; [|split; [|split]]]].
  - intros hs Hsafe. apply validateCsrf_safe. by apply isSafeMethod_true.
  - apply validateCsrf_disabled.
  - intros [Hunsafe Hon]%Hchecked.
    rewrite (validateCsrf_tokens env request Hunsafe Hon).
    unfold CSRF_HEADER_NAME. split.
    + intros (c & h & Hcookie & Hrest).
      destruct (headers_get "cookie" request) as [cookieHeader|]; [|done].
      exists cookieHeader, c, h. split; [done|].
      split; [by apply getCsrfTokenFromCookie_carries | done].
    + intros (cookieHeader & c & h & -> & Hcarries & Hrest).
      exists c, h. split; [by apply getCsrfTokenFromCookie_carries | done].
  - intros [Hunsafe Hon]%Hchecked Hnone.
    unfold validateCsrf. fold m. by rewrite Hunsafe, Hon, Hnone.
  - intros [Hunsafe Hon]%Hchecked Hnone.
    unfold validateCsrf, CSRF_HEADER_NAME. fold m.
    rewrite Hunsafe, Hon, Hnone. cbn [negb].
    by destruct (getCsrfTokenFromCookie _).
  - intros [Hunsafe Hon]%Hchecked sessionToken token headerToken
      Hsession Htoken Hne Hcookie Hheader.
    apply validateCsrf_checked; try done.
    destruct Hcookie as [-> | ->]; apply getCsrfTokenFromCookie_carries.
    + by apply (cookieCarries_alone "clawsuite-csrf").
    + by apply cookieCarries_browser.
Qed.

Lemma validateCsrf_double_submit_witness :
  let env : gmap string string := <["CLAWSUITE_PASSWORD" := "secret"]> ∅ in
  validateCsrf env (mkRequest "GET" ∅) = true
  /\ validateCsrf env
       (mkRequest "POST" (<["x-csrf-token" := "abcd"]> ∅)) = false
  /\ validateCsrf env
       (mkRequest "POST" (<["x-csrf-token" := "abcd"]>
                           (<["cookie" := "clawsuite-csrf=abce"]> ∅))) = false
  /\ validateCsrf env
       (mkRequest "POST" (<["x-csrf-token" := "abcd"]>
                           (<["cookie" := "clawsuite-csrf=abcd"]> ∅))) = true
  /\ validateCsrf env
       (mkRequest "POST"
          (<["x-csrf-token" := "abcd"]>
             (<["cookie" := "clawsuite-auth=0a1b; clawsuite-csrf=abcd"]> ∅)))
     = true.
Proof.
  intros env.
  assert (forall hs,
            ~ (toUpperCase (method (mkRequest "POST" hs)) = "GET"
               \/ toUpperCase (method (mkRequest "POST" hs)) = "HEAD"
               \/ toUpperCase (method (mkRequest "POST" hs)) = "OPTIONS")
            /\ isPasswordProtectionEnabled env = true) as Hchecked.
  { intros hs. split; [|reflexivity]. intros [H|[H|H]]; discriminate H. }
  split; [|split; [|split; [|split]]].
  - destruct (validateCsrf_double_submit env (mkRequest "GET" ∅))
      as (Hsafe & _).
    apply (Hsafe ∅). by left.
  - destruct (validateCsrf_double_submit env
                (mkRequest "POST" (<["x-csrf-token" := "abcd"]> ∅)))
      as (_ & _ & _ & Hnocookie & _).
    apply Hnocookie; [apply Hchecked | reflexivity].
  - destruct (validateCsrf_double_submit env
                (mkRequest "POST" (<["x-csrf-token" := "abcd"]>
                                     (<["cookie" := "clawsuite-csrf=abce"]> ∅))))
      as (_ & _ & _ & _ & _ & Hpinned).
    rewrite (Hpinned (Hchecked _) EmptyString "abce" "abcd");
      [reflexivity | reflexivity | reflexivity | discriminate
      | left; reflexivity | reflexivity].
  - destruct (validateCsrf_double_submit env
                (mkRequest "POST" (<["x-csrf-token" := "abcd"]>
                                     (<["cookie" := "clawsuite-csrf=abcd"]> ∅))))
      as (_ & _ & _ & _ & _ & Hpinned).
    rewrite (Hpinned (Hchecked _) EmptyString "abcd" "abcd");
      [reflexivity | reflexivity | reflexivity | discriminate
      | left; reflexivity | reflexivity].
  - destruct (validateCsrf_double_submit env
                (mkRequest "POST"
                   (<["x-csrf-token" := "abcd"]>
                      (<["cookie" := "clawsuite-auth=0a1b; clawsuite-csrf=abcd"]>
                         ∅))))
      as (_ & _ & _ & _ & _ & Hpinned).
    rewrite (Hpinned (Hchecked _) "0a1b" "abcd" "abcd");
      [reflexivity | reflexivity | reflexivity | discriminate
      | right; reflexivity | reflexivity].
Defined.

(** ** The client address behind a trusted proxy *)

Section TrimFacts.
Implicit Types (s : string) (c sep : ascii).

Lemma trimStart_head s :
  trimStart s = EmptyString
  \/ exists c r, trimStart s = String c r /\ isWhiteSpace c = false.
Proof.
  induction s as [|c s IH]; simpl; [by left|].
  destruct (isWhiteSpace c) eqn:Hc; [done|]. right. by exists c, s.
Qed.

Lemma trimEnd_head c s :
  isWhiteSpace c = false -> exists r, trimEnd (String c s) = String c r.
Proof.
  intros Hc. simpl. rewrite Hc. destruct (trimEnd s); by eexists.
Qed.

Lemma trimEnd_idem s : trimEnd (trimEnd s) = trimEnd s.
Proof.
  induction s as [|c s IH]; [done|].
  cbn [trimEnd]. destruct (trimEnd s) as [|d r] eqn:Hr.
  - destruct (isWhiteSpace c) eqn:Hc; [done|]. simpl. by rewrite Hc.
  - cbn [trimEnd] in *. by rewrite IH.
Qed.

Lemma trim_idem s : trim (trim s) = trim s.
Proof.
  unfold trim. destruct (trimStart_head s) as [->|(c & r & -> & Hc)]; [done|].
  destruct (trimEnd_head c r Hc) as [r' Hr']. rewrite Hr'.
  cbn [trimStart]. rewrite Hc, <- Hr'. apply trimEnd_idem.
Qed.

Lemma includes_trimStart sep s :
  includes sep (trimStart s) = true -> includes sep s = true.
Proof.
  induction s as [|c s IH]; simpl; [done|].
  destruct (isWhiteSpace c); [|done]. intros H. rewrite IH by done.
  apply orb_true_r.
Qed.

Lemma includes_trimEnd sep s :
  includes sep (trimEnd s) = true -> includes sep s = true.
Proof.
  induction s as [|c s IH]; [done|].
  cbn [trimEnd]. destruct (trimEnd s) as [|d r] eqn:Hr.
  - destruct (isWhiteSpace c); [done|]. simpl.
    rewrite orb_false_r. intros ->. done.
  - cbn [includes]. intros [->|H]%orb_true_iff; [done|].
    rewrite IH by done. apply orb_true_r.
Qed.

Lemma includes_trim sep s : includes sep s = false -> includes sep (trim s) = false.
Proof.
  intros Hs. destruct (includes sep (trim s)) eqn:Ht; [|done].
  apply includes_trimEnd, includes_trimStart in Ht. congruence.
Qed.

Lemma split_pieces_clean sep s :
  Forall (fun piece => includes sep piece = false) (split sep s).
Proof.
  induction s as [|c s IH]; simpl; [by repeat constructor|].
  destruct (Ascii.eqb c sep) eqn:Hc; [by constructor|].
  destruct (split sep s) as [|piece rest].
  - constructor; [|done]. simpl. by rewrite Hc.
  - apply Forall_cons in IH as [Hpiece Hrest].
    constructor; [|done]. simpl. by rewrite Hc.
Qed.

Lemma first_piece_clean sep s :
  includes sep (hd EmptyString (split sep s)) = false.
Proof.
  pose proof (split_pieces_clean sep s) as Hall.
  destruct (split sep s); [done|]. by apply Forall_cons in Hall as [? _].
Qed.
End TrimFacts.

(** X21.  Behind a trusted proxy ([TRUSTED_PROXY_IP] holds something
    other than white space): a non-empty [x-real-ip] header decides,
    whatever [x-forwarded-for] says; otherwise the first element of a
    non-empty [x-forwarded-for] decides, and the answer contains no
    comma; without either header the answer is the placeholder.  The
    value of [TRUSTED_PROXY_IP] is only a switch: any other non-blank
    value gives the same answer.  Under every configuration the answer
    has no white space at its ends. *)
Theorem getClientIp_behind_proxy (env : gmap string string)
    (request : Request) (proxy : string) :
  env !! "TRUSTED_PROXY_IP" = Some proxy -> trim proxy <> EmptyString ->
  let realIp := headers_get "x-real-ip" request in
  let forwarded := headers_get "x-forwarded-for" request in
  (forall ip, realIp = Some ip -> ip <> EmptyString ->
     getClientIp env request = trim ip)
  /\ (realIp = None \/ realIp = Some EmptyString ->
      forall list, forwarded = Some list -> list <> EmptyString ->
        getClientIp env request = trim (hd EmptyString (split "," list))
        /\ includes "," (getClientIp env request) = false)
  /\ (realIp = None \/ realIp = Some EmptyString ->
      forwarded = None \/ forwarded = Some EmptyString ->
      getClientIp env request = "local")
  /\ (forall (env' : gmap string string) proxy',
        env' !! "TRUSTED_PROXY_IP" = Some proxy' ->
        trim proxy' <> EmptyString ->
        getClientIp env' request = getClientIp env request)
  /\ (forall (env' : gmap string string) request',
        trim (getClientIp env' request') = getClientIp env' request').
Proof.
  intros Hproxy Hset realIp forwarded.
  assert (forall (env' : gmap string string) proxy',
            env' !! "TRUSTED_PROXY_IP" = Some proxy' ->
            trim proxy' <> EmptyString ->
            getClientIp env' request =
            match realIp with
            | Some ip =>
                if truthy ip then trim ip
                else match forwarded with
                     | Some list =>
                         if truthy list
                         then trim (hd EmptyString (split "," list))
                         else "local"
                     | None => "local"
                     end
            | None =>
                match forwarded with
                | Some list =>
                    if truthy list
                    then trim (hd EmptyString (split "," list))
                    else "local"
                | None => "local"
                end
            end) as Hshape.
  { intros env' proxy' Hp Hne. unfold getClientIp. rewrite Hp. simpl.
    apply truthy_true in Hne. by rewrite Hne. }
  rewrite (Hshape env proxy) by done.
  split; [|split; [|split; [|split]]].
  - intros ip -> Hip. apply truthy_true in Hip. by rewrite Hip.
  - intros Hreal list Hlist Hne. apply truthy_true in Hne.
    assert (match realIp with
            | Some ip =>
                if truthy ip then trim ip
                else match forwarded with
                     | Some list =>
                         if truthy list
                         then trim (hd EmptyString (split "," list))
                         else "local"
                     | None => "local"
                     end
            | None =>
                match forwarded with
                | Some list =>
                    if truthy list
                    then trim (hd EmptyString (split "," list))
                    else "local"
                | None => "local"
                end
            end = trim (hd EmptyString (split "," list))) as ->.
    { destruct Hreal as [-> | ->]; rewrite Hlist; simpl; by rewrite Hne. }
    split; [done|]. apply includes_trim, first_piece_clean.
  - intros [-> | ->] [-> | ->]; done.
  - intros env' proxy' Hp Hne. by rewrite (Hshape env' proxy').
  - intros env' request'. unfold getClientIp.
    destruct (truthyOpt _); [|done].
    destruct (headers_get "x-real-ip" request') as [ip|];
      [destruct (truthy ip); [apply trim_idem|]|];
      (destruct (headers_get "x-forwarded-for" request') as [list|];
       [destruct (truthy list); [apply trim_idem | done] | done]).
Qed.

Lemma getClientIp_behind_proxy_witness :
  let env : gmap string string := <["TRUSTED_PROXY_IP" := "10.0.0.1"]> ∅ in
  let request :=
    mkRequest "GET" (<["x-forwarded-for" := "203.0.113.9, 10.0.0.1"]> ∅) in
  let realIp := headers_get "x-real-ip" request in
  let forwarded := headers_get "x-forwarded-for" request in
  (forall ip, realIp = Some ip -> ip <> EmptyString ->
     getClientIp env request = trim ip)
  /\ (realIp = None \/ realIp = Some EmptyString ->
      forall list, forwarded = Some list -> list <> EmptyString ->
        getClientIp env request = trim (hd EmptyString (split "," list))
        /\ includes "," (getClientIp env request) = false)
  /\ (realIp = None \/ realIp = Some EmptyString ->
      forwarded = None \/ forwarded = Some EmptyString ->
      getClientIp env request = "local")
  /\ (forall (env' : gmap string string) proxy',
        env' !! "TRUSTED_PROXY_IP" = Some proxy' ->
        trim proxy' <> EmptyString ->
        getClientIp env' request = getClientIp env request)
  /\ (forall (env' : gmap string string) request',
        trim (getClientIp env' request') = getClientIp env' request').
Proof.
  intros env request.
  apply (getClientIp_behind_proxy env request "10.0.0.1");
    [reflexivity | discriminate].
Defined.

(** ** One bucket for everybody *)

(** X22.  Without a trusted proxy every request gets the same rate-limit
    key, so all clients draw on one allowance: once [maxRequests] calls
    keyed by [getClientIp], from any requests at all, have been allowed,
    a call keyed by [getClientIp] of any other request inside the same
    window is refused. *)
Theorem one_bucket_without_proxy (env : gmap string string)
    (requests : list Request) (another : Request)
    (maxRequests windowMs t0 tLate : Z) :
  (env !! "TRUSTED_PROXY_IP" = None
   \/ exists proxy, env !! "TRUSTED_PROXY_IP" = Some proxy
                    /\ trim proxy = EmptyString) ->
  Z.of_nat (length requests) = maxRequests ->
  0 < windowMs -> tLate - t0 < windowMs ->
  let calls :=
    map (fun r => EvCall (getClientIp env r) maxRequests windowMs t0)
        requests in
  let late := EvCall (getClientIp env another) maxRequests windowMs tLate in
  fst (limiterRun (calls ++ [late]) ∅)
  = replicate (length requests) true ++ [false].
Proof.
  intros Hno Hcount Hpos Hlate calls late.
  assert (forall r, getClientIp env r = "local") as Hkey.
  { intros r. apply getClientIp_fallback.
    destruct Hno as [->|(proxy & -> & Htrim)]; simpl; [done|].
    by rewrite Htrim. }
  assert (calls = replicate (length requests)
                            (EvCall "local" maxRequests windowMs t0)) as ->.
  { subst calls. clear Hcount. induction requests as [|r rs IH]; [done|].
    simpl. by rewrite Hkey, IH. }
  subst late. rewrite Hkey.
  destruct (burst_allowed "local" maxRequests windowMs t0 (length requests)
              [] ∅ 0) as [Hfst Hsnd];
    [by rewrite lookup_empty | lia | done |].
  unfold limiterRun. rewrite fold_left_app.
  destruct (fold_left limiterStep _ ([], ∅)) as [acc st].
  simpl in *. subst acc.
  rewrite (rateLimit_deny _ _ _ _ _ (replicate (length requests) t0));
    [done | done | |].
  - apply Forall_replicate. lia.
  - rewrite length_replicate. lia.
Qed.

Lemma one_bucket_without_proxy_witness :
  let env : gmap string string := ∅ in
  let alice := mkRequest "POST" (<["x-forwarded-for" := "198.51.100.7"]> ∅) in
  let bob := mkRequest "POST" (<["x-forwarded-for" := "203.0.113.9"]> ∅) in
  let calls :=
    map (fun r => EvCall (getClientIp env r) 2 1000 5000) [alice; alice] in
  let late := EvCall (getClientIp env bob) 2 1000 5500 in
  fst (limiterRun (calls ++ [late]) ∅) = replicate 2 true ++ [false].
Proof.
  intros env alice bob.
  apply (one_bucket_without_proxy env [alice; alice] bob 2 1000 5000 5500).
  - left. apply lookup_empty.
  - reflexivity.
  - lia.
  - lia.
Defined.

(** ** Parts of the hash descriptor beyond the third *)

Lemma descriptor_parts (salt iterations hash : string) (more : list string) :
  includes ":" salt = false -> includes ":" iterations = false ->
  includes ":" hash = false ->
  split ":" (descriptorOf salt iterations hash) = [salt; iterations; hash]
  /\ forall extra,
       split ":" (descriptorOf salt iterations hash +:+ String ":" extra)
       = salt :: iterations :: hash :: split ":" extra.
Proof.
  intros Hsalt Hiter Hhash. unfold descriptorOf. split.
  - change (salt +:+ ":" +:+ iterations +:+ ":" +:+ hash)
      with (salt +:+ String ":" (iterations +:+ String ":" hash)).
    rewrite !split_app by done. by rewrite split_without.
  - intros extra. rewrite !append_assoc.
    change (salt +:+ ":" +:+ iterations +:+ ":" +:+ hash +:+ String ":" extra)
      with (salt +:+ String ":"
              (iterations +:+ String ":" (hash +:+ String ":" extra))).
    by rewrite !split_app.
Qed.

(** X23.  Only the first three parts of the hash descriptor are read:
    for parts without delimiter, whatever follows a further [:] after
    the hash changes no answer of [verifyPassword]. *)
Theorem verifyPassword_ignores_extra_parts
    (kdf : JsString -> string -> Z -> list byte)
    (env : gmap string string)
    (salt iterations hash extra : string) (password : JsString) :
  includes ":" salt = false -> includes ":" iterations = false ->
  includes ":" hash = false ->
  let plain := descriptorOf salt iterations hash in
  let longer := plain +:+ String ":" extra in
  verifyPassword kdf (<["CLAWSUITE_PASSWORD_HASH" := longer]> env) password
  = verifyPassword kdf (<["CLAWSUITE_PASSWORD_HASH" := plain]> env) password.
Proof.
  intros Hsalt Hiter Hhash plain longer.
  destruct (descriptor_parts salt iterations hash [] Hsalt Hiter Hhash)
    as [Hplain Hlonger]. specialize (Hlonger extra).
  fold plain in Hplain, Hlonger. fold longer in Hlonger.
  assert (includes ":" plain = true) as Hsep1.
  { subst plain. unfold descriptorOf. rewrite includes_app.
    apply orb_true_iff. by right. }
  assert (includes ":" longer = true) as Hsep2.
  { subst longer. rewrite includes_app, Hsep1. done. }
  assert (truthy plain = true) as Ht1 by by destruct plain.
  assert (truthy longer = true) as Ht2 by by destruct longer.
  unfold verifyPassword, verifyPasswordWith, hashAttempt.
  rewrite !lookup_insert_eq, !lookup_insert_ne by done.
  by rewrite Hsep1, Hsep2, Ht1, Ht2, Hplain, Hlonger.
Qed.

Lemma verifyPassword_ignores_extra_parts_witness :
  let plain := descriptorOf "salt" "abc" "00" in
  let longer := plain +:+ String ":" "sha256:v2" in
  verifyPassword pbkdf2HmacSha256
    (<["CLAWSUITE_PASSWORD_HASH" := longer]> ∅) (wide "pw")
  = verifyPassword pbkdf2HmacSha256
      (<["CLAWSUITE_PASSWORD_HASH" := plain]> ∅) (wide "pw").
Proof.
  apply (verifyPassword_ignores_extra_parts pbkdf2HmacSha256 ∅
           "salt" "abc" "00" "sha256:v2" (wide "pw")); reflexivity.
Defined.
